(** * The IR layer of simple-jit-cpp (vm/students/2014/zhirkov/vm/ir/ir.h)

    A shallow embedding of the IR node hierarchy, of the narrowing queries
    generated by the [FOR_IR] macros, of the [Block] linkage methods, of
    [Function::argument] and of the destructors, over an explicit C++
    object store.

    Objects live in a store indexed by addresses; a pointer is an address
    and [NULL] is address 0.  A method that dereferences a null or dangling
    pointer, or a pointer whose target has the wrong dynamic type, has no
    defined behaviour: the embedding returns [None] there.

    [Block::relink] and [Function::~Function] are declared in ir.h and
    defined elsewhere; they are modelled from the specification and
    marked as such. *)

From stdpp Require Import gmap strings list pretty.

Open Scope Z_scope.

#[local] Set Warnings "-clear-no-such-hyp".

(** ** Addresses and machine integers *)

Abbreviation ptr := N.
Definition NULL : ptr := 0%N.

(** [typedef uint64_t VarId;] *)
Abbreviation VarId := Z.

(** [size_t] is 64 bits wide; arithmetic on it wraps. *)
Definition SIZE_MAX1 : Z := 2 ^ 64.
Definition size_t_sub (a b : Z) : Z := (a - b) mod SIZE_MAX1.
Definition size_t_add (a b : Z) : Z := (a + b) mod SIZE_MAX1.

(** ** The closed list of node names, [FOR_IR] *)

Inductive ir : Set :=
  | ir_BinOp | ir_UnOp | ir_Variable | ir_Return | ir_Phi | ir_Int
  | ir_Double | ir_Ptr | ir_Block | ir_Assignment | ir_Call | ir_Print
  | ir_Function | ir_JumpAlways | ir_JumpCond | ir_WriteRef | ir_ReadRef.

Definition FOR_IR : list ir :=
  [ ir_BinOp; ir_UnOp; ir_Variable; ir_Return; ir_Phi; ir_Int; ir_Double;
    ir_Ptr; ir_Block; ir_Assignment; ir_Call; ir_Print; ir_Function;
    ir_JumpAlways; ir_JumpCond; ir_WriteRef; ir_ReadRef ].

#[global] Instance ir_eq_dec : EqDecision ir.
Proof. solve_decision. Defined.

(** [enum IrType { IT_BinOp, ..., IT_ReadRef, IT_INVALID }]: one
    discriminant [IT_##ir] per name of [FOR_IR], then [IT_INVALID]. *)
Inductive IrType : Set :=
  | IT (name : ir)
  | IT_INVALID.

#[global] Instance IrType_eq_dec : EqDecision IrType.
Proof. solve_decision. Defined.

Inductive VarType : Set :=
  | VT_Undefined | VT_Unit | VT_Int | VT_Double | VT_Ptr | VT_Error.

Inductive BinOp_Type : Set :=
  | BO_ADD | BO_FADD | BO_SUB | BO_FSUB | BO_MUL | BO_FMUL | BO_DIV
  | BO_FDIV | BO_MOD | BO_LT | BO_FLT | BO_LE | BO_FLE | BO_EQ | BO_NEQ
  | BO_OR | BO_AND | BO_LOR | BO_LAND | BO_XOR | BO_INVALID.

Inductive UnOp_Type : Set :=
  | UO_CAST_I2D | UO_CAST_D2I | UO_NEG | UO_FNEG | UO_NOT | UO_INVALID.

(** ** Objects

    One constructor per concrete struct, with the struct's fields
    ([Variable_] for [struct Variable], whose name is reserved).  Fields
    of pointer type hold addresses.  A [double] is kept as its 64-bit
    pattern; [Statement::num] is bookkeeping that no modelled method reads
    and is left out. *)

Inductive IrElement : Type :=
  | BinOp (left right : ptr) (type : BinOp_Type)
  | UnOp (operand : ptr) (type : UnOp_Type)
  | Variable_ (id : VarId)
  | Return (atom : ptr)
  | Phi (var : ptr) (vars : gset ptr)
  | Int (value : Z)
  | Double (value : Z)
  | Ptr (value : Z) (isPooledString : bool)
  | Block (_transition : ptr) (name : string)
          (predecessors : gset ptr) (contents : list ptr)
  | Assignment (var value : ptr)
  | Call (funId : Z) (params : list ptr) (refParams : list VarId)
  | Print (atom : ptr)
  | Function (name : string) (id : Z) (entry : ptr)
             (parametersIds refParameterIds memoryCells : list VarId)
             (returnType : VarType) (nativeAddress : ptr)
  | JumpAlways (destination : ptr)
  | JumpCond (yes no : ptr) (condition : ptr)
  | WriteRef (atom : ptr) (refId : VarId)
  | ReadRef (refId : VarId).

(** The struct an object was constructed as. *)
Definition variant (e : IrElement) : ir :=
  match e with
  | BinOp _ _ _ => ir_BinOp
  | UnOp _ _ => ir_UnOp
  | Variable_ _ => ir_Variable
  | Return _ => ir_Return
  | Phi _ _ => ir_Phi
  | Int _ => ir_Int
  | Double _ => ir_Double
  | Ptr _ _ => ir_Ptr
  | Block _ _ _ _ => ir_Block
  | Assignment _ _ => ir_Assignment
  | Call _ _ _ => ir_Call
  | Print _ => ir_Print
  | Function _ _ _ _ _ _ _ _ => ir_Function
  | JumpAlways _ => ir_JumpAlways
  | JumpCond _ _ _ => ir_JumpCond
  | WriteRef _ _ => ir_WriteRef
  | ReadRef _ => ir_ReadRef
  end.

(** ** Virtual methods

    The virtual query methods of an object, as seen from its address
    [this].  [is_ x] stands for the method [is##x()], [as_ x] for
    [as##x()]; [getType] is pure virtual in [IrElement] ([None]). *)

Record vtable : Type := {
  getType : option IrType;
  isAtom : bool;
  isLiteral : bool;
  isExpression : bool;
  asAtom : ptr;
  asExpression : ptr;
  is_ : ir → bool;
  as_ : ir → ptr
}.

Module Classes.

(** [class IrElement]: the defaults, with [FOR_IR(HELPER)]. *)
Definition IrElement (this : ptr) : vtable :=
  {| getType := None;
     isAtom := false;
     isLiteral := false;
     isExpression := false;
     asAtom := NULL;
     asExpression := NULL;
     is_ := λ _, false;
     as_ := λ _, NULL |}.

(** [IR_COMMON_FUNCTIONS(ir)] overrides [is##ir], [as##ir] and
    [getType] of the class it is expanded in. *)
Definition IR_COMMON_FUNCTIONS (name : ir) (base : vtable) (this : ptr)
  : vtable :=
  {| getType := Some (IT name);
     isAtom := isAtom base;
     isLiteral := isLiteral base;
     isExpression := isExpression base;
     asAtom := asAtom base;
     asExpression := asExpression base;
     is_ := λ x, if decide (x = name) then true else is_ base x;
     as_ := λ x, if decide (x = name) then this else as_ base x |}.

Definition Expression (this : ptr) : vtable :=
  let base := IrElement this in
  {| getType := getType base;
     isAtom := isAtom base;
     isLiteral := isLiteral base;
     isExpression := true;
     asAtom := asAtom base;
     asExpression := this;
     is_ := is_ base;
     as_ := as_ base |}.

Definition Atom (this : ptr) : vtable :=
  let base := Expression this in
  {| getType := getType base;
     isAtom := true;
     isLiteral := isLiteral base;
     isExpression := isExpression base;
     asAtom := this;
     asExpression := asExpression base;
     is_ := is_ base;
     as_ := as_ base |}.

(** The literals [Int], [Double] and [Ptr] override [isLiteral]. *)
Definition Literal (base : vtable) : vtable :=
  {| getType := getType base;
     isAtom := isAtom base;
     isLiteral := true;
     isExpression := isExpression base;
     asAtom := asAtom base;
     asExpression := asExpression base;
     is_ := is_ base;
     as_ := as_ base |}.

Definition Statement (this : ptr) : vtable := IrElement this.
Definition Jump (this : ptr) : vtable := Statement this.

Definition Variable_ this :=
  IR_COMMON_FUNCTIONS ir_Variable (Atom this) this.
Definition JumpAlways this :=
  IR_COMMON_FUNCTIONS ir_JumpAlways (Jump this) this.
Definition JumpCond this :=
  IR_COMMON_FUNCTIONS ir_JumpCond (Jump this) this.
Definition Assignment this :=
  IR_COMMON_FUNCTIONS ir_Assignment (Statement this) this.
Definition Return this := IR_COMMON_FUNCTIONS ir_Return (Statement this) this.
Definition Phi this := IR_COMMON_FUNCTIONS ir_Phi (Statement this) this.
Definition Call this := IR_COMMON_FUNCTIONS ir_Call (Expression this) this.
Definition BinOp this := IR_COMMON_FUNCTIONS ir_BinOp (Expression this) this.
Definition UnOp this := IR_COMMON_FUNCTIONS ir_UnOp (Expression this) this.
Definition Int this :=
  IR_COMMON_FUNCTIONS ir_Int (Literal (Atom this)) this.
Definition Double this :=
  IR_COMMON_FUNCTIONS ir_Double (Literal (Atom this)) this.
Definition Ptr this :=
  IR_COMMON_FUNCTIONS ir_Ptr (Literal (Atom this)) this.
Definition Block this := IR_COMMON_FUNCTIONS ir_Block (IrElement this) this.
Definition Function this :=
  IR_COMMON_FUNCTIONS ir_Function (IrElement this) this.
Definition Print this := IR_COMMON_FUNCTIONS ir_Print (Statement this) this.
Definition WriteRef this :=
  IR_COMMON_FUNCTIONS ir_WriteRef (Statement this) this.
Definition ReadRef this := IR_COMMON_FUNCTIONS ir_ReadRef (Atom this) this.

End Classes.

(** Dynamic dispatch: the method table of the object [e] at [this]. *)
Definition vtable_of (e : IrElement) (this : ptr) : vtable :=
  match e with
  | BinOp _ _ _ => Classes.BinOp this
  | UnOp _ _ => Classes.UnOp this
  | Variable_ _ => Classes.Variable_ this
  | Return _ => Classes.Return this
  | Phi _ _ => Classes.Phi this
  | Int _ => Classes.Int this
  | Double _ => Classes.Double this
  | Ptr _ _ => Classes.Ptr this
  | Block _ _ _ _ => Classes.Block this
  | Assignment _ _ => Classes.Assignment this
  | Call _ _ _ => Classes.Call this
  | Print _ => Classes.Print this
  | Function _ _ _ _ _ _ _ _ => Classes.Function this
  | JumpAlways _ => Classes.JumpAlways this
  | JumpCond _ _ _ => Classes.JumpCond this
  | WriteRef _ _ => Classes.WriteRef this
  | ReadRef _ => Classes.ReadRef this
  end.

(** ** The object store *)

(** [heap] holds the live objects; [released] logs every address handed
    to [operator delete], most recent first. *)
Record State : Type := {
  heap : gmap ptr IrElement;
  released : list ptr
}.

Definition deref (s : State) (p : ptr) : option IrElement :=
  if decide (p = NULL) then None else heap s !! p.

Definition store (p : ptr) (e : IrElement) (s : State) : State :=
  {| heap := <[p := e]> (heap s); released := released s |}.

(** Deallocation of a live object. *)
Definition free (p : ptr) (s : State) : option State :=
  _ ← deref s p;
  Some {| heap := delete p (heap s); released := p :: released s |}.

(** [new T(...)]: the object is placed at an address that is not null and
    was never in use. *)
Definition new_address (s : State) : ptr :=
  fresh ({[NULL]} ∪ dom (heap s) ∪ list_to_set (released s) : gset ptr).

Definition new (e : IrElement) (s : State) : ptr * State :=
  let p := new_address s in (p, store p e s).

(** *** Field reads and writes through typed pointers *)

Definition Block_transition (s : State) (this : ptr) : option ptr :=
  e ← deref s this;
  match e with Block t _ _ _ => Some t | _ => None end.

Definition Block_predecessors (s : State) (this : ptr) : option (gset ptr) :=
  e ← deref s this;
  match e with Block _ _ p _ => Some p | _ => None end.

Definition Block_contents (s : State) (this : ptr) : option (list ptr) :=
  e ← deref s this;
  match e with Block _ _ _ c => Some c | _ => None end.

Definition set_Block_transition (this jmp : ptr) (s : State) : option State :=
  e ← deref s this;
  match e with
  | Block _ n p c => Some (store this (Block jmp n p c) s)
  | _ => None
  end.

Definition set_Block_predecessors (this : ptr) (preds : gset ptr) (s : State)
  : option State :=
  e ← deref s this;
  match e with
  | Block t n _ c => Some (store this (Block t n preds c) s)
  | _ => None
  end.

Definition JumpAlways_destination (s : State) (j : ptr) : option ptr :=
  e ← deref s j;
  match e with JumpAlways d => Some d | _ => None end.

Definition JumpCond_yes (s : State) (j : ptr) : option ptr :=
  e ← deref s j;
  match e with JumpCond y _ _ => Some y | _ => None end.

Definition JumpCond_no (s : State) (j : ptr) : option ptr :=
  e ← deref s j;
  match e with JumpCond _ n _ => Some n | _ => None end.

(** A virtual call [p->is##x()] and [p->as##x()]. *)
Definition call_is (x : ir) (s : State) (p : ptr) : option bool :=
  e ← deref s p; Some (is_ (vtable_of e p) x).

Definition call_as (x : ir) (s : State) (p : ptr) : option ptr :=
  e ← deref s p; Some (as_ (vtable_of e p) x).

Definition call_getType (s : State) (p : ptr) : option IrType :=
  e ← deref s p; getType (vtable_of e p).

(** ** Destructors

    [delete p] does nothing on a null pointer; otherwise it runs the
    destructor of the object's dynamic type, then deallocates it.  The
    static type of [p] bounds the dynamic types it may meet. *)

Fixpoint delete_each (del : ptr → State → option State)
    (ps : list ptr) (s : State) : option State :=
  match ps with
  | [] => Some s
  | p :: ps' => s' ← del p s; delete_each del ps' s'
  end.

(** [delete] on an [Atom const *]: no atom owns anything. *)
Definition delete_Atom (p : ptr) (s : State) : option State :=
  if decide (p = NULL) then Some s else
  e ← deref s p;
  match e with
  | Variable_ _ | Int _ | Double _ | Ptr _ _ | ReadRef _ => free p s
  | _ => None
  end.

(** [delete] on a [Variable const *]. *)
Definition delete_Variable (p : ptr) (s : State) : option State :=
  if decide (p = NULL) then Some s else
  e ← deref s p;
  match e with
  | Variable_ _ => free p s
  | _ => None
  end.

(** [delete] on an [Expression const *]: [~BinOp], [~UnOp], [~Call]. *)
Definition delete_Expression (p : ptr) (s : State) : option State :=
  if decide (p = NULL) then Some s else
  e ← deref s p;
  match e with
  | BinOp l r _ => s1 ← delete_Atom l s; s2 ← delete_Atom r s1; free p s2
  | UnOp o _ => s1 ← delete_Atom o s; free p s1
  | Call _ ps _ => s1 ← delete_each delete_Atom ps s; free p s1
  | Variable_ _ | Int _ | Double _ | Ptr _ _ | ReadRef _ => free p s
  | _ => None
  end.

(** [delete] on a [Statement const *]: [~Assignment], [~Return], [~Phi],
    [~Print], [~WriteRef], [~JumpAlways], [~JumpCond].  [~Phi] walks the
    set [vars] in the order of [elements]; the order among the sources of
    a [Phi] only shows in the order of the release log. *)
Definition delete_Statement (p : ptr) (s : State) : option State :=
  if decide (p = NULL) then Some s else
  e ← deref s p;
  match e with
  | Assignment v x =>
      s1 ← delete_Variable v s; s2 ← delete_Expression x s1; free p s2
  | Return a | Print a | WriteRef a _ => s1 ← delete_Atom a s; free p s1
  | Phi v vs =>
      s1 ← delete_Variable v s;
      s2 ← delete_each delete_Variable (elements vs) s1;
      free p s2
  | JumpAlways _ => free p s
  | JumpCond _ _ c => s1 ← delete_Atom c s; free p s1
  | _ => None
  end.

(** [delete] on a [Jump *]. *)
Definition delete_Jump (p : ptr) (s : State) : option State :=
  if decide (p = NULL) then Some s else
  e ← deref s p;
  match e with
  | JumpAlways _ | JumpCond _ _ _ => delete_Statement p s
  | _ => None
  end.

(** ** [struct Block] *)

Definition getTransition (this : ptr) (s : State) : option ptr :=
  Block_transition s this.

Definition addPredecessor (this block : ptr) (s : State) : option State :=
  preds ← Block_predecessors s this;
  set_Block_predecessors this ({[block]} ∪ preds) s.

Definition removePredecessor (this block : ptr) (s : State) : option State :=
  preds ← Block_predecessors s this;
  set_Block_predecessors this (preds ∖ {[block]}) s.

Definition setTransition (this jmp : ptr) (s : State) : option State :=
  s1 ← set_Block_transition this jmp s;
  if decide (jmp = NULL) then Some s1 else
  isJumpAlways ← call_is ir_JumpAlways s1 jmp;
  if isJumpAlways : bool then
    ja ← call_as ir_JumpAlways s1 jmp;
    d ← JumpAlways_destination s1 ja;
    addPredecessor d this s1
  else
    jc ← call_as ir_JumpCond s1 jmp;
    y ← JumpCond_yes s1 jc;
    s2 ← addPredecessor y this s1;
    jc' ← call_as ir_JumpCond s2 jmp;
    n ← JumpCond_no s2 jc';
    addPredecessor n this s2.

Definition isLastBlock (this : ptr) (s : State) : option bool :=
  t ← getTransition this s; Some (bool_decide (t = NULL)).

(** [&&] evaluates its right operand only when the left one is true. *)
Definition isEmpty (this : ptr) (s : State) : option bool :=
  c ← Block_contents s this;
  if bool_decide (length c = 0%nat) then
    last ← isLastBlock this s;
    if negb last then
      t ← getTransition this s;
      call_is ir_JumpAlways s t
    else Some false
  else Some false.

Definition isEntry (this : ptr) (s : State) : option bool :=
  preds ← Block_predecessors s this;
  Some (bool_decide (size preds = 0%nat)).

(** [void link(JumpCond *cond)] *)
Definition link_cond (this cond : ptr) (s : State) : option State :=
  t ← Block_transition s this;
  s1 ← (if decide (t = NULL) then Some s else delete_Jump t s);
  s2 ← set_Block_transition this cond s1;
  y ← JumpCond_yes s2 cond;
  s3 ← addPredecessor y this s2;
  n ← JumpCond_no s3 cond;
  addPredecessor n this s3.

(** [void link(Block *next)] *)
Definition link (this next : ptr) (s : State) : option State :=
  t ← Block_transition s this;
  s1 ← (if decide (t = NULL) then Some s else delete_Jump t s);
  let '(j, s2) := new (JumpAlways next) s1 in
  s3 ← set_Block_transition this j s2;
  addPredecessor next this s3.

(** [~Block]: deletes the statements, then the transition. *)
Definition delete_Block (p : ptr) (s : State) : option State :=
  if decide (p = NULL) then Some s else
  e ← deref s p;
  match e with
  | Block t _ _ c =>
      s1 ← delete_each delete_Statement c s;
      s2 ← delete_Jump t s1;
      free p s2
  | _ => None
  end.

(** Modelled from the spec: the replacement of a block's Jump, the step
    by which [Block::relink] (declared in ir.h, its body not among the
    sources) commits an edited Jump.  The spec rules out editing the
    installed Jump: "each concrete node type is immutable in its
    structural fields (operands, destination, condition) once constructed
    - mutation of a program happens by replacing nodes (new Assignment,
    new Jump)", and the destinations are [const] fields in ir.h.  The
    edited Jump is a new node, as the helpers [replaceYes] and [replaceNo]
    "return a new JumpCond with one destination swapped, leaving the
    original untouched".  It becomes the block's Jump and the node it
    replaces is released, since "a Jump is exclusively owned by the Block
    it terminates".  The copy carries the condition of the original, so
    only the replaced Jump node itself is released, not its condition. *)
Definition replace_transition (this t : ptr) (copy : IrElement) (s : State)
  : option State :=
  let '(t', s1) := new copy s in
  s2 ← set_Block_transition this t' s1;
  free t s2.

(** Modelled from the spec: [Block::relink], which ir.h only declares
    ([bool relink(Block * oldChild, Block* newChild);]); its body is not
    among the sources.  The spec says: "rewrite this Block's Jump so that
    every edge previously pointing at oldChild now points at newChild;
    atomically removes this Block from oldChild.predecessors and adds it to
    newChild.predecessors.  Fails (reports no such edge) if oldChild was
    not actually a destination of this Block's Jump", and that a failed
    edit leaves the graph as it was.  The result is the method's [bool].
    The rewritten Jump is a copy with the destinations swapped, put in
    place of the original by [replace_transition]. *)
Definition relink (this oldChild newChild : ptr) (s : State)
  : option (bool * State) :=
  t ← Block_transition s this;
  if decide (t = NULL) then Some (false, s) else
  j ← deref s t;
  let swap (b : ptr) := if decide (b = oldChild) then newChild else b in
  match j with
  | JumpAlways d =>
      if decide (d = oldChild) then
        s1 ← replace_transition this t (JumpAlways (swap d)) s;
        s2 ← removePredecessor oldChild this s1;
        s3 ← addPredecessor newChild this s2;
        Some (true, s3)
      else Some (false, s)
  | JumpCond y n c =>
      if decide (y = oldChild ∨ n = oldChild) then
        s1 ← replace_transition this t (JumpCond (swap y) (swap n) c) s;
        s2 ← removePredecessor oldChild this s1;
        s3 ← addPredecessor newChild this s2;
        Some (true, s3)
      else Some (false, s)
  | _ => None
  end.

(** ** [class Function] *)

(** What a call hands back: a value, or a thrown exception. *)
Inductive exception : Type :=
  | out_of_range (what : string).

Inductive outcome (A : Type) : Type :=
  | Returns (a : A)
  | Throws (e : exception).
Arguments Returns {A} a.
Arguments Throws {A} e.

(** [std::vector::size()]. *)
Definition vector_size {A} (v : list A) : Z := Z.of_nat (length v).

Definition Function_parametersIds (s : State) (this : ptr)
  : option (list VarId) :=
  e ← deref s this;
  match e with Function _ _ _ ps _ _ _ _ => Some ps | _ => None end.

Definition Function_refParameterIds (s : State) (this : ptr)
  : option (list VarId) :=
  e ← deref s this;
  match e with Function _ _ _ _ rs _ _ _ => Some rs | _ => None end.

Definition arguments (this : ptr) (s : State) : option Z :=
  ps ← Function_parametersIds s this;
  rs ← Function_refParameterIds s this;
  Some (size_t_add (vector_size ps) (vector_size rs)).

(** [operator<<] on a [size_t]: its decimal digits. *)
Definition out_of_range_message (total idx : Z) : string :=
  "Argument index is out of range: total args: " +:+ pretty total
    +:+ " index " +:+ pretty idx.

(** [VarId argument(size_t idx) const]; [v[i]] is undefined outside the
    vector. *)
Definition argument (this : ptr) (idx : Z) (s : State)
  : option (outcome VarId) :=
  ps ← Function_parametersIds s this;
  if decide (idx < vector_size ps) then
    Returns <$> ps !! Z.to_nat idx
  else
    let idx := size_t_sub idx (vector_size ps) in
    rs ← Function_refParameterIds s this;
    if decide (idx < vector_size rs) then
      Returns <$> rs !! Z.to_nat idx
    else
      total ← arguments this s;
      Some (Throws (out_of_range (out_of_range_message total idx))).

Definition isNative (this : ptr) (s : State) : option bool :=
  e ← deref s this;
  match e with
  | Function _ _ _ _ _ _ _ na => Some (negb (bool_decide (na = NULL)))
  | _ => None
  end.

(** ** [struct SimpleIr] *)

Record VarMeta : Type := {
  vm_id : VarId;
  isSourceVar : bool;
  isReference : bool;
  originId : VarId;
  pointsTo : ptr;
  offset : Z;
  vm_type : VarType
}.

Record SimpleIr : Type := {
  pool : list string;
  functions : list ptr;
  varMeta : list VarMeta
}.

(** [functions.push_back(rec)] *)
Definition addFunction (rec : ptr) (unit : SimpleIr) : SimpleIr :=
  {| pool := pool unit;
     functions := functions unit ++ [rec];
     varMeta := varMeta unit |}.

(** ** Sample programs *)

(** [Block(std::string const &name)]: no transition, no predecessors, no
    statements. *)
Definition Block_ctor (name : string) : IrElement := Block NULL name ∅ [].

Definition state_of (objs : list (ptr * IrElement)) : State :=
  {| heap := list_to_map objs; released := [] |}.

(** A function (at address 1) with the ordinary parameters 10 and 11 and
    the reference parameter 20. *)
Definition fn_2_1 : State :=
  state_of [ (1%N, Function "f" 0 2 [10; 11] [20] [] VT_Int NULL);
             (2%N, Block_ctor "0") ].

(** Three blocks P, A and B (at 1, 2 and 3) with no edge between them. *)
Definition three_blocks : State :=
  state_of [ (1%N, Block_ctor "P"); (2%N, Block_ctor "A");
             (3%N, Block_ctor "B") ].

(** A block without statements (at 1) that jumps to a terminal block. *)
Definition forwarding : State :=
  state_of [ (1%N, Block 3 "fwd" ∅ []); (2%N, Block NULL "exit" {[1%N]} []);
             (3%N, JumpAlways 2) ].

(** The same block holding one [Print] statement. *)
Definition forwarding_print : State :=
  state_of [ (1%N, Block 3 "fwd" ∅ [4%N]);
             (2%N, Block NULL "exit" {[1%N]} []);
             (3%N, JumpAlways 2); (4%N, Print 5); (5%N, Int 7) ].

(** P (at 1) branches to A (at 2) and B (at 3) on the variable at 5; C (at
    6) has no incoming edge. *)
Definition branch : State :=
  state_of [ (1%N, Block 4 "P" ∅ []); (2%N, Block NULL "A" {[1%N]} []);
             (3%N, Block NULL "B" {[1%N]} []); (4%N, JumpCond 2 3 5);
             (5%N, Variable_ 0); (6%N, Block_ctor "C") ].

(** ** Graph predicates *)

Definition is_Block (s : State) (p : ptr) : Prop :=
  ∃ t n preds c, deref s p = Some (Block t n preds c).

(** [p] is an element of [b->predecessors]. *)
Definition has_predecessor (s : State) (b p : ptr) : Prop :=
  ∃ preds, Block_predecessors s b = Some preds ∧ p ∈ preds.

(** The blocks the transition of [p] names: none for a terminal block,
    [destination] for a [JumpAlways], [yes] and [no] for a [JumpCond]. *)
Definition destinations (s : State) (p : ptr) : option (list ptr) :=
  t ← Block_transition s p;
  if decide (t = NULL) then Some [] else
  j ← deref s t;
  match j with
  | JumpAlways d => Some [d]
  | JumpCond y n _ => Some [y; n]
  | _ => None
  end.

Definition names_destination (s : State) (p b : ptr) : Prop :=
  ∃ ds, destinations s p = Some ds ∧ b ∈ ds.

(** Every jump target has the jumping block among its predecessors. *)
Definition edges_registered (s : State) : Prop :=
  ∀ p b, is_Block s p → is_Block s b →
    names_destination s p b → has_predecessor s b p.

(** Every predecessor is a block whose jump names this block. *)
Definition predecessors_are_edges (s : State) : Prop :=
  ∀ p b, is_Block s p → is_Block s b →
    has_predecessor s b p → names_destination s p b.

(** The two-way invariant of the predecessor index. *)
Definition predecessor_consistent (s : State) : Prop :=
  ∀ p b, is_Block s p → is_Block s b →
    (has_predecessor s b p ↔ names_destination s p b).

(** No block holds a transition pointer to an address without an
    object. *)
Definition transitions_live (s : State) : Prop :=
  ∀ p t, Block_transition s p = Some t → t ≠ NULL → is_Some (deref s t).

(** A transition pointer that [delete] accepts: a live [JumpAlways], or a
    live [JumpCond] whose condition is null or a live atom. *)
Definition deletable_Jump (s : State) (t : ptr) : Prop :=
  (∃ d, deref s t = Some (JumpAlways d)) ∨
  (∃ y n c, deref s t = Some (JumpCond y n c) ∧
     (c = NULL ∨ ∃ a, deref s c = Some a ∧ isAtom (vtable_of a c) = true)).

(** *** The invariant as a check over the store *)

Definition is_Blockb (s : State) (p : ptr) : bool :=
  match deref s p with Some (Block _ _ _ _) => true | _ => false end.

Definition has_predecessorb (s : State) (b p : ptr) : bool :=
  match Block_predecessors s b with
  | Some preds => bool_decide (p ∈ preds)
  | None => false
  end.

Definition names_destinationb (s : State) (p b : ptr) : bool :=
  match destinations s p with
  | Some ds => bool_decide (b ∈ ds)
  | None => false
  end.

Definition blocks_of (s : State) : list ptr :=
  filter (λ p, is_Blockb s p = true) (elements (dom (heap s))).

Definition predecessor_consistentb (s : State) : bool :=
  forallb (λ p,
    forallb (λ b,
      bool_decide (has_predecessorb s b p = names_destinationb s p b))
      (blocks_of s))
    (blocks_of s).

(** P (at 1) jumps to A (at 2) through the [JumpAlways] at 3; the
    [JumpCond] at 4, on the variable at 5, is not installed anywhere. *)
Definition two_jumps : State :=
  state_of [ (1%N, Block 3 "P" ∅ []); (2%N, Block NULL "A" {[1%N]} []);
             (3%N, JumpAlways 2); (4%N, JumpCond 2 6 5);
             (5%N, Variable_ 0); (6%N, Block_ctor "C") ].

(** [link(A)] then [link(B)] on the block P of [three_blocks]. *)
Definition linked_once : option State := link 1 2 three_blocks.
Definition linked_twice : option State := s ← linked_once; link 1 3 s.




(** What a [delete] leaves: the objects at [freed] are gone and logged,
    everything else is as it was. *)
Definition removed (s s' : State) (freed : list ptr) : Prop :=
  (∀ q, deref s' q = if decide (q ∈ freed) then None else deref s q) ∧
  released s' = reverse freed ++ released s.

(** ** Reachable blocks and teardown *)

Definition successors (s : State) (b : ptr) : list ptr :=
  default [] (destinations s b).

(** [b] is reached from [entry] along jumps between live blocks. *)
Inductive reachable (s : State) (entry : ptr) : ptr → Prop :=
  | reachable_entry :
      is_Block s entry → reachable s entry entry
  | reachable_jump b b' :
      reachable s entry b → names_destination s b b' → is_Block s b' →
      reachable s entry b'.

Definition live_blocks (s : State) : gset ptr := list_to_set (blocks_of s).

(** One round of the enumeration: add the live successors of the blocks
    found so far. *)
Definition reach_step (s : State) (found : gset ptr) : gset ptr :=
  found ∪
  (list_to_set (concat (successors s <$> elements found)) ∩ live_blocks s).

(** The blocks found after [k] rounds, starting from the entry. *)
Definition found_after (s : State) (entry : ptr) (k : nat) : gset ptr :=
  Nat.iter k (reach_step s) ({[entry]} ∩ live_blocks s).

(** A store of n objects has at most n blocks, so n rounds find them
    all. *)
Definition reachable_set (s : State) (entry : ptr) : gset ptr :=
  found_after s entry (size (heap s)).

(** The blocks reachable from [entry], each listed once. *)
Definition reachable_blocks (s : State) (entry : ptr) : list ptr :=
  elements (reachable_set s entry).

Definition Function_entry (s : State) (this : ptr) : option ptr :=
  e ← deref s this;
  match e with Function _ _ en _ _ _ _ _ => Some en | _ => None end.

(** Modelled from the spec: [Function::~Function], which ir.h only
    declares ([virtual ~Function();]); its body is not among the sources.
    The spec says: "Teardown releases every Function, which in turn must
    release every Block reachable from its entry exactly once and every
    Statement/Expression tree owned by those Blocks"; the blocks are
    enumerated before any of them is deleted, and each is handed to
    [~Block]. *)
Definition delete_Function (p : ptr) (s : State) : option State :=
  if decide (p = NULL) then Some s else
  e ← deref s p;
  match e with
  | Function _ _ en _ _ _ _ _ =>
      s1 ← delete_each delete_Block (reachable_blocks s en) s;
      free p s1
  | _ => None
  end.

(** [~SimpleIr]: [for (auto f : functions) delete f;] *)
Definition delete_SimpleIr (unit : SimpleIr) (s : State) : option State :=
  delete_each delete_Function (functions unit) s.

(** *** What each destructor deallocates, in order *)

Definition nonnull (p : ptr) : list ptr :=
  if decide (p = NULL) then [] else [p].

Definition Atom_footprint (s : State) (p : ptr) : list ptr := nonnull p.

Definition Expression_footprint (s : State) (p : ptr) : list ptr :=
  if decide (p = NULL) then [] else
  match deref s p with
  | Some (BinOp l r _) => nonnull l ++ nonnull r ++ [p]
  | Some (UnOp o _) => nonnull o ++ [p]
  | Some (Call _ ps _) => concat (Atom_footprint s <$> ps) ++ [p]
  | _ => [p]
  end.

Definition Statement_footprint (s : State) (p : ptr) : list ptr :=
  if decide (p = NULL) then [] else
  match deref s p with
  | Some (Assignment v x) => nonnull v ++ Expression_footprint s x ++ [p]
  | Some (Return a) | Some (Print a) | Some (WriteRef a _) =>
      nonnull a ++ [p]
  | Some (Phi v vs) =>
      nonnull v ++ concat (Atom_footprint s <$> elements vs) ++ [p]
  | Some (JumpCond _ _ c) => nonnull c ++ [p]
  | _ => [p]
  end.

Definition Block_footprint (s : State) (p : ptr) : list ptr :=
  if decide (p = NULL) then [] else
  match deref s p with
  | Some (Block t _ _ c) =>
      concat (Statement_footprint s <$> c) ++ Statement_footprint s t ++ [p]
  | _ => [p]
  end.

Definition Function_footprint (s : State) (p : ptr) : list ptr :=
  if decide (p = NULL) then [] else
  match deref s p with
  | Some (Function _ _ en _ _ _ _ _) =>
      concat (Block_footprint s <$> reachable_blocks s en) ++ [p]
  | _ => [p]
  end.

Definition SimpleIr_footprint (s : State) (unit : SimpleIr) : list ptr :=
  concat (Function_footprint s <$> functions unit).

(** *** Pointers that point where their static type says *)

Definition is_Atomb (s : State) (p : ptr) : bool :=
  match deref s p with
  | Some e => isAtom (vtable_of e p)
  | None => false
  end.

Definition is_Variableb (s : State) (p : ptr) : bool :=
  match deref s p with Some (Variable_ _) => true | _ => false end.

Definition wt_Atom (s : State) (p : ptr) : bool :=
  bool_decide (p = NULL) || is_Atomb s p.

Definition wt_Variable (s : State) (p : ptr) : bool :=
  bool_decide (p = NULL) || is_Variableb s p.

Definition wt_Expression (s : State) (p : ptr) : bool :=
  bool_decide (p = NULL) ||
  match deref s p with
  | Some (BinOp l r _) => wt_Atom s l && wt_Atom s r
  | Some (UnOp o _) => wt_Atom s o
  | Some (Call _ ps _) => forallb (wt_Atom s) ps
  | Some e => isAtom (vtable_of e p)
  | None => false
  end.

Definition wt_Statement (s : State) (p : ptr) : bool :=
  bool_decide (p = NULL) ||
  match deref s p with
  | Some (Assignment v x) => wt_Variable s v && wt_Expression s x
  | Some (Return a) | Some (Print a) | Some (WriteRef a _) => wt_Atom s a
  | Some (Phi v vs) => wt_Variable s v && forallb (wt_Variable s) (elements vs)
  | Some (JumpAlways _) => true
  | Some (JumpCond _ _ c) => wt_Atom s c
  | _ => false
  end.

Definition wt_Jump (s : State) (p : ptr) : bool :=
  bool_decide (p = NULL) ||
  match deref s p with
  | Some (JumpAlways _) => true
  | Some (JumpCond _ _ c) => wt_Atom s c
  | _ => false
  end.

Definition wt_Block (s : State) (p : ptr) : bool :=
  bool_decide (p = NULL) ||
  match deref s p with
  | Some (Block t _ _ c) => forallb (wt_Statement s) c && wt_Jump s t
  | _ => false
  end.

Definition wt_Function (s : State) (p : ptr) : bool :=
  bool_decide (p = NULL) ||
  match deref s p with
  | Some (Function _ _ en _ _ _ _ _) =>
      forallb (wt_Block s) (reachable_blocks s en)
  | _ => false
  end.

(** The ownership discipline of a program unit: every pointer a
    destructor follows points to a live object of its static type, and no
    object is owned twice. *)
Definition well_owned (s : State) (unit : SimpleIr) : Prop :=
  forallb (wt_Function s) (functions unit) = true ∧
  NoDup (SimpleIr_footprint s unit).

(** *** Ownership *)

(** The pointers the destructor of the object at [p] deletes: the
    operands of an expression, the operands of a statement, the condition
    of a [JumpCond], the statements and the transition of a [Block]. *)
Definition parts (s : State) (p : ptr) : list ptr :=
  match deref s p with
  | Some (BinOp l r _) => [l; r]
  | Some (UnOp o _) => [o]
  | Some (Call _ ps _) => ps
  | Some (Assignment v x) => [v; x]
  | Some (Return a) | Some (Print a) | Some (WriteRef a _) => [a]
  | Some (Phi v vs) => v :: elements vs
  | Some (JumpCond _ _ c) => [c]
  | Some (Block t _ _ c) => c ++ [t]
  | _ => []
  end.

(** The nodes of a program unit: its functions, the blocks reachable from
    their entries, and everything those own. *)
Inductive owned (s : State) (unit : SimpleIr) : ptr → Prop :=
  | owned_function f :
      f ∈ functions unit → f ≠ NULL → owned s unit f
  | owned_block f en b :
      f ∈ functions unit → Function_entry s f = Some en →
      reachable s en b → owned s unit b
  | owned_part p q :
      owned s unit p → q ∈ parts s p → q ≠ NULL → owned s unit q.

(** A function (at 1) with a loop: the entry block 2 jumps to the body 4,
    the body assigns [v9 = v10 + 1] and jumps to the test 3, and the test
    branches back to the body or on to the exit block 5, which returns. *)
Definition loop_program : State :=
  state_of [ (1%N, Function "main" 0 2 [] [] [] VT_Int NULL);
             (2%N, Block 6 "0" ∅ []);
             (3%N, Block 7 "test" {[4%N]} []);
             (4%N, Block 8 "body" {[2%N; 3%N]} [10%N]);
             (5%N, Block NULL "exit" {[3%N]} [15%N]);
             (6%N, JumpAlways 4); (7%N, JumpCond 4 5 9); (8%N, JumpAlways 3);
             (9%N, Variable_ 9);
             (10%N, Assignment 11 12); (11%N, Variable_ 9);
             (12%N, BinOp 13 14 BO_ADD); (13%N, Variable_ 10); (14%N, Int 1);
             (15%N, Return 16); (16%N, Variable_ 9) ].

Definition loop_unit : SimpleIr :=
  {| pool := []; functions := [1%N]; varMeta := [] |}.

(** ** Views and constructors used by the further properties *)

(** The fields of the block at [b], when there is one. *)
Definition Block_fields (s : State) (b : ptr)
  : option (ptr * string * gset ptr * list ptr) :=
  match deref s b with
  | Some (Block t n preds c) => Some (t, n, preds, c)
  | _ => None
  end.

(** The atoms, literals and expressions among the names of [FOR_IR], as
    the classes [Atom] and [Expression] and the [isLiteral] overrides give
    them. *)
Definition atom_names : list ir :=
  [ir_Variable; ir_Int; ir_Double; ir_Ptr; ir_ReadRef].
Definition literal_names : list ir := [ir_Int; ir_Double; ir_Ptr].
Definition expression_names : list ir :=
  atom_names ++ [ir_BinOp; ir_UnOp; ir_Call].

(** [new Function(id, returnType, name)]: the entry is a new block named
    [toString(id)]; [mathvm::toString] comes from util.h and is a
    parameter here.  The block is allocated before the function object
    is placed. *)
Definition new_Function (toString : Z → string) (id : Z)
    (returnType : VarType) (name : string) (s : State) : ptr * State :=
  let '(en, s1) := new (Block_ctor (toString id)) s in
  new (Function name id en [] [] [] returnType NULL) s1.

(** [new Function(id, address, returnType, name)]: a native stub. *)
Definition new_native_Function (id : Z) (address : ptr)
    (returnType : VarType) (name : string) (s : State) : ptr * State :=
  let '(en, s1) := new (Block_ctor "NATIVE_STUB") s in
  new (Function name id en [] [] [] returnType address) s1.

(** [new Function(id, returnType, startBlock, name)]. *)
Definition new_Function_from (id : Z) (returnType : VarType)
    (startBlock : ptr) (name : string) (s : State) : ptr * State :=
  new (Function name id startBlock [] [] [] returnType NULL) s.

(** P (at 1) jumps to A (at 2); B (at 3) has no incoming edge. *)
Definition relinkable : State :=
  state_of [ (1%N, Block 4 "P" ∅ []); (2%N, Block NULL "A" {[1%N]} []);
             (3%N, Block_ctor "B"); (4%N, JumpAlways 2) ].

(** P (at 1) branches to A and B on the variable at 5; the [JumpCond] at 7
    to C and B is a copy that shares that condition. *)
Definition shared_condition : State :=
  state_of [ (1%N, Block 4 "P" ∅ []); (2%N, Block NULL "A" {[1%N]} []);
             (3%N, Block NULL "B" {[1%N]} []); (4%N, JumpCond 2 3 5);
             (5%N, Variable_ 0); (6%N, Block_ctor "C");
             (7%N, JumpCond 6 3 5) ].

(** An addition [v + v] whose two operands are one [Variable] object (at
    2), and one with operands of its own (at 3 and 4). *)
Definition shared_operand : State :=
  state_of [ (1%N, BinOp 2 2 BO_ADD); (2%N, Variable_ 7) ].

Definition own_operands : State :=
  state_of [ (1%N, BinOp 3 4 BO_ADD); (3%N, Variable_ 7); (4%N, Int 1) ].

(** A [Phi] (at 1) for the variable at 2 with the sources at 3 and 4. *)
Definition phi_statement : State :=
  state_of [ (1%N, Phi 2 {[3%N; 4%N]}); (2%N, Variable_ 0);
             (3%N, Variable_ 1); (4%N, Variable_ 2) ].

(** The same [Phi] with its own variable among the sources. *)
Definition phi_self : State :=
  state_of [ (1%N, Phi 2 {[2%N; 3%N]}); (2%N, Variable_ 0);
             (3%N, Variable_ 1) ].

(** The objects of [F] were live in [s], pairwise distinct, and are what
    the run from [s] to [s'] deallocated. *)
Definition deleted_once (s s' : State) (F : list ptr) : Prop :=
  NoDup F ∧ removed s s' F ∧ ∀ q, q ∈ F → is_Some (deref s q).

(** * Properties *)

(** ** Store lemmas *)

Lemma deref_Some_nonnull s p e : deref s p = Some e → p ≠ NULL.
Proof. unfold deref. by case_decide. Qed.

Lemma deref_NULL s : deref s NULL = None.
Proof. unfold deref. by case_decide. Qed.

Lemma deref_store_eq p e s : p ≠ NULL → deref (store p e s) p = Some e.
Proof.
  intros Hp. unfold deref, store; simpl.
  case_decide; [done|]. apply lookup_insert_eq.
Qed.

Lemma deref_store_ne p q e s : p ≠ q → deref (store p e s) q = deref s q.
Proof.
  intros Hpq. unfold deref, store; simpl.
  case_decide; [done|]. by apply lookup_insert_ne.
Qed.

Lemma deref_store p q e s :
  deref (store p e s) q =
  if decide (q = NULL) then None
  else if decide (p = q) then Some e else deref s q.
Proof.
  case_decide as Hq; [subst; apply deref_NULL|].
  case_decide as Hpq; [subst; by apply deref_store_eq|].
  by apply deref_store_ne.
Qed.

Lemma released_store p e s : released (store p e s) = released s.
Proof. done. Qed.

Lemma store_id p e s : deref s p = Some e → store p e s = s.
Proof.
  unfold deref, store. case_decide; [done|]. intros Hp.
  destruct s as [h r]; simpl in *. f_equal. by apply insert_id.
Qed.

(** ** Narrowing queries *)

(** C8.  An object constructed as variant X answers [isX()] with true,
    [asX()] with its own address and [getType()] with [IT_X]; for every
    name y of [FOR_IR], [isy()] is true exactly when y is X, and [asy()] is
    the object's address when y is X and the null pointer otherwise.  The
    queries are total: none of them can throw. *)
Theorem narrowing_queries_agree (e : IrElement) (this : ptr) :
  variant e ∈ FOR_IR ∧
  is_ (vtable_of e this) (variant e) = true ∧
  as_ (vtable_of e this) (variant e) = this ∧
  getType (vtable_of e this) = Some (IT (variant e)) ∧
  ∀ y : ir,
    is_ (vtable_of e this) y = bool_decide (y = variant e) ∧
    as_ (vtable_of e this) y = (if decide (y = variant e) then this else NULL).
Proof.
  split.
  { unfold FOR_IR. destruct e; simpl; set_solver. }
  destruct e; simpl; (split; [done|split; [done|split; [done|]]]);
    intros y; by destruct y.
Qed.

(** ** Reading a [Block] *)

Section block_reads.
Context (s : State) (this t : ptr) (n : string) (preds : gset ptr)
        (c : list ptr).
Hypothesis Hthis : deref s this = Some (Block t n preds c).

Lemma Block_transition_eq : Block_transition s this = Some t.
Proof. unfold Block_transition. by rewrite Hthis. Qed.

Lemma Block_predecessors_eq : Block_predecessors s this = Some preds.
Proof. unfold Block_predecessors. by rewrite Hthis. Qed.

Lemma Block_contents_eq : Block_contents s this = Some c.
Proof. unfold Block_contents. by rewrite Hthis. Qed.

Lemma set_Block_transition_eq jmp :
  set_Block_transition this jmp s = Some (store this (Block jmp n preds c) s).
Proof. unfold set_Block_transition. by rewrite Hthis. Qed.

Lemma set_Block_predecessors_eq preds' :
  set_Block_predecessors this preds' s
  = Some (store this (Block t n preds' c) s).
Proof. unfold set_Block_predecessors. by rewrite Hthis. Qed.

Lemma addPredecessor_eq block :
  addPredecessor this block s
  = Some (store this (Block t n ({[block]} ∪ preds) c) s).
Proof.
  unfold addPredecessor. rewrite Block_predecessors_eq; simpl.
  apply set_Block_predecessors_eq.
Qed.

Lemma removePredecessor_eq block :
  removePredecessor this block s
  = Some (store this (Block t n (preds ∖ {[block]}) c) s).
Proof.
  unfold removePredecessor. rewrite Block_predecessors_eq; simpl.
  apply set_Block_predecessors_eq.
Qed.

Lemma isLastBlock_eq : isLastBlock this s = Some (bool_decide (t = NULL)).
Proof. unfold isLastBlock, getTransition. by rewrite Block_transition_eq. Qed.
End block_reads.

(** The predecessor set of a block after a store elsewhere, or of another
    block's fields. *)
Lemma Block_predecessors_store_transition s p t t' n preds c b :
  deref s p = Some (Block t n preds c) →
  Block_predecessors (store p (Block t' n preds c) s) b
  = Block_predecessors s b.
Proof.
  intros Hp. unfold Block_predecessors. rewrite deref_store.
  case_decide as Hb; [subst; by rewrite deref_NULL|].
  case_decide; [subst; by rewrite Hp|done].
Qed.

(** ** [isEmpty] *)

(** C6.  For a block whose transition pointer is null or valid,
    [isEmpty()] returns, and it returns true exactly when the block has no
    statements, has a transition, and that transition is a [JumpAlways]. *)
Theorem isEmpty_classification s this t n preds c :
  deref s this = Some (Block t n preds c) →
  t = NULL ∨ is_Some (deref s t) →
  ∃ b, isEmpty this s = Some b ∧
       (b = true ↔
        c = [] ∧ t ≠ NULL ∧ ∃ d, deref s t = Some (JumpAlways d)).
Proof.
  intros Hthis Ht. unfold isEmpty, getTransition.
  rewrite (Block_contents_eq _ _ _ _ _ _ Hthis); simpl.
  case_bool_decide as Hc.
  - apply nil_length_inv in Hc as ->.
    rewrite (isLastBlock_eq _ _ _ _ _ _ Hthis); simpl.
    case_bool_decide as Hnull; simpl.
    + exists false. split; [done|]. split; [done|]. by intros (_ & ? & _).
    + rewrite (Block_transition_eq _ _ _ _ _ _ Hthis); simpl.
      destruct Ht as [?|[j Hj]]; [done|].
      unfold call_is. rewrite Hj; simpl. eexists; split; [done|].
      split.
      * intros Hb. split; [done|split; [done|]].
        destruct j; simpl in Hb; try done. by eexists.
      * intros (_ & _ & d & Hd). by simplify_eq.
  - exists false. split; [done|]. split; [done|].
    intros (-> & _). done.
Qed.

(** ** [setTransition] with a null pointer *)

(** C10.  [setTransition(NULL)] on a live block only clears the block's
    transition field: afterwards [isLastBlock()] is true,
    [getTransition()] is null, every block has the predecessor set it had,
    and [isEmpty()] returns false; it returns, so the null transition was
    not dereferenced. *)
Theorem setTransition_NULL_terminal s this t n preds c :
  deref s this = Some (Block t n preds c) →
  ∃ s', setTransition this NULL s = Some s' ∧
        s' = store this (Block NULL n preds c) s ∧
        isLastBlock this s' = Some true ∧
        getTransition this s' = Some NULL ∧
        (∀ b, Block_predecessors s' b = Block_predecessors s b) ∧
        isEmpty this s' = Some false.
Proof.
  intros Hthis. pose proof (deref_Some_nonnull _ _ _ Hthis) as Hnn.
  eexists. split.
  { unfold setTransition.
    by rewrite (set_Block_transition_eq _ _ _ _ _ _ Hthis). }
  split; [done|].
  assert (deref (store this (Block NULL n preds c) s) this
          = Some (Block NULL n preds c)) as Hthis' by by apply deref_store_eq.
  split; [by rewrite (isLastBlock_eq _ _ _ _ _ _ Hthis')|].
  split; [by apply (Block_transition_eq _ _ _ _ _ _ Hthis')|].
  split; [intros b; by eapply Block_predecessors_store_transition|].
  unfold isEmpty. rewrite (Block_contents_eq _ _ _ _ _ _ Hthis'); simpl.
  case_bool_decide; [|done].
  by rewrite (isLastBlock_eq _ _ _ _ _ _ Hthis').
Qed.

(** ** [Function::argument] *)

Section argument.
Context (s : State) (this : ptr) (nm : string) (fid : Z) (en : ptr)
        (ps rs mc : list VarId) (rt : VarType) (na : ptr).
Hypothesis Hthis : deref s this = Some (Function nm fid en ps rs mc rt na).

Lemma Function_parametersIds_eq : Function_parametersIds s this = Some ps.
Proof. unfold Function_parametersIds. by rewrite Hthis. Qed.

Lemma Function_refParameterIds_eq : Function_refParameterIds s this = Some rs.
Proof. unfold Function_refParameterIds. by rewrite Hthis. Qed.

Lemma size_t_sub_small (a b : Z) :
  0 ≤ b ≤ a → a < SIZE_MAX1 → size_t_sub a b = a - b.
Proof. intros Hb Ha. unfold size_t_sub. apply Z.mod_small. lia. Qed.

Lemma arguments_eq :
  vector_size ps + vector_size rs < SIZE_MAX1 →
  arguments this s = Some (vector_size ps + vector_size rs).
Proof.
  intros Hlt. unfold arguments.
  rewrite Function_parametersIds_eq, Function_refParameterIds_eq; simpl.
  unfold size_t_add. rewrite Z.mod_small; [done|].
  unfold vector_size in *. lia.
Qed.

Lemma argument_ordinary (i : Z) :
  0 ≤ i < vector_size ps →
  ∃ v, ps !! Z.to_nat i = Some v ∧ argument this i s = Some (Returns v).
Proof.
  intros Hi. unfold argument. rewrite Function_parametersIds_eq; simpl.
  case_decide; [|lia].
  destruct (lookup_lt_is_Some_2 ps (Z.to_nat i)) as [v Hv].
  { unfold vector_size in Hi. lia. }
  exists v. by rewrite Hv.
Qed.

Lemma argument_reference (i : Z) :
  vector_size ps ≤ i < vector_size ps + vector_size rs →
  i < SIZE_MAX1 →
  ∃ v, rs !! Z.to_nat (i - vector_size ps) = Some v ∧
       argument this i s = Some (Returns v).
Proof.
  intros Hi Hmax. unfold argument. rewrite Function_parametersIds_eq; simpl.
  case_decide; [lia|].
  rewrite Function_refParameterIds_eq; simpl.
  rewrite size_t_sub_small by (unfold vector_size in *; lia).
  case_decide; [|lia].
  destruct (lookup_lt_is_Some_2 rs (Z.to_nat (i - vector_size ps))) as [v Hv].
  { unfold vector_size in *. lia. }
  exists v. by rewrite Hv.
Qed.

(** What the method does past the last argument: it throws, and the index
    in the message is the one left after [idx -= parametersIds.size()]. *)
Lemma argument_out_of_range (i : Z) :
  vector_size ps + vector_size rs ≤ i < SIZE_MAX1 →
  argument this i s
  = Some (Throws (out_of_range
       (out_of_range_message (vector_size ps + vector_size rs)
                             (i - vector_size ps)))).
Proof.
  intros Hi. unfold argument. rewrite Function_parametersIds_eq; simpl.
  assert (0 ≤ vector_size ps ∧ 0 ≤ vector_size rs) as [??]
    by (unfold vector_size; lia).
  case_decide; [lia|].
  rewrite Function_refParameterIds_eq; simpl.
  rewrite size_t_sub_small by lia.
  case_decide; [lia|].
  by rewrite arguments_eq by lia.
Qed.
End argument.

(** C4.  [argument(i)] returns [parametersIds[i]] for an index below
    [parametersIds.size()], and [refParameterIds[i - parametersIds.size()]]
    for an index from there up to the total number of arguments. *)
Theorem argument_mapping s this nm fid en ps rs mc rt na (i : Z) :
  deref s this = Some (Function nm fid en ps rs mc rt na) →
  0 ≤ i < SIZE_MAX1 →
  (i < vector_size ps →
     ∃ v, ps !! Z.to_nat i = Some v ∧ argument this i s = Some (Returns v)) ∧
  (vector_size ps ≤ i < vector_size ps + vector_size rs →
     ∃ v, rs !! Z.to_nat (i - vector_size ps) = Some v ∧
          argument this i s = Some (Returns v)).
Proof.
  intros Hthis [Hi0 Himax]. split; intros Hi.
  - eapply argument_ordinary; [done|lia].
  - eapply argument_reference; done.
Qed.

Lemma argument_mapping_witness :
  argument 1 0 fn_2_1 = Some (Returns 10) ∧
  argument 1 1 fn_2_1 = Some (Returns 11) ∧
  argument 1 2 fn_2_1 = Some (Returns 20).
Proof.
  pose proof (argument_mapping fn_2_1 1 "f" 0 2 [10; 11] [20] [] VT_Int NULL)
    as H.
  assert (∀ i, 0 ≤ i < 3 → 0 ≤ i < SIZE_MAX1) as Hsz
    by (unfold SIZE_MAX1; lia).
  split; [|split].
  - destruct (H 0 eq_refl (Hsz 0 ltac:(lia))) as [H0 _].
    destruct H0 as (v & Hv & ->); [unfold vector_size; simpl; lia|].
    by injection Hv as <-.
  - destruct (H 1 eq_refl (Hsz 1 ltac:(lia))) as [H1 _].
    destruct H1 as (v & Hv & ->); [unfold vector_size; simpl; lia|].
    by injection Hv as <-.
  - destruct (H 2 eq_refl (Hsz 2 ltac:(lia))) as [_ H2].
    destruct H2 as (v & Hv & ->); [unfold vector_size; simpl; lia|].
    by injection Hv as <-.
Defined.

(** C5.  At index 3 of a function with two ordinary and one reference
    parameter, [argument] throws [out_of_range]; the message gives the
    total 3, and as index 1, which is 3 less [parametersIds.size()], where
    the caller asked for 3. *)
Theorem argument_message_index_shifted :
  argument 1 3 fn_2_1
  = Some (Throws (out_of_range
      "Argument index is out of range: total args: 3 index 1")) ∧
  arguments 1 fn_2_1 = Some 3.
Proof.
  split.
  - rewrite (argument_out_of_range fn_2_1 1 "f" 0 2 [10; 11] [20] []
               VT_Int NULL eq_refl).
    + reflexivity.
    + unfold vector_size, SIZE_MAX1; simpl; lia.
  - reflexivity.
Qed.

Lemma isEmpty_classification_witness :
  isEmpty 1 forwarding = Some true ∧ isEmpty 1 forwarding_print = Some false.
Proof.
  split.
  - destruct (isEmpty_classification forwarding 1 3 "fwd" ∅ [] eq_refl)
      as (b & -> & Hb).
    { right. by eexists. }
    f_equal. apply Hb. split; [done|split; [done|]]. by exists 2%N.
  - destruct (isEmpty_classification forwarding_print 1 3 "fwd" ∅ [4%N]
                eq_refl) as (b & -> & Hb).
    { right. by eexists. }
    f_equal. destruct b; [|done]. by destruct Hb as [[? _] _].
Defined.

Lemma setTransition_NULL_terminal_witness :
  ∃ s', setTransition 1 NULL forwarding = Some s' ∧
        s' = store 1 (Block NULL "fwd" ∅ []) forwarding ∧
        isLastBlock 1 s' = Some true ∧
        getTransition 1 s' = Some NULL ∧
        (∀ b, Block_predecessors s' b = Block_predecessors forwarding b) ∧
        isEmpty 1 s' = Some false.
Proof.
  exact (setTransition_NULL_terminal forwarding 1 3 "fwd" ∅ [] eq_refl).
Defined.

(** ** Deallocation *)

Lemma free_eq s p e :
  deref s p = Some e →
  free p s = Some {| heap := delete p (heap s); released := p :: released s |}.
Proof. intros Hp. unfold free. by rewrite Hp. Qed.

Lemma deref_delete s p q r :
  deref {| heap := delete p (heap s); released := r |} q
  = if decide (q = p) then None else deref s q.
Proof.
  unfold deref; simpl. case_decide; [by case_decide|].
  case_decide; [subst; apply lookup_delete_eq|by apply lookup_delete_ne].
Qed.

Lemma removed_nil s : removed s s [].
Proof.
  split; [|done]. intros q. case_decide as H; [|done].
  by apply elem_of_nil in H.
Qed.

Lemma removed_free s s' p : free p s = Some s' → removed s s' [p].
Proof.
  unfold free. destruct (deref s p) eqn:Hp; [|done]; simpl.
  intros [= <-]. split; [|done].
  intros q. rewrite deref_delete.
  case_decide; case_decide; set_solver.
Qed.

Lemma removed_trans s1 s2 s3 f1 f2 :
  removed s1 s2 f1 → removed s2 s3 f2 → removed s1 s3 (f1 ++ f2).
Proof.
  intros [Hd1 Hr1] [Hd2 Hr2]. split.
  - intros q. rewrite Hd2, Hd1.
    repeat case_decide; set_solver.
  - by rewrite Hr2, Hr1, reverse_app, (assoc_L (++)).
Qed.

Lemma delete_Atom_removed s c :
  c = NULL ∨ (∃ a, deref s c = Some a ∧ isAtom (vtable_of a c) = true) →
  ∃ s', delete_Atom c s = Some s' ∧
        removed s s' (if decide (c = NULL) then [] else [c]).
Proof.
  intros Hc. unfold delete_Atom. case_decide as Hnull.
  { eexists; split; [done|apply removed_nil]. }
  destruct Hc as [?|(a & Ha & Hatom)]; [done|]. rewrite Ha; simpl.
  assert (free c s = Some {| heap := delete c (heap s);
                             released := c :: released s |}) as Hfree
    by by eapply free_eq.
  destruct a; simpl in Hatom; try done;
    (eexists; split; [exact Hfree|by apply removed_free]).
Qed.

Lemma delete_Jump_removed s t :
  deletable_Jump s t →
  ∃ s' freed, delete_Jump t s = Some s' ∧ removed s s' freed ∧ t ∈ freed ∧
    ∀ q, q ∈ freed →
      q = t ∨ ∃ a, deref s q = Some a ∧ isAtom (vtable_of a q) = true.
Proof.
  intros [[d Ht]|(y & n & c & Ht & Hc)];
    pose proof (deref_Some_nonnull _ _ _ Ht) as Hnn;
    unfold delete_Jump, delete_Statement;
    (case_decide; [done|]); rewrite Ht; simpl.
  - exists {| heap := delete t (heap s); released := t :: released s |}, [t].
    split; [by eapply free_eq|].
    split; [apply removed_free; by eapply free_eq|].
    split; [set_solver|]. intros q ->%list_elem_of_singleton. by left.
  - destruct (delete_Atom_removed s c Hc) as (s1 & -> & Hrem1); simpl.
    assert (c ≠ t) as Hct.
    { intros ->. destruct Hc as [?|(a & Ha & Hatom)]; [done|].
      rewrite Ht in Ha. by injection Ha as <-. }
    assert (deref s1 t = Some (JumpCond y n c)) as Ht1.
    { destruct Hrem1 as [-> _]. case_decide as Hin; [|done].
      case_decide; set_solver. }
    exists {| heap := delete t (heap s1); released := t :: released s1 |}.
    eexists. split; [by eapply free_eq|].
    split.
    { eapply removed_trans; [exact Hrem1|].
      apply removed_free. by eapply free_eq. }
    split; [set_solver|].
    intros q [Hq| ->%list_elem_of_singleton]%elem_of_app; [|by left].
    case_decide; [set_solver|].
    apply list_elem_of_singleton in Hq as ->.
    right. by destruct Hc as [?|?].
Qed.

(** [if (_transition) delete _transition;] *)
Lemma release_prior s t :
  t = NULL ∨ deletable_Jump s t →
  ∃ s1, (if decide (t = NULL) then Some s else delete_Jump t s) = Some s1 ∧
    (∀ q e, deref s q = Some e → isAtom (vtable_of e q) = false →
            q ≠ t → deref s1 q = Some e) ∧
    (t ≠ NULL → deref s1 t = None ∧ t ∈ released s1) ∧
    (∀ q, is_Some (deref s q) → is_Some (deref s1 q) ∨ q ∈ released s1) ∧
    (∀ q, q ∈ released s → q ∈ released s1).
Proof.
  intros Ht. case_decide as Hnull.
  { exists s. split; [done|]. split; [done|]. split; [done|]. by split; [left|]. }
  destruct Ht as [?|Ht]; [done|].
  destruct (delete_Jump_removed s t Ht) as (s1 & freed & -> & [Hd Hr] & Hin & Hfr).
  exists s1. split; [done|]. split; [|split; [|split]].
  - intros q e Hq Hatom Hqt. rewrite Hd. case_decide as Hqf; [|done].
    destruct (Hfr q Hqf) as [?|(a & Ha & Hatom')]; [done|].
    rewrite Hq in Ha. injection Ha as <-. congruence.
  - intros _. split.
    + rewrite Hd. by case_decide.
    + rewrite Hr. apply elem_of_app. left. by apply elem_of_reverse.
  - intros q Hq. rewrite Hd. case_decide as Hqf; [|by left].
    right. rewrite Hr. apply elem_of_app. left. by apply elem_of_reverse.
  - intros q Hq. rewrite Hr. apply elem_of_app. by right.
Qed.

(** ** [link] *)

Lemma new_address_fresh s :
  new_address s ≠ NULL ∧ heap s !! new_address s = None ∧
  new_address s ∉ released s.
Proof.
  unfold new_address.
  pose proof (is_fresh ({[NULL]} ∪ dom (heap s) ∪ list_to_set (released s)
                        : gset ptr)) as Hfresh.
  split; [set_solver|]. split; [|set_solver].
  apply not_elem_of_dom. set_solver.
Qed.

Lemma has_predecessor_eq s b p t n preds c :
  deref s b = Some (Block t n preds c) → p ∈ preds → has_predecessor s b p.
Proof.
  intros Hb Hp. exists preds. split; [|done].
  by eapply Block_predecessors_eq.
Qed.

(** C7.  On a live block whose transition is null or deletable:
    [link(next)] with a live block [next] installs a [JumpAlways] to [next]
    at an address that held no object before, and registers the block as a
    predecessor of [next]; [link(cond)] with a live [JumpCond] other than
    the installed transition, whose destinations are live blocks, installs
    [cond] and registers the block as a predecessor of [cond->yes] and
    [cond->no].  Either way a prior transition is deallocated. *)
Theorem link_postconditions s this t n preds c :
  deref s this = Some (Block t n preds c) →
  t = NULL ∨ deletable_Jump s t →
  (∀ next, is_Block s next →
     ∃ s' j, link this next s = Some s' ∧
       getTransition this s' = Some j ∧
       deref s j = None ∧ (j ∉ released s) ∧
       deref s' j = Some (JumpAlways next) ∧
       has_predecessor s' next this ∧
       (t ≠ NULL → deref s' t = None ∧ t ∈ released s')) ∧
  (∀ cond y no cnd,
     deref s cond = Some (JumpCond y no cnd) → cond ≠ t →
     is_Block s y → is_Block s no →
     ∃ s', link_cond this cond s = Some s' ∧
       getTransition this s' = Some cond ∧
       deref s' cond = Some (JumpCond y no cnd) ∧
       has_predecessor s' y this ∧ has_predecessor s' no this ∧
       (t ≠ NULL → deref s' t = None ∧ t ∈ released s')).
Proof.
  intros Hthis Ht.
  pose proof (deref_Some_nonnull _ _ _ Hthis) as Hthis_nn.
  assert (this ≠ t) as Hthis_t.
  { intros <-. destruct Ht as [?|[[d Hd]|(y & no & cnd & Hd & _)]];
      [done|rewrite Hthis in Hd; done..]. }
  destruct (release_prior s t Ht) as (s1 & Hs1 & Hkeep & Hgone & Hlive & Hlog).
  pose proof (Hkeep _ _ Hthis eq_refl Hthis_t) as Hthis1.
  split.
  - (* link(Block *next) *)
    intros next (nt & nn & np & nc & Hnext).
    pose proof (deref_Some_nonnull _ _ _ Hnext) as Hnext_nn.
    assert (next ≠ t) as Hnext_t.
    { intros <-. destruct Ht as [?|[[d Hd]|(y & no & cnd & Hd & _)]];
        [done|rewrite Hnext in Hd; done..]. }
    pose proof (Hkeep _ _ Hnext eq_refl Hnext_t) as Hnext1.
    destruct (new_address_fresh s1) as (Hj_nn & Hj_free & Hj_log).
    set (j := new_address s1) in *.
    assert (deref s1 j = None) as Hj1.
    { unfold deref. by destruct (decide (j = NULL)). }
    assert (j ≠ this) as Hj_this by (intros ->; congruence).
    assert (j ≠ next) as Hj_next by (intros ->; congruence).
    unfold link. rewrite (Block_transition_eq _ _ _ _ _ _ Hthis); simpl.
    rewrite Hs1; simpl. unfold new. fold j.
    set (s2 := store j (JumpAlways next) s1).
    assert (deref s2 this = Some (Block t n preds c)) as Hthis2
      by (unfold s2; by rewrite deref_store_ne).
    rewrite (set_Block_transition_eq _ _ _ _ _ _ Hthis2); simpl.
    set (s3 := store this (Block j n preds c) s2).
    assert (∃ bt bn bp bc, deref s3 next = Some (Block bt bn bp bc) ∧
              (next = this → bt = j)) as (bt & bn & bp & bc & Hnext3 & Hbt).
    { unfold s3. destruct (decide (this = next)) as [<-|Hne].
      - rewrite deref_store_eq by done. by eexists _, _, _, _.
      - rewrite deref_store_ne by done. unfold s2.
        rewrite deref_store_ne by done. eexists _, _, _, _. split; [done|].
        by intros ->. }
    rewrite (addPredecessor_eq _ _ _ _ _ _ Hnext3).
    eexists _, j. split; [done|].
    set (s4 := store next _ s3).
    assert (deref s4 next = Some (Block bt bn ({[this]} ∪ bp) bc)) as Hnext4
      by (unfold s4; by rewrite deref_store_eq).
    split.
    { unfold getTransition. destruct (decide (next = this)) as [->|Hne].
      - rewrite (Block_transition_eq _ _ _ _ _ _ Hnext4). by rewrite Hbt.
      - eapply Block_transition_eq. unfold s4, s3.
        rewrite deref_store_ne by done. by rewrite deref_store_eq. }
    split.
    { destruct (deref s j) eqn:Hj; [|done].
      destruct (Hlive j) as [[? Hj']|?]; [by eexists|congruence|done]. }
    split; [by intros ?%Hlog|].
    split.
    { unfold s4, s3, s2. rewrite !deref_store_ne by done.
      by rewrite deref_store_eq. }
    split; [eapply has_predecessor_eq; [exact Hnext4|set_solver]|].
    intros Htn. destruct (Hgone Htn) as [Ht1 Htlog]. split; [|done].
    assert (t ≠ j) as Htj by (intros ->; done).
    unfold s4, s3, s2. by rewrite !deref_store_ne by done.
  - (* link(JumpCond *cond) *)
    intros cond y no cnd Hcond Hcond_t (yt & yn & yp & yc & Hy)
      (zt & zn & zp & zc & Hno).
    pose proof (deref_Some_nonnull _ _ _ Hy) as Hy_nn.
    pose proof (deref_Some_nonnull _ _ _ Hno) as Hno_nn.
    assert (y ≠ t ∧ no ≠ t) as [Hyt Hnot].
    { split; intros <-;
        destruct Ht as [?|[[d Hd]|(y' & no' & cnd' & Hd & _)]];
        first [done|rewrite Hy in Hd; done|rewrite Hno in Hd; done]. }
    assert (cond ≠ this ∧ cond ≠ y ∧ cond ≠ no) as (Hc_this & Hc_y & Hc_no).
    { split; [|split]; intros ->; congruence. }
    pose proof (Hkeep _ _ Hcond eq_refl Hcond_t) as Hcond1.
    pose proof (Hkeep _ _ Hy eq_refl Hyt) as Hy1.
    pose proof (Hkeep _ _ Hno eq_refl Hnot) as Hno1.
    unfold link_cond. rewrite (Block_transition_eq _ _ _ _ _ _ Hthis); simpl.
    rewrite Hs1; simpl.
    rewrite (set_Block_transition_eq _ _ _ _ _ _ Hthis1); simpl.
    set (s2 := store this (Block cond n preds c) s1).
    assert (deref s2 cond = Some (JumpCond y no cnd)) as Hcond2
      by (unfold s2; by rewrite deref_store_ne).
    unfold JumpCond_yes. rewrite Hcond2; simpl.
    assert (∃ bt bn bp bc, deref s2 y = Some (Block bt bn bp bc) ∧
              (y = this → bt = cond)) as (bt & bn & bp & bc & Hy2 & Hbt).
    { unfold s2. destruct (decide (this = y)) as [<-|Hne].
      - rewrite deref_store_eq by done. by eexists _, _, _, _.
      - rewrite deref_store_ne by done. eexists _, _, _, _. split; [done|].
        by intros ->. }
    rewrite (addPredecessor_eq _ _ _ _ _ _ Hy2); simpl.
    set (s3 := store y (Block bt bn ({[this]} ∪ bp) bc) s2).
    assert (deref s3 y = Some (Block bt bn ({[this]} ∪ bp) bc)) as Hy3
      by (unfold s3; by rewrite deref_store_eq).
    assert (deref s3 cond = Some (JumpCond y no cnd)) as Hcond3
      by (unfold s3; by rewrite deref_store_ne).
    unfold JumpCond_no. rewrite Hcond3; simpl.
    assert (∃ ct cn cp cc, deref s3 no = Some (Block ct cn cp cc) ∧
              (no = this → ct = cond) ∧ (no = y → this ∈ cp))
      as (ct & cn & cp & cc & Hno3 & Hct & Hcp).
    { destruct (decide (no = y)) as [->|Hne].
      - eexists _, _, _, _. split; [exact Hy3|]. split; [done|set_solver].
      - unfold s3. rewrite deref_store_ne by done.
        unfold s2. destruct (decide (this = no)) as [<-|Hne'].
        + rewrite deref_store_eq by done. by eexists _, _, _, _.
        + rewrite deref_store_ne by done. eexists _, _, _, _.
          split; [done|]. split; [by intros ->|done]. }
    rewrite (addPredecessor_eq _ _ _ _ _ _ Hno3).
    eexists. split; [done|].
    set (s4 := store no _ s3).
    assert (deref s4 no = Some (Block ct cn ({[this]} ∪ cp) cc)) as Hno4
      by (unfold s4; by rewrite deref_store_eq).
    split.
    { unfold getTransition. destruct (decide (no = this)) as [->|Hne].
      - rewrite (Block_transition_eq _ _ _ _ _ _ Hno4). by rewrite Hct.
      - destruct (decide (y = this)) as [->|Hne'].
        + eapply Block_transition_eq. unfold s4.
          rewrite deref_store_ne by done. rewrite Hy3. by rewrite Hbt.
        + eapply Block_transition_eq. unfold s4, s3.
          rewrite !deref_store_ne by done. unfold s2.
          by rewrite deref_store_eq. }
    split; [unfold s4; by rewrite deref_store_ne|].
    split.
    { destruct (decide (no = y)) as [->|Hne].
      - eapply has_predecessor_eq; [exact Hno4|set_solver].
      - eapply has_predecessor_eq; [|apply elem_of_union_l, elem_of_singleton; done].
        unfold s4. rewrite deref_store_ne by done. exact Hy3. }
    split; [eapply has_predecessor_eq; [exact Hno4|set_solver]|].
    intros Htn. destruct (Hgone Htn) as [Ht1 Htlog]. split; [|done].
    unfold s4, s3, s2. by rewrite !deref_store_ne by done.
Qed.

Lemma link_postconditions_witness :
  (∃ s' j, link 1 6 two_jumps = Some s' ∧
     getTransition 1 s' = Some j ∧
     deref two_jumps j = None ∧ (j ∉ released two_jumps) ∧
     deref s' j = Some (JumpAlways 6) ∧
     has_predecessor s' 6 1 ∧
     (3%N ≠ NULL → deref s' 3 = None ∧ 3%N ∈ released s')) ∧
  (∃ s', link_cond 1 4 two_jumps = Some s' ∧
     getTransition 1 s' = Some 4%N ∧
     deref s' 4 = Some (JumpCond 2 6 5) ∧
     has_predecessor s' 2 1 ∧ has_predecessor s' 6 1 ∧
     (3%N ≠ NULL → deref s' 3 = None ∧ 3%N ∈ released s')).
Proof.
  destruct (link_postconditions two_jumps 1 3 "P" ∅ [] eq_refl) as [H1 H2].
  { right. left. by exists 2%N. }
  split.
  - apply H1. by eexists _, _, _, _.
  - apply (H2 4%N 2%N 6%N 5%N eq_refl); [done|by eexists _, _, _, _..].
Defined.

(** ** The predecessor index *)

Lemma is_Blockb_spec s p : is_Blockb s p = true ↔ is_Block s p.
Proof.
  unfold is_Blockb, is_Block. split.
  - destruct (deref s p) as [[]|]; try done. intros _. by eexists _, _, _, _.
  - by intros (t & n & preds & c & ->).
Qed.

Lemma has_predecessorb_spec s b p :
  has_predecessorb s b p = true ↔ has_predecessor s b p.
Proof.
  unfold has_predecessorb, has_predecessor. split.
  - destruct (Block_predecessors s b) as [preds|]; [|done].
    intros ?%bool_decide_eq_true. by exists preds.
  - intros (preds & -> & Hp). by apply bool_decide_eq_true.
Qed.

Lemma names_destinationb_spec s p b :
  names_destinationb s p b = true ↔ names_destination s p b.
Proof.
  unfold names_destinationb, names_destination. split.
  - destruct (destinations s p) as [ds|]; [|done].
    intros ?%bool_decide_eq_true. by exists ds.
  - intros (ds & -> & Hp). by apply bool_decide_eq_true.
Qed.

Lemma elem_of_blocks_of s p : p ∈ blocks_of s ↔ is_Block s p.
Proof.
  unfold blocks_of. rewrite list_elem_of_filter, is_Blockb_spec.
  split; [by intros [? _]|]. intros Hp. split; [done|].
  apply elem_of_elements, elem_of_dom.
  destruct Hp as (t & n & preds & c & Hp). unfold deref in Hp.
  case_decide; [done|]. by eexists.
Qed.

Lemma predecessor_consistentb_spec s :
  predecessor_consistentb s = true ↔ predecessor_consistent s.
Proof.
  unfold predecessor_consistentb, predecessor_consistent.
  rewrite forallb_forall. split.
  - intros H p b Hp Hb.
    apply elem_of_blocks_of, list_elem_of_In in Hp.
    apply elem_of_blocks_of, list_elem_of_In in Hb.
    specialize (H p Hp). rewrite forallb_forall in H.
    specialize (H b Hb). apply bool_decide_eq_true in H.
    rewrite <- has_predecessorb_spec, <- names_destinationb_spec.
    by rewrite H.
  - intros H p Hp. apply forallb_forall. intros b Hb.
    apply list_elem_of_In, elem_of_blocks_of in Hp.
    apply list_elem_of_In, elem_of_blocks_of in Hb.
    apply bool_decide_eq_true. specialize (H p b Hp Hb).
    rewrite <- has_predecessorb_spec, <- names_destinationb_spec in H.
    destruct (has_predecessorb s b p), (names_destinationb s p b);
      naive_solver.
Qed.

(** On a terminal block, [link] keeps the invariant: the block gains the
    one edge it registers. *)
Lemma link_terminal_consistent s this next n preds c :
  predecessor_consistent s → transitions_live s →
  deref s this = Some (Block NULL n preds c) → is_Block s next →
  ∃ s', link this next s = Some s' ∧ predecessor_consistent s'.
Proof.
  intros Hcons Hlive Hthis (nt & nn & np & nc & Hnext).
  pose proof (deref_Some_nonnull _ _ _ Hthis) as Hthis_nn.
  pose proof (deref_Some_nonnull _ _ _ Hnext) as Hnext_nn.
  destruct (new_address_fresh s) as (Hj_nn & Hj_free & _).
  set (j := new_address s) in *.
  assert (deref s j = None) as Hj.
  { unfold deref. by destruct (decide (j = NULL)). }
  assert (j ≠ this ∧ j ≠ next) as [Hj_this Hj_next]
    by (split; intros ->; congruence).
  unfold link. rewrite (Block_transition_eq _ _ _ _ _ _ Hthis); simpl.
  unfold new. fold j.
  set (s2 := store j (JumpAlways next) s).
  assert (deref s2 this = Some (Block NULL n preds c)) as Hthis2
    by (unfold s2; by rewrite deref_store_ne).
  rewrite (set_Block_transition_eq _ _ _ _ _ _ Hthis2); simpl.
  set (s3 := store this (Block j n preds c) s2).
  assert (∃ bp, deref s3 next
                = Some (Block (if decide (next = this) then j else nt) nn bp nc)
                ∧ Block_predecessors s next = Some bp)
    as (bp & Hnext3 & Hbp).
  { unfold s3. destruct (decide (next = this)) as [->|Hne].
    - rewrite deref_store_eq by done. rewrite Hthis in Hnext.
      injection Hnext as <- <- <- <-. exists preds. split; [done|].
      by eapply Block_predecessors_eq.
    - rewrite deref_store_ne by done. unfold s2.
      rewrite deref_store_ne by done. exists np. split; [done|].
      by eapply Block_predecessors_eq. }
  rewrite (addPredecessor_eq _ _ _ _ _ _ Hnext3).
  eexists. split; [done|].
  set (s4 := store next _ s3).
  (* the objects of the new state *)
  assert (∀ q, q ≠ next → q ≠ this → q ≠ j → deref s4 q = deref s q) as Hother.
  { intros q ???. unfold s4, s3, s2. by rewrite !deref_store_ne. }
  assert (deref s4 j = Some (JumpAlways next)) as Hj4.
  { unfold s4, s3, s2. rewrite !deref_store_ne by done.
    by rewrite deref_store_eq. }
  assert (Block_transition s4 this = Some j) as Hthis4.
  { unfold Block_transition, s4. destruct (decide (next = this)) as [->|Hne].
    - by rewrite deref_store_eq by done.
    - rewrite deref_store_ne by done. unfold s3.
      by rewrite deref_store_eq. }
  assert (∀ q, q ≠ this → Block_transition s4 q = Block_transition s q)
    as Htrans.
  { intros q Hq. unfold Block_transition.
    destruct (decide (q = next)) as [->|Hqn].
    - unfold s4. rewrite deref_store_eq, Hnext by done. simpl.
      by rewrite decide_False.
    - destruct (decide (q = j)) as [->|Hqj].
      + by rewrite Hj4, Hj.
      + by rewrite Hother. }
  assert (∀ q, is_Block s4 q ↔ is_Block s q) as Hblocks.
  { intros q. unfold is_Block.
    destruct (decide (q = next)) as [->|Hqn].
    { unfold s4. rewrite deref_store_eq by done. split; intros _.
      - by eexists _, _, _, _.
      - by eexists _, _, _, _. }
    destruct (decide (q = this)) as [->|Hqt].
    { unfold s4, s3. rewrite deref_store_ne, deref_store_eq by done.
      split; intros _; by eexists _, _, _, _. }
    destruct (decide (q = j)) as [->|Hqj].
    { rewrite Hj4, Hj. split; by intros (? & ? & ? & ? & ?). }
    by rewrite Hother. }
  assert (∀ b p, has_predecessor s4 b p ↔
                 has_predecessor s b p ∨ (b = next ∧ p = this ∧ is_Block s b))
    as Hpreds.
  { intros b p. unfold has_predecessor, Block_predecessors.
    destruct (decide (b = next)) as [->|Hbn].
    { unfold s4. rewrite deref_store_eq by done. simpl.
      unfold Block_predecessors in Hbp. rewrite Hnext in Hbp. simpl in Hbp.
      injection Hbp as <-. rewrite Hnext. simpl. split.
      - intros (ps & [= <-] & [->%elem_of_singleton|Hin]%elem_of_union).
        + right. split; [done|]. split; [done|]. by eexists _, _, _, _.
        + left. by exists np.
      - intros [(ps & [= <-] & Hin)|(_ & -> & _)];
          eexists; (split; [done|]); set_solver. }
    destruct (decide (b = this)) as [->|Hbt].
    { unfold s4, s3. rewrite deref_store_ne, deref_store_eq, Hthis by done.
      simpl. naive_solver. }
    destruct (decide (b = j)) as [->|Hbj].
    { rewrite Hj4, Hj. simpl. naive_solver. }
    rewrite Hother by done. naive_solver. }
  assert (destinations s4 this = Some [next]) as Hdest_this.
  { unfold destinations. rewrite Hthis4. simpl.
    rewrite decide_False by done. by rewrite Hj4. }
  assert (destinations s this = Some []) as Hdest_this0.
  { unfold destinations. by rewrite (Block_transition_eq _ _ _ _ _ _ Hthis). }
  assert (∀ p, p ≠ this → destinations s4 p = destinations s p) as Hdest.
  { intros p Hp. unfold destinations. rewrite Htrans by done.
    destruct (Block_transition s p) as [t|] eqn:Ht; [|done]. simpl.
    destruct (decide (t = NULL)) as [|Htn]; [done|].
    destruct (Hlive p t Ht Htn) as [e He].
    assert (t ≠ j) as Htj by (intros ->; congruence).
    destruct (decide (t = next)) as [->|?].
    { unfold s4. rewrite deref_store_eq, Hnext by done. done. }
    destruct (decide (t = this)) as [->|?].
    { unfold s4, s3. rewrite deref_store_ne, deref_store_eq, Hthis by done.
      done. }
    by rewrite Hother. }
  intros p b Hp%Hblocks Hb%Hblocks. rewrite Hpreds.
  destruct (decide (p = this)) as [->|Hpt].
  - unfold names_destination. rewrite Hdest_this.
    specialize (Hcons this b Hp Hb). unfold names_destination in Hcons.
    rewrite Hdest_this0 in Hcons. split.
    + intros [Hold|(-> & _)]; [|exists [next]; set_solver].
      apply Hcons in Hold as (ds & [= <-] & Hin). by apply elem_of_nil in Hin.
    + intros (ds & [= <-] & ->%list_elem_of_singleton). by right.
  - unfold names_destination. rewrite Hdest by done.
    rewrite <- (Hcons p b Hp Hb). naive_solver.
Qed.

(** C1.  The invariant holds of three unlinked blocks and still holds
    after P.link(A); after a further P.link(B) the block A keeps P among
    its predecessors although the jump of P names only B, so the invariant
    is broken: [link] never removes the block from the predecessors of the
    destination it abandons. *)
Theorem link_leaves_stale_predecessor :
  predecessor_consistent three_blocks ∧
  ∃ s1 s2,
    link 1 2 three_blocks = Some s1 ∧ predecessor_consistent s1 ∧
    link 1 3 s1 = Some s2 ∧
    has_predecessor s2 2 1 ∧ destinations s2 1 = Some [3%N] ∧
    ¬ names_destination s2 1 2 ∧ ¬ predecessor_consistent s2.
Proof.
  split; [by apply predecessor_consistentb_spec|].
  assert (predecessor_consistentb <$> linked_once = Some true) as Hc1
    by by vm_compute.
  assert (predecessor_consistentb <$> linked_twice = Some false) as Hc2
    by by vm_compute.
  assert ((λ s, has_predecessorb s 2 1) <$> linked_twice = Some true) as Hp
    by by vm_compute.
  assert ((λ s, destinations s 1) <$> linked_twice = Some (Some [3%N])) as Hd
    by by vm_compute.
  unfold linked_twice, linked_once in *.
  destruct (link 1 2 three_blocks) as [s1|] eqn:Hs1; [|done].
  simpl in *. destruct (link 1 3 s1) as [s2|] eqn:Hs2; [|done].
  simpl in *. exists s1, s2. split; [done|].
  split; [apply predecessor_consistentb_spec; congruence|].
  split; [done|].
  split; [apply has_predecessorb_spec; congruence|].
  split; [congruence|].
  assert (¬ names_destination s2 1 2) as Hnot.
  { intros (ds & Hds & Hin). injection Hd as Hd. rewrite Hd in Hds.
    injection Hds as <-. by apply list_elem_of_singleton in Hin. }
  split; [done|].
  intros Hcons%predecessor_consistentb_spec. congruence.
Qed.

(** ** [relink] *)

(** C3.  When [oldChild] is not a destination of the block's jump (the
    block being live, its transition null or a live jump), [relink]
    returns false and the state it leaves is the state it was given. *)
Theorem relink_failure_atomic s this oldChild newChild t n preds c :
  deref s this = Some (Block t n preds c) →
  t = NULL ∨
    (∃ d, deref s t = Some (JumpAlways d)) ∨
    (∃ y no cnd, deref s t = Some (JumpCond y no cnd)) →
  ¬ names_destination s this oldChild →
  relink this oldChild newChild s = Some (false, s).
Proof.
  intros Hthis Ht Hnot. unfold relink.
  rewrite (Block_transition_eq _ _ _ _ _ _ Hthis); simpl.
  destruct (decide (t = NULL)) as [|Hnn]; [done|].
  assert (∀ ds, destinations s this = Some ds → oldChild ∉ ds) as Hds.
  { intros ds Hds Hin. apply Hnot. by exists ds. }
  unfold destinations in Hds.
  rewrite (Block_transition_eq _ _ _ _ _ _ Hthis) in Hds; simpl in Hds.
  destruct (decide (t = NULL)); [done|].
  destruct Ht as [?|[[d Hj]|(y & no & cnd & Hj)]]; [done|..];
    rewrite Hj in Hds |- *; simpl in *.
  - specialize (Hds _ eq_refl). case_decide; [set_solver|done].
  - specialize (Hds _ eq_refl). case_decide; [set_solver|done].
Qed.

Lemma relink_failure_atomic_witness :
  relink 1 6 2 branch = Some (false, branch).
Proof.
  apply (relink_failure_atomic branch 1 6 2 4 "P" ∅ [] eq_refl).
  - right. right. by exists 2%N, 3%N, 5%N.
  - intros Hn%names_destinationb_spec. done.
Defined.

(** ** Teardown *)

Lemma removed_deref s s' F q :
  removed s s' F → q ∉ F → deref s' q = deref s q.
Proof. intros [Hd _] Hq. rewrite Hd. by case_decide. Qed.

Lemma removed_then_free s s1 F p e :
  removed s s1 F → p ∉ F → deref s p = Some e →
  ∃ s', free p s1 = Some s' ∧ removed s s' (F ++ [p]).
Proof.
  intros Hrem Hp He.
  assert (deref s1 p = Some e) as He1 by by rewrite (removed_deref s s1 F).
  eexists. split; [by eapply free_eq|].
  eapply removed_trans; [done|]. apply removed_free. by eapply free_eq.
Qed.

Lemma nonnull_elem p q : q ∈ nonnull p ↔ q = p ∧ p ≠ NULL.
Proof.
  unfold nonnull. case_decide.
  - split; [by intros ?%elem_of_nil|naive_solver].
  - rewrite list_elem_of_singleton. naive_solver.
Qed.

(** Deleting a list of pointers one after the other, for a destructor
    [del] that deallocates the footprint [fp] of a well-typed pointer and
    whose footprint and typing only depend on the objects of the
    footprint. *)
Section delete_each.
Context (del : ptr → State → option State)
        (fp : State → ptr → list ptr) (wt : State → ptr → bool).
Hypothesis del_removed : ∀ s p,
  wt s p = true → NoDup (fp s p) →
  ∃ s', del p s = Some s' ∧ removed s s' (fp s p).
Hypothesis frame : ∀ s s' F p,
  removed s s' F → (∀ q, q ∈ fp s p → q ∉ F) → wt s p = true →
  fp s' p = fp s p ∧ wt s' p = true.

Lemma each_frame s s' F ps :
  removed s s' F → (∀ q, q ∈ concat (fp s <$> ps) → q ∉ F) →
  forallb (wt s) ps = true →
  concat (fp s' <$> ps) = concat (fp s <$> ps) ∧
  forallb (wt s') ps = true.
Proof.
  intros Hrem. induction ps as [|p ps IH]; csimpl; [done|].
  intros Hdisj [Hp Hps]%andb_prop.
  destruct (frame s s' F p Hrem) as [-> ->]; [|done|].
  { intros q Hq. apply Hdisj, elem_of_app. by left. }
  destruct IH as [-> ->]; [|done..].
  intros q Hq. apply Hdisj, elem_of_app. by right.
Qed.

Lemma delete_each_removed ps s :
  forallb (wt s) ps = true → NoDup (concat (fp s <$> ps)) →
  ∃ s', delete_each del ps s = Some s' ∧
        removed s s' (concat (fp s <$> ps)).
Proof.
  revert s. induction ps as [|p ps IH]; intros s; csimpl.
  { intros _ _. eexists. split; [done|apply removed_nil]. }
  intros [Hp Hps]%andb_prop (Hnd1 & Hdisj & Hnd2)%NoDup_app.
  destruct (del_removed s p Hp Hnd1) as (s1 & -> & Hrem1); simpl.
  destruct (each_frame s s1 (fp s p) ps Hrem1) as [Hfp Hwt]; [|done|].
  { intros q Hq Hq'. by apply (Hdisj q). }
  destruct (IH s1 Hwt) as (s2 & -> & Hrem2); [by rewrite Hfp|].
  eexists. split; [done|]. rewrite Hfp in Hrem2.
  by eapply removed_trans.
Qed.

Lemma delete_each_then_free ps s p e :
  deref s p = Some e → forallb (wt s) ps = true →
  NoDup (concat (fp s <$> ps) ++ [p]) →
  ∃ s', (s1 ← delete_each del ps s; free p s1) = Some s' ∧
        removed s s' (concat (fp s <$> ps) ++ [p]).
Proof.
  intros Hp Hwt (Hnd & Hdisj & _)%NoDup_app.
  destruct (delete_each_removed ps s Hwt Hnd) as (s1 & -> & Hrem); simpl.
  eapply removed_then_free; [done| |done].
  intros Hin. apply (Hdisj p Hin). by apply list_elem_of_singleton.
Qed.
End delete_each.

Lemma delete_Atom_footprint s p :
  wt_Atom s p = true → NoDup (Atom_footprint s p) →
  ∃ s', delete_Atom p s = Some s' ∧ removed s s' (Atom_footprint s p).
Proof.
  intros Hwt _. unfold Atom_footprint, nonnull.
  apply delete_Atom_removed. unfold wt_Atom, is_Atomb in Hwt.
  apply orb_prop in Hwt as [Hnull%bool_decide_eq_true|Hatom]; [by left|].
  right. destruct (deref s p) as [a|]; [|done]. by exists a.
Qed.

Lemma Atom_frame s s' F p :
  removed s s' F → (∀ q, q ∈ Atom_footprint s p → q ∉ F) →
  wt_Atom s p = true →
  Atom_footprint s' p = Atom_footprint s p ∧ wt_Atom s' p = true.
Proof.
  intros Hrem Hdisj Hwt. split; [done|].
  unfold wt_Atom, is_Atomb in *. destruct (decide (p = NULL)) as [->|Hp].
  { by rewrite bool_decide_eq_true_2. }
  rewrite (removed_deref s s' F); [done..|].
  apply Hdisj, nonnull_elem. done.
Qed.

Lemma delete_Variable_footprint s p :
  wt_Variable s p = true → NoDup (Atom_footprint s p) →
  ∃ s', delete_Variable p s = Some s' ∧ removed s s' (Atom_footprint s p).
Proof.
  intros Hwt _. unfold Atom_footprint, nonnull, delete_Variable.
  case_decide as Hnull.
  { eexists; split; [done|apply removed_nil]. }
  unfold wt_Variable, is_Variableb in Hwt.
  rewrite bool_decide_eq_false_2 in Hwt by done. simpl in Hwt.
  destruct (deref s p) as [[]|] eqn:Hp; try done; simpl.
  eexists. split; [by eapply free_eq|].
  apply removed_free. by eapply free_eq.
Qed.

Lemma Variable_frame s s' F p :
  removed s s' F → (∀ q, q ∈ Atom_footprint s p → q ∉ F) →
  wt_Variable s p = true →
  Atom_footprint s' p = Atom_footprint s p ∧ wt_Variable s' p = true.
Proof.
  intros Hrem Hdisj Hwt. split; [done|].
  unfold wt_Variable, is_Variableb in *.
  destruct (decide (p = NULL)) as [->|Hp].
  { by rewrite bool_decide_eq_true_2. }
  rewrite (removed_deref s s' F); [done..|].
  apply Hdisj, nonnull_elem. done.
Qed.

Lemma delete_Atoms_then_free ps s p e :
  deref s p = Some e → forallb (wt_Atom s) ps = true →
  NoDup (concat (Atom_footprint s <$> ps) ++ [p]) →
  ∃ s', (s1 ← delete_each delete_Atom ps s; free p s1) = Some s' ∧
        removed s s' (concat (Atom_footprint s <$> ps) ++ [p]).
Proof.
  apply (delete_each_then_free delete_Atom Atom_footprint wt_Atom).
  - apply delete_Atom_footprint.
  - apply Atom_frame.
Qed.

Lemma Atoms_frame s s' F ps :
  removed s s' F → (∀ q, q ∈ concat (Atom_footprint s <$> ps) → q ∉ F) →
  forallb (wt_Atom s) ps = true →
  concat (Atom_footprint s' <$> ps) = concat (Atom_footprint s <$> ps) ∧
  forallb (wt_Atom s') ps = true.
Proof. apply each_frame, Atom_frame. Qed.

Lemma Variables_frame s s' F ps :
  removed s s' F → (∀ q, q ∈ concat (Atom_footprint s <$> ps) → q ∉ F) →
  forallb (wt_Variable s) ps = true →
  concat (Atom_footprint s' <$> ps) = concat (Atom_footprint s <$> ps) ∧
  forallb (wt_Variable s') ps = true.
Proof. apply each_frame, Variable_frame. Qed.

Lemma free_removed s p e :
  deref s p = Some e → ∃ s', free p s = Some s' ∧ removed s s' [p].
Proof.
  intros Hp. eexists. split; [by eapply free_eq|].
  apply removed_free. by eapply free_eq.
Qed.

Lemma delete_Expression_footprint s p :
  wt_Expression s p = true → NoDup (Expression_footprint s p) →
  ∃ s', delete_Expression p s = Some s' ∧
        removed s s' (Expression_footprint s p).
Proof.
  unfold wt_Expression, Expression_footprint, delete_Expression.
  case_decide as Hnull.
  { intros _ _. eexists. split; [done|apply removed_nil]. }
  rewrite bool_decide_eq_false_2 by done; simpl.
  destruct (deref s p) as [e|] eqn:Hp; [|done]; simpl.
  destruct e; simpl; try done; intros Hwt Hnd;
    try (by eapply free_removed).
  - (* BinOp *)
    destruct (delete_Atoms_then_free [left; right] s p _ Hp)
      as (s' & Hrun & Hrem).
    { simpl. by rewrite andb_true_r. }
    { simpl. by rewrite app_nil_r, <- (assoc_L (++)). }
    exists s'. split.
    + simpl in Hrun. destruct (delete_Atom left s); [|done]; simpl in *.
      by destruct (delete_Atom right _).
    + simpl in Hrem. by rewrite app_nil_r, <- (assoc_L (++)) in Hrem.
  - (* UnOp *)
    destruct (delete_Atoms_then_free [operand] s p _ Hp)
      as (s' & Hrun & Hrem).
    { simpl. by rewrite andb_true_r. }
    { simpl. by rewrite app_nil_r. }
    exists s'. split.
    + simpl in Hrun. by destruct (delete_Atom operand s).
    + simpl in Hrem. by rewrite app_nil_r in Hrem.
  - (* Call *)
    by eapply delete_Atoms_then_free.
Qed.

Lemma Expression_footprint_self s p :
  p ≠ NULL → p ∈ Expression_footprint s p.
Proof.
  intros Hp. unfold Expression_footprint. rewrite decide_False by done.
  destruct (deref s p) as [[]|]; set_solver.
Qed.

Lemma Expression_frame s s' F p :
  removed s s' F → (∀ q, q ∈ Expression_footprint s p → q ∉ F) →
  wt_Expression s p = true →
  Expression_footprint s' p = Expression_footprint s p ∧
  wt_Expression s' p = true.
Proof.
  intros Hrem Hdisj Hwt. destruct (decide (p = NULL)) as [->|Hnull]; [done|].
  pose proof (removed_deref _ _ _ _ Hrem
                (Hdisj _ (Expression_footprint_self s p Hnull))) as Hp.
  unfold wt_Expression, Expression_footprint in *.
  rewrite !decide_False by done. rewrite decide_False in Hdisj by done.
  rewrite bool_decide_eq_false_2 in * by done; simpl in *.
  rewrite Hp. destruct (deref s p) as [e|]; [|done].
  destruct e; try done.
  - (* BinOp *)
    apply andb_prop in Hwt as [Hl Hr].
    destruct (Atom_frame s s' F left Hrem) as [_ ->]; [|done|].
    { intros q Hq. apply Hdisj. set_solver. }
    destruct (Atom_frame s s' F right Hrem) as [_ ->]; [|done|done].
    intros q Hq. apply Hdisj. unfold Atom_footprint in Hq. set_solver.
  - (* UnOp *)
    destruct (Atom_frame s s' F operand Hrem) as [_ ->]; [|done|done].
    intros q Hq. apply Hdisj. unfold Atom_footprint in Hq. set_solver.
  - (* Call *)
    destruct (Atoms_frame s s' F params Hrem) as [-> ->]; [|done|done].
    intros q Hq. apply Hdisj. set_solver.
Qed.

Lemma delete_Variables_then_free ps s p e :
  deref s p = Some e → forallb (wt_Variable s) ps = true →
  NoDup (concat (Atom_footprint s <$> ps) ++ [p]) →
  ∃ s', (s1 ← delete_each delete_Variable ps s; free p s1) = Some s' ∧
        removed s s' (concat (Atom_footprint s <$> ps) ++ [p]).
Proof.
  apply (delete_each_then_free delete_Variable Atom_footprint wt_Variable).
  - apply delete_Variable_footprint.
  - apply Variable_frame.
Qed.

Lemma delete_Atom_then_free a s p e :
  deref s p = Some e → wt_Atom s a = true → NoDup (nonnull a ++ [p]) →
  ∃ s', (s1 ← delete_Atom a s; free p s1) = Some s' ∧
        removed s s' (nonnull a ++ [p]).
Proof.
  intros Hp Hwt Hnd.
  destruct (delete_Atoms_then_free [a] s p _ Hp) as (s' & Hrun & Hrem).
  { simpl. by rewrite andb_true_r. }
  { simpl. by rewrite app_nil_r. }
  exists s'. split.
  - simpl in Hrun. by destruct (delete_Atom a s).
  - simpl in Hrem. by rewrite app_nil_r in Hrem.
Qed.

Lemma delete_Statement_footprint s p :
  wt_Statement s p = true → NoDup (Statement_footprint s p) →
  ∃ s', delete_Statement p s = Some s' ∧
        removed s s' (Statement_footprint s p).
Proof.
  unfold wt_Statement, Statement_footprint, delete_Statement.
  case_decide as Hnull.
  { intros _ _. eexists. split; [done|apply removed_nil]. }
  rewrite bool_decide_eq_false_2 by done; simpl.
  destruct (deref s p) as [e|] eqn:Hp; [|done]; simpl.
  destruct e; simpl; try done; intros Hwt Hnd;
    try (by eapply free_removed); try (by eapply delete_Atom_then_free).
  - (* Phi *)
    apply andb_prop in Hwt as [Hv Hvs].
    destruct (delete_Variables_then_free (var :: elements vars) s p _ Hp)
      as (s' & Hrun & Hrem).
    { simpl. by rewrite Hv. }
    { csimpl. by rewrite <- (assoc_L (++)). }
    exists s'. split.
    + simpl in Hrun. by destruct (delete_Variable var s).
    + csimpl in Hrem. by rewrite <- (assoc_L (++)) in Hrem.
  - (* Assignment *)
    apply andb_prop in Hwt as [Hv Hx].
    apply NoDup_app in Hnd as (Hnd_v & Hdisj_v & Hnd').
    apply NoDup_app in Hnd' as (Hnd_x & Hdisj_x & _).
    destruct (delete_Variable_footprint s var Hv Hnd_v) as (s1 & -> & Hrem1).
    simpl.
    destruct (Expression_frame s s1 (nonnull var) value Hrem1) as [Hfp Hx1];
      [|done|].
    { intros q Hq Hq'. apply (Hdisj_v q Hq'). set_solver. }
    destruct (delete_Expression_footprint s1 value Hx1)
      as (s2 & -> & Hrem2); [by rewrite Hfp|].
    simpl. rewrite Hfp in Hrem2.
    pose proof (removed_trans _ _ _ _ _ Hrem1 Hrem2) as Hrem12.
    destruct (removed_then_free s s2 _ p (Assignment var value) Hrem12)
      as (s3 & -> & Hrem3); [|done|].
    { intros [Hq|Hq]%elem_of_app.
      - apply (Hdisj_v p Hq). set_solver.
      - apply (Hdisj_x p Hq). set_solver. }
    exists s3. split; [done|]. by rewrite <- (assoc_L (++)) in Hrem3.
Qed.

Lemma Statement_footprint_self s p :
  p ≠ NULL → p ∈ Statement_footprint s p.
Proof.
  intros Hp. unfold Statement_footprint. rewrite decide_False by done.
  destruct (deref s p) as [[]|]; set_solver.
Qed.

Lemma Statement_frame s s' F p :
  removed s s' F → (∀ q, q ∈ Statement_footprint s p → q ∉ F) →
  wt_Statement s p = true →
  Statement_footprint s' p = Statement_footprint s p ∧
  wt_Statement s' p = true.
Proof.
  intros Hrem Hdisj Hwt. destruct (decide (p = NULL)) as [->|Hnull]; [done|].
  pose proof (removed_deref _ _ _ _ Hrem
                (Hdisj _ (Statement_footprint_self s p Hnull))) as Hp.
  unfold wt_Statement, Statement_footprint in *.
  rewrite !decide_False by done. rewrite decide_False in Hdisj by done.
  rewrite bool_decide_eq_false_2 in * by done; simpl in *.
  rewrite Hp. destruct (deref s p) as [e|]; [|done].
  assert (∀ a, wt_Atom s a = true → (∀ q, q ∈ nonnull a → q ∉ F) →
               wt_Atom s' a = true) as Hatom.
  { intros a Ha Hd. by destruct (Atom_frame s s' F a Hrem Hd Ha). }
  assert (∀ a, wt_Variable s a = true → (∀ q, q ∈ nonnull a → q ∉ F) →
               wt_Variable s' a = true) as Hvar.
  { intros a Ha Hd. by destruct (Variable_frame s s' F a Hrem Hd Ha). }
  destruct e; try done;
    try (split; [done|]; apply Hatom; [done|];
         intros q Hq; apply Hdisj; set_solver).
  - (* Phi *)
    apply andb_prop in Hwt as [Hv Hvs].
    destruct (Variables_frame s s' F (elements vars) Hrem) as [-> ->];
      [|done|].
    { intros q Hq. apply Hdisj. set_solver. }
    split; [done|]. rewrite Hvar; [done..|].
    intros q Hq. apply Hdisj. set_solver.
  - (* Assignment *)
    apply andb_prop in Hwt as [Hv Hx].
    destruct (Expression_frame s s' F value Hrem) as [-> ->]; [|done|].
    { intros q Hq. apply Hdisj. set_solver. }
    split; [done|]. rewrite Hvar; [done..|].
    intros q Hq. apply Hdisj. set_solver.
Qed.

Lemma wt_Jump_Statement s p : wt_Jump s p = true → wt_Statement s p = true.
Proof.
  unfold wt_Jump, wt_Statement. destruct (bool_decide (p = NULL)); [done|].
  simpl. by destruct (deref s p) as [[]|].
Qed.

Lemma delete_Jump_footprint s p :
  wt_Jump s p = true → NoDup (Statement_footprint s p) →
  ∃ s', delete_Jump p s = Some s' ∧ removed s s' (Statement_footprint s p).
Proof.
  intros Hwt Hnd.
  destruct (delete_Statement_footprint s p (wt_Jump_Statement s p Hwt) Hnd)
    as (s' & Hrun & Hrem).
  exists s'. split; [|done]. unfold delete_Jump, wt_Jump in *.
  case_decide as Hnull.
  { unfold delete_Statement in Hrun. by rewrite decide_True in Hrun. }
  rewrite bool_decide_eq_false_2 in Hwt by done. simpl in Hwt.
  by destruct (deref s p) as [[]|].
Qed.

Lemma Jump_frame s s' F p :
  removed s s' F → (∀ q, q ∈ Statement_footprint s p → q ∉ F) →
  wt_Jump s p = true →
  Statement_footprint s' p = Statement_footprint s p ∧ wt_Jump s' p = true.
Proof.
  intros Hrem Hdisj Hwt.
  destruct (Statement_frame s s' F p Hrem Hdisj (wt_Jump_Statement s p Hwt))
    as [Hfp Hwt'].
  split; [done|]. destruct (decide (p = NULL)) as [->|Hnull]; [done|].
  pose proof (removed_deref _ _ _ _ Hrem
                (Hdisj _ (Statement_footprint_self s p Hnull))) as Hp.
  unfold wt_Jump, wt_Statement in *.
  rewrite bool_decide_eq_false_2 in * by done; simpl in *.
  rewrite Hp in *. by destruct (deref s p) as [[]|].
Qed.

Lemma Statements_frame s s' F ps :
  removed s s' F →
  (∀ q, q ∈ concat (Statement_footprint s <$> ps) → q ∉ F) →
  forallb (wt_Statement s) ps = true →
  concat (Statement_footprint s' <$> ps)
  = concat (Statement_footprint s <$> ps) ∧
  forallb (wt_Statement s') ps = true.
Proof. apply each_frame, Statement_frame. Qed.

Lemma delete_Block_footprint s p :
  wt_Block s p = true → NoDup (Block_footprint s p) →
  ∃ s', delete_Block p s = Some s' ∧ removed s s' (Block_footprint s p).
Proof.
  unfold wt_Block, Block_footprint, delete_Block.
  case_decide as Hnull.
  { intros _ _. eexists. split; [done|apply removed_nil]. }
  rewrite bool_decide_eq_false_2 by done; simpl.
  destruct (deref s p) as [e|] eqn:Hp; [|done]; simpl.
  destruct e as [| | | | | | | |t nm preds c| | | | | | | |]; try done.
  intros [Hc Ht]%andb_prop (Hnd_c & Hdisj_c & Hnd')%NoDup_app.
  apply NoDup_app in Hnd' as (Hnd_t & Hdisj_t & _).
  destruct (delete_each_removed delete_Statement Statement_footprint
              wt_Statement delete_Statement_footprint Statement_frame
              c s Hc Hnd_c) as (s1 & -> & Hrem1); simpl.
  destruct (Jump_frame s s1 _ t Hrem1) as [Hfp Ht1]; [|done|].
  { intros q Hq Hq'. apply (Hdisj_c q Hq'). set_solver. }
  destruct (delete_Jump_footprint s1 t Ht1) as (s2 & -> & Hrem2);
    [by rewrite Hfp|].
  simpl. rewrite Hfp in Hrem2.
  pose proof (removed_trans _ _ _ _ _ Hrem1 Hrem2) as Hrem12.
  destruct (removed_then_free s s2 _ p (Block t nm preds c) Hrem12)
    as (s3 & -> & Hrem3); [|done|].
  { intros [Hq|Hq]%elem_of_app.
    - apply (Hdisj_c p Hq). set_solver.
    - apply (Hdisj_t p Hq). set_solver. }
  exists s3. split; [done|]. by rewrite <- (assoc_L (++)) in Hrem3.
Qed.

Lemma Block_footprint_self s p : p ≠ NULL → p ∈ Block_footprint s p.
Proof.
  intros Hp. unfold Block_footprint. rewrite decide_False by done.
  destruct (deref s p) as [[]|]; set_solver.
Qed.

Lemma Block_frame s s' F p :
  removed s s' F → (∀ q, q ∈ Block_footprint s p → q ∉ F) →
  wt_Block s p = true →
  Block_footprint s' p = Block_footprint s p ∧ wt_Block s' p = true.
Proof.
  intros Hrem Hdisj Hwt. destruct (decide (p = NULL)) as [->|Hnull]; [done|].
  pose proof (removed_deref _ _ _ _ Hrem
                (Hdisj _ (Block_footprint_self s p Hnull))) as Hp.
  unfold wt_Block, Block_footprint in *.
  rewrite !decide_False by done. rewrite decide_False in Hdisj by done.
  rewrite bool_decide_eq_false_2 in * by done; simpl in *.
  rewrite Hp. destruct (deref s p) as [e|]; [|done].
  destruct e as [| | | | | | | |t nm preds c| | | | | | | |]; try done.
  apply andb_prop in Hwt as [Hc Ht].
  destruct (Statements_frame s s' F c Hrem) as [-> ->]; [|done|].
  { intros q Hq. apply Hdisj. set_solver. }
  destruct (Jump_frame s s' F t Hrem) as [-> ->]; [|done|done].
  intros q Hq. apply Hdisj. set_solver.
Qed.

(** ** Enumerating the reachable blocks *)

Lemma elem_of_live_blocks s b : b ∈ live_blocks s ↔ is_Block s b.
Proof. unfold live_blocks. by rewrite elem_of_list_to_set, elem_of_blocks_of. Qed.

Lemma elem_of_successors s b b' :
  b' ∈ successors s b ↔ names_destination s b b'.
Proof.
  unfold successors, names_destination. split.
  - destruct (destinations s b) as [ds|]; simpl; [by exists ds|].
    by intros ?%elem_of_nil.
  - by intros (ds & -> & Hin).
Qed.

Lemma elem_of_concat {A} (x : A) (ls : list (list A)) :
  x ∈ concat ls ↔ ∃ l, l ∈ ls ∧ x ∈ l.
Proof.
  induction ls as [|l ls IH]; simpl.
  - split; [by intros ?%elem_of_nil|]. by intros (l & ?%elem_of_nil & _).
  - rewrite elem_of_app, IH. split.
    + intros [?|(l' & ? & ?)]; [exists l|exists l']; set_solver.
    + intros (l' & [->|?]%elem_of_cons & ?); [by left|right; by exists l'].
Qed.

Lemma elem_of_reach_step s found b' :
  b' ∈ reach_step s found ↔
  b' ∈ found ∨
  ∃ b, b ∈ found ∧ names_destination s b b' ∧ is_Block s b'.
Proof.
  unfold reach_step.
  rewrite elem_of_union, elem_of_intersection, elem_of_list_to_set,
    elem_of_live_blocks.
  split; (intros [?|H]; [by left|right]).
  - destruct H as [(l & (b & -> & Hb)%list_elem_of_fmap & Hin)%elem_of_concat
                     Hblock].
    exists b. rewrite <- elem_of_successors. set_solver.
  - destruct H as (b & Hb & Hdest & Hblock). split; [|done].
    apply elem_of_concat. exists (successors s b).
    split; [|by apply elem_of_successors].
    apply list_elem_of_fmap. exists b. set_solver.
Qed.

Section reach.
Context (s : State) (entry : ptr).

#[local] Abbreviation found := (found_after s entry).

Lemma found_after_S k : found (S k) = reach_step s (found k).
Proof. done. Qed.

Lemma found_after_reachable k b : b ∈ found k → reachable s entry b.
Proof.
  revert b. induction k as [|k IH]; intros b.
  - unfold found_after; simpl.
    intros [->%elem_of_singleton Hlive%elem_of_live_blocks]%elem_of_intersection.
    by constructor.
  - rewrite found_after_S, elem_of_reach_step.
    intros [?|(b0 & Hb0 & Hdest & Hblock)]; [by apply IH|].
    eapply reachable_jump; [by apply IH|done..].
Qed.

Lemma found_after_live k : found k ⊆ live_blocks s.
Proof.
  intros b Hb%found_after_reachable. apply elem_of_live_blocks.
  by destruct Hb.
Qed.

Lemma found_after_mono k : found k ⊆ found (S k).
Proof. intros b Hb. rewrite found_after_S, elem_of_reach_step. by left. Qed.

Lemma found_after_le j k : (j ≤ k)%nat → found j ⊆ found k.
Proof.
  induction 1 as [|k _ IH]; [done|].
  etrans; [exact IH|apply found_after_mono].
Qed.

Lemma live_blocks_size : (size (live_blocks s) ≤ size (heap s))%nat.
Proof.
  rewrite <- (size_dom (D := gset ptr)). apply subseteq_size.
  intros b (t & n & preds & c & Hb)%elem_of_live_blocks.
  apply elem_of_dom. unfold deref in Hb. case_decide; [done|]. by eexists.
Qed.

(** Each round either finds nothing new or finds at least one block. *)
Lemma found_after_grows k :
  found (S k) = found k ∨ (k + 1 ≤ size (found (S k)))%nat.
Proof.
  induction k as [|k IH].
  - destruct (decide (found 1 = found 0)) as [|Hne]; [by left|].
    right. assert (found 0 ⊂ found 1) as Hlt.
    { split; [apply found_after_mono|]. intros Hsub. apply Hne.
      apply set_eq. intros b. split; [apply Hsub|apply found_after_mono]. }
    apply subset_size in Hlt. lia.
  - destruct (decide (found (S (S k)) = found (S k)))
      as [|Hne]; [by left|].
    right. assert (found (S k) ⊂ found (S (S k))) as Hlt.
    { split; [apply found_after_mono|]. intros Hsub. apply Hne.
      apply set_eq. intros b. split; [apply Hsub|apply found_after_mono]. }
    apply subset_size in Hlt.
    destruct IH as [Heq|IH]; [|lia].
    exfalso. apply Hne. by rewrite (found_after_S (S k)), Heq.
Qed.

Lemma found_after_fixpoint :
  reach_step s (reachable_set s entry) = reachable_set s entry.
Proof.
  change (found (S (size (heap s))) = found (size (heap s))).
  destruct (found_after_grows (size (heap s))) as [|Hsize]; [done|].
  pose proof (subseteq_size _ _ (found_after_live (S (size (heap s))))).
  pose proof live_blocks_size. lia.
Qed.

Lemma reachable_set_spec b : b ∈ reachable_set s entry ↔ reachable s entry b.
Proof.
  split; [apply found_after_reachable|].
  induction 1 as [Hentry|b b' _ IH Hdest Hblock].
  - apply (found_after_le 0); [lia|].
    apply elem_of_intersection. split; [set_solver|].
    by apply elem_of_live_blocks.
  - rewrite <- found_after_fixpoint, elem_of_reach_step. right. by exists b.
Qed.

Lemma reachable_blocks_spec b :
  b ∈ reachable_blocks s entry ↔ reachable s entry b.
Proof. unfold reachable_blocks. by rewrite elem_of_elements, reachable_set_spec. Qed.

Lemma reachable_blocks_NoDup : NoDup (reachable_blocks s entry).
Proof. apply NoDup_elements. Qed.
End reach.

(** ** [~Function] and [~SimpleIr] *)

Lemma removed_deref_Some s s' F q e :
  removed s s' F → deref s' q = Some e → deref s q = Some e.
Proof. intros [Hd _]. rewrite Hd. by case_decide. Qed.

Lemma removed_is_Block s s' F q : removed s s' F → is_Block s' q → is_Block s q.
Proof.
  intros Hrem (t & n & preds & c & Hq). exists t, n, preds, c.
  by eapply removed_deref_Some.
Qed.

Lemma Block_footprint_transition s b t n preds c :
  deref s b = Some (Block t n preds c) → t ≠ NULL → t ∈ Block_footprint s b.
Proof.
  intros Hb Ht. pose proof (deref_Some_nonnull _ _ _ Hb).
  unfold Block_footprint. rewrite decide_False, Hb by done.
  apply elem_of_app. right. apply elem_of_app. left.
  by apply Statement_footprint_self.
Qed.

Lemma destinations_agree s s' b :
  deref s' b = deref s b →
  (∀ t n preds c, deref s b = Some (Block t n preds c) → t ≠ NULL →
                  deref s' t = deref s t) →
  destinations s' b = destinations s b.
Proof.
  intros Hb Ht. unfold destinations, Block_transition. rewrite Hb.
  destruct (deref s b) as [e|]; [|done]; simpl.
  destruct e as [| | | | | | | |t nm preds c| | | | | | | |]; try done; simpl.
  case_decide; [done|]. by rewrite (Ht t nm preds c).
Qed.

Section function_frame.
Context (s s' : State) (F : list ptr) (p en : ptr).
Hypothesis Hrem : removed s s' F.
Hypothesis Hdisj :
  ∀ q, q ∈ concat (Block_footprint s <$> reachable_blocks s en) → q ∉ F.

Lemma reachable_in_footprint b q :
  reachable s en b → q ∈ Block_footprint s b → deref s' q = deref s q.
Proof.
  intros Hb Hq. eapply removed_deref; [done|]. apply Hdisj.
  apply elem_of_concat. exists (Block_footprint s b). split; [|done].
  apply list_elem_of_fmap. exists b. split; [done|].
  by apply reachable_blocks_spec.
Qed.

Lemma reachable_block_agrees b : reachable s en b → deref s' b = deref s b.
Proof.
  intros Hb. eapply reachable_in_footprint; [done|].
  apply Block_footprint_self.
  assert (is_Block s b) as (t & n & preds & c & Hd) by by destruct Hb.
  by eapply deref_Some_nonnull.
Qed.

Lemma reachable_destinations_agree b :
  reachable s en b → destinations s' b = destinations s b.
Proof.
  intros Hb. apply destinations_agree; [by apply reachable_block_agrees|].
  intros t n preds c Hd Ht. eapply reachable_in_footprint; [done|].
  by eapply Block_footprint_transition.
Qed.

Lemma reachable_frame b : reachable s' en b ↔ reachable s en b.
Proof.
  split.
  - induction 1 as [Hentry|b b' _ IH (ds & Hds & Hin) Hblock].
    + constructor. by eapply removed_is_Block.
    + eapply reachable_jump; [done| |by eapply removed_is_Block].
      exists ds. by rewrite <- reachable_destinations_agree.
  - induction 1 as [Hentry|b b' Hb IH (ds & Hds & Hin) Hblock].
    + constructor. destruct Hentry as (t & n & preds & c & Hd).
      exists t, n, preds, c.
      rewrite reachable_block_agrees; [done|].
      constructor. by eexists _, _, _, _.
    + eapply reachable_jump; [done| |].
      * exists ds. by rewrite reachable_destinations_agree.
      * destruct Hblock as (t & n & preds & c & Hd).
        exists t, n, preds, c.
        rewrite reachable_block_agrees; [done|].
        eapply reachable_jump; [done| |by eexists _, _, _, _].
        by exists ds.
Qed.

Lemma reachable_blocks_frame : reachable_blocks s' en = reachable_blocks s en.
Proof.
  unfold reachable_blocks. f_equal. apply set_eq. intros b.
  rewrite !reachable_set_spec. apply reachable_frame.
Qed.
End function_frame.

Lemma Blocks_frame s s' F ps :
  removed s s' F →
  (∀ q, q ∈ concat (Block_footprint s <$> ps) → q ∉ F) →
  forallb (wt_Block s) ps = true →
  concat (Block_footprint s' <$> ps) = concat (Block_footprint s <$> ps) ∧
  forallb (wt_Block s') ps = true.
Proof. apply each_frame, Block_frame. Qed.

Lemma Function_footprint_self s p : p ≠ NULL → p ∈ Function_footprint s p.
Proof.
  intros Hp. unfold Function_footprint. rewrite decide_False by done.
  destruct (deref s p) as [[]|]; set_solver.
Qed.

Lemma Function_frame s s' F p :
  removed s s' F → (∀ q, q ∈ Function_footprint s p → q ∉ F) →
  wt_Function s p = true →
  Function_footprint s' p = Function_footprint s p ∧
  wt_Function s' p = true.
Proof.
  intros Hrem Hdisj Hwt. destruct (decide (p = NULL)) as [->|Hnull]; [done|].
  pose proof (removed_deref _ _ _ _ Hrem
                (Hdisj _ (Function_footprint_self s p Hnull))) as Hp.
  unfold wt_Function, Function_footprint in *.
  rewrite !decide_False by done. rewrite decide_False in Hdisj by done.
  rewrite bool_decide_eq_false_2 in * by done; simpl in *.
  rewrite Hp. destruct (deref s p) as [e|]; [|done].
  destruct e as [| | | | | | | | | | | |nm fid en ps rs mc rt na| | | |];
    try done.
  assert (∀ q, q ∈ concat (Block_footprint s <$> reachable_blocks s en) →
               q ∉ F) as Hdisj'.
  { intros q Hq. apply Hdisj. set_solver. }
  rewrite (reachable_blocks_frame s s' F en Hrem Hdisj').
  by destruct (Blocks_frame s s' F (reachable_blocks s en) Hrem Hdisj' Hwt)
    as [-> ->].
Qed.

Lemma delete_Function_footprint s p :
  wt_Function s p = true → NoDup (Function_footprint s p) →
  ∃ s', delete_Function p s = Some s' ∧
        removed s s' (Function_footprint s p).
Proof.
  unfold wt_Function, Function_footprint, delete_Function.
  case_decide as Hnull.
  { intros _ _. eexists. split; [done|apply removed_nil]. }
  rewrite bool_decide_eq_false_2 by done; simpl.
  destruct (deref s p) as [e|] eqn:Hp; [|done]; simpl.
  destruct e as [| | | | | | | | | | | |nm fid en ps rs mc rt na| | | |];
    try done.
  intros Hwt Hnd.
  eapply (delete_each_then_free delete_Block Block_footprint wt_Block);
    [apply delete_Block_footprint|apply Block_frame|done..].
Qed.

Lemma delete_SimpleIr_footprint s unit :
  well_owned s unit →
  ∃ s', delete_SimpleIr unit s = Some s' ∧
        removed s s' (SimpleIr_footprint s unit).
Proof.
  intros [Hwt Hnd].
  apply (delete_each_removed delete_Function Function_footprint wt_Function);
    [apply delete_Function_footprint|apply Function_frame|done..].
Qed.

(** ** Everything owned is in the footprint *)

Lemma forallb_elem {A} (f : A → bool) (l : list A) (x : A) :
  forallb f l = true → x ∈ l → f x = true.
Proof.
  intros Hall Hx. rewrite forallb_forall in Hall.
  by apply Hall, list_elem_of_In.
Qed.

Lemma parts_Atom s a : wt_Atom s a = true → a ≠ NULL → parts s a = [].
Proof.
  unfold wt_Atom, is_Atomb, parts. intros Hwt Ha.
  rewrite bool_decide_eq_false_2 in Hwt by done. simpl in Hwt.
  by destruct (deref s a) as [[]|].
Qed.

Lemma parts_Variable s a : wt_Variable s a = true → a ≠ NULL → parts s a = [].
Proof.
  unfold wt_Variable, is_Variableb, parts. intros Hwt Ha.
  rewrite bool_decide_eq_false_2 in Hwt by done. simpl in Hwt.
  by destruct (deref s a) as [[]|].
Qed.

Lemma parts_Atoms s ps q' q :
  forallb (wt_Atom s) ps = true →
  q' ∈ concat (Atom_footprint s <$> ps) → q ∈ parts s q' → False.
Proof.
  intros Hwt (l & (a & -> & Ha)%list_elem_of_fmap & [-> Hnn]%nonnull_elem)
    %elem_of_concat.
  rewrite (parts_Atom s a); [by intros ?%elem_of_nil| |done].
  by eapply forallb_elem.
Qed.

Lemma parts_Variables s ps q' q :
  forallb (wt_Variable s) ps = true →
  q' ∈ concat (Atom_footprint s <$> ps) → q ∈ parts s q' → False.
Proof.
  intros Hwt (l & (a & -> & Ha)%list_elem_of_fmap & [-> Hnn]%nonnull_elem)
    %elem_of_concat.
  rewrite (parts_Variable s a); [by intros ?%elem_of_nil| |done].
  by eapply forallb_elem.
Qed.

Lemma elem_of_concat_fmap (fp : ptr → list ptr) ps p q :
  p ∈ ps → q ∈ fp p → q ∈ concat (fp <$> ps).
Proof.
  intros Hp Hq. apply elem_of_concat. exists (fp p). split; [|done].
  apply list_elem_of_fmap. by exists p.
Qed.

Lemma Expression_parts s p q' q :
  wt_Expression s p = true → q' ∈ Expression_footprint s p →
  q ∈ parts s q' → q ≠ NULL → q ∈ Expression_footprint s p.
Proof.
  unfold wt_Expression, Expression_footprint.
  case_decide as Hnull; [by intros _ ?%elem_of_nil|].
  rewrite bool_decide_eq_false_2 by done; simpl.
  destruct (deref s p) as [e|] eqn:Hp; [|done].
  assert (parts s p = [] → q' ∈ [p] → q ∈ parts s q' → q ∈ [p]) as Hleaf.
  { intros Hparts ->%list_elem_of_singleton. rewrite Hparts.
    by intros ?%elem_of_nil. }
  destruct e; simpl; try done; intros Hwt Hq' Hq Hqn;
    try (apply Hleaf; [unfold parts; by rewrite Hp|done..]).
  - (* BinOp *)
    apply andb_prop in Hwt as [Hl Hr].
    apply elem_of_app in Hq' as [[-> ?]%nonnull_elem|Hq'].
    { rewrite parts_Atom in Hq by done. by apply elem_of_nil in Hq. }
    apply elem_of_app in Hq' as [[-> ?]%nonnull_elem|Hq'].
    { rewrite parts_Atom in Hq by done. by apply elem_of_nil in Hq. }
    apply list_elem_of_singleton in Hq' as ->.
    unfold parts in Hq. rewrite Hp in Hq.
    rewrite !elem_of_app, !nonnull_elem. set_solver.
  - (* UnOp *)
    apply elem_of_app in Hq' as [[-> ?]%nonnull_elem|Hq'].
    { rewrite parts_Atom in Hq by done. by apply elem_of_nil in Hq. }
    apply list_elem_of_singleton in Hq' as ->.
    unfold parts in Hq. rewrite Hp in Hq.
    rewrite !elem_of_app, !nonnull_elem. set_solver.
  - (* Call *)
    apply elem_of_app in Hq' as [Hq'|Hq'].
    { by destruct (parts_Atoms s params q' q). }
    apply list_elem_of_singleton in Hq' as ->.
    unfold parts in Hq. rewrite Hp in Hq.
    apply elem_of_app. left.
    eapply (elem_of_concat_fmap (Atom_footprint s)); [done|].
    by apply nonnull_elem.
Qed.

Lemma Statement_parts s p q' q :
  wt_Statement s p = true → q' ∈ Statement_footprint s p →
  q ∈ parts s q' → q ≠ NULL → q ∈ Statement_footprint s p.
Proof.
  unfold wt_Statement, Statement_footprint.
  case_decide as Hnull; [by intros _ ?%elem_of_nil|].
  rewrite bool_decide_eq_false_2 by done; simpl.
  destruct (deref s p) as [e|] eqn:Hp; [|done].
  assert (∀ a, wt_Atom s a = true → q' ∈ nonnull a ++ [p] →
               parts s p = [a] → q ∈ parts s q' → q ≠ NULL →
               q ∈ nonnull a ++ [p]) as Hone.
  { intros a Ha [[-> ?]%nonnull_elem| ->%list_elem_of_singleton]%elem_of_app
      Hparts Hq Hqn.
    - rewrite parts_Atom in Hq by done. by apply elem_of_nil in Hq.
    - rewrite Hparts in Hq. apply list_elem_of_singleton in Hq as ->.
      apply elem_of_app. left. by apply nonnull_elem. }
  destruct e; simpl; try done; intros Hwt Hq' Hq Hqn;
    try (eapply Hone; [done..|unfold parts; by rewrite Hp|done|done]).
  - (* Phi *)
    apply andb_prop in Hwt as [Hv Hvs].
    apply elem_of_app in Hq' as [[-> ?]%nonnull_elem|Hq'].
    { rewrite parts_Variable in Hq by done. by apply elem_of_nil in Hq. }
    apply elem_of_app in Hq' as [Hq'|Hq'].
    { by destruct (parts_Variables s (elements vars) q' q). }
    apply list_elem_of_singleton in Hq' as ->.
    unfold parts in Hq. rewrite Hp in Hq.
    apply elem_of_cons in Hq as [->|Hq].
    + apply elem_of_app. left. by apply nonnull_elem.
    + apply elem_of_app. right. apply elem_of_app. left.
      eapply (elem_of_concat_fmap (Atom_footprint s)); [done|].
      by apply nonnull_elem.
  - (* Assignment *)
    apply andb_prop in Hwt as [Hv Hx].
    apply elem_of_app in Hq' as [[-> ?]%nonnull_elem|Hq'].
    { rewrite parts_Variable in Hq by done. by apply elem_of_nil in Hq. }
    apply elem_of_app in Hq' as [Hq'|Hq'].
    { apply elem_of_app. right. apply elem_of_app. left.
      by eapply Expression_parts. }
    apply list_elem_of_singleton in Hq' as ->.
    unfold parts in Hq. rewrite Hp in Hq.
    apply elem_of_cons in Hq as [->|Hq].
    + apply elem_of_app. left. by apply nonnull_elem.
    + apply list_elem_of_singleton in Hq as ->.
      apply elem_of_app. right. apply elem_of_app. left.
      by apply Expression_footprint_self.
  - (* JumpAlways *)
    apply list_elem_of_singleton in Hq' as ->.
    unfold parts in Hq. rewrite Hp in Hq. by apply elem_of_nil in Hq.
Qed.

Lemma Block_parts s p q' q :
  wt_Block s p = true → q' ∈ Block_footprint s p →
  q ∈ parts s q' → q ≠ NULL → q ∈ Block_footprint s p.
Proof.
  unfold wt_Block, Block_footprint.
  case_decide as Hnull; [by intros _ ?%elem_of_nil|].
  rewrite bool_decide_eq_false_2 by done; simpl.
  destruct (deref s p) as [e|] eqn:Hp; [|done].
  destruct e as [| | | | | | | |t nm preds c| | | | | | | |]; try done.
  intros [Hc Ht]%andb_prop Hq' Hq Hqn.
  apply elem_of_app in Hq' as [Hq'|Hq'].
  { apply elem_of_concat in Hq'
      as (l & (st & -> & Hst)%list_elem_of_fmap & Hq').
    apply elem_of_app. left.
    eapply (elem_of_concat_fmap (Statement_footprint s)); [done|].
    eapply Statement_parts; [by eapply forallb_elem|done..]. }
  apply elem_of_app in Hq' as [Hq'|Hq'].
  { apply elem_of_app. right. apply elem_of_app. left.
    eapply Statement_parts; [by apply wt_Jump_Statement|done..]. }
  apply list_elem_of_singleton in Hq' as ->.
  unfold parts in Hq. rewrite Hp in Hq.
  apply elem_of_app in Hq as [Hq| ->%list_elem_of_singleton].
  - apply elem_of_app. left.
    eapply (elem_of_concat_fmap (Statement_footprint s)); [done|].
    by apply Statement_footprint_self.
  - apply elem_of_app. right. apply elem_of_app. left.
    by apply Statement_footprint_self.
Qed.

Lemma Function_parts s p q' q :
  wt_Function s p = true → q' ∈ Function_footprint s p →
  q ∈ parts s q' → q ≠ NULL → q ∈ Function_footprint s p.
Proof.
  unfold wt_Function, Function_footprint.
  case_decide as Hnull; [by intros _ ?%elem_of_nil|].
  rewrite bool_decide_eq_false_2 by done; simpl.
  destruct (deref s p) as [e|] eqn:Hp; [|done].
  destruct e as [| | | | | | | | | | | |nm fid en ps rs mc rt na| | | |];
    try done.
  intros Hwt Hq' Hq Hqn.
  apply elem_of_app in Hq' as [Hq'|Hq'].
  - apply elem_of_concat in Hq'
      as (l & (b & -> & Hb)%list_elem_of_fmap & Hq').
    apply elem_of_app. left.
    eapply (elem_of_concat_fmap (Block_footprint s)); [done|].
    eapply Block_parts; [by eapply forallb_elem|done..].
  - apply list_elem_of_singleton in Hq' as ->.
    unfold parts in Hq. rewrite Hp in Hq. by apply elem_of_nil in Hq.
Qed.

Lemma owned_in_footprint s unit p :
  forallb (wt_Function s) (functions unit) = true →
  owned s unit p → p ∈ SimpleIr_footprint s unit.
Proof.
  intros Hwt. unfold SimpleIr_footprint.
  induction 1 as [f Hf Hnn|f en b Hf Hen Hb|p q _ IH Hq Hqn].
  - eapply (elem_of_concat_fmap (Function_footprint s)); [done|].
    by apply Function_footprint_self.
  - eapply (elem_of_concat_fmap (Function_footprint s)); [done|].
    unfold Function_entry in Hen.
    destruct (deref s f) as [e|] eqn:Hd; [|done].
    pose proof (deref_Some_nonnull _ _ _ Hd).
    unfold Function_footprint. rewrite decide_False, Hd by done.
    destruct e; try done. simpl in Hen. injection Hen as ->.
    apply elem_of_app. left.
    eapply (elem_of_concat_fmap (Block_footprint s));
      [by apply reachable_blocks_spec|].
    apply Block_footprint_self.
    assert (is_Block s b) as (t & n & preds & c & Hblock) by by destruct Hb.
    by eapply deref_Some_nonnull.
  - apply elem_of_concat in IH
      as (l & (f & -> & Hf)%list_elem_of_fmap & Hp).
    eapply (elem_of_concat_fmap (Function_footprint s)); [done|].
    eapply Function_parts; [by eapply forallb_elem|done..].
Qed.

(** C9.  In a well-owned store, destroying the program unit returns; the
    addresses it hands to [operator delete], in order, form a list [log]
    without repetition; and every node of the unit (each function, each
    block reachable from a function's entry, and every statement, jump
    and expression those blocks own) is in that list and gone from the
    store, while objects outside the list are untouched. *)
Theorem teardown_complete s unit :
  well_owned s unit →
  ∃ s' log,
    delete_SimpleIr unit s = Some s' ∧
    released s' = log ++ released s ∧
    NoDup log ∧
    (∀ p, owned s unit p → p ∈ log ∧ deref s' p = None) ∧
    (∀ p, p ∉ log → deref s' p = deref s p).
Proof.
  intros Hown.
  destruct (delete_SimpleIr_footprint s unit Hown) as (s' & Hrun & Hd & Hr).
  destruct Hown as [Hwt Hnd].
  exists s', (reverse (SimpleIr_footprint s unit)).
  split; [done|]. split; [done|].
  split; [by rewrite reverse_Permutation|]. split.
  - intros p Hp%(owned_in_footprint _ _ _ Hwt).
    split; [by apply elem_of_reverse|].
    rewrite Hd. by rewrite decide_True.
  - intros p Hp. rewrite Hd. rewrite decide_False; [done|].
    intros Hin. by apply Hp, elem_of_reverse.
Qed.

Lemma teardown_complete_witness :
  ∃ s' log,
    delete_SimpleIr loop_unit loop_program = Some s' ∧
    released s' = log ++ released loop_program ∧
    NoDup log ∧
    (∀ p, owned loop_program loop_unit p → p ∈ log ∧ deref s' p = None) ∧
    (∀ p, p ∉ log → deref s' p = deref loop_program p).
Proof.
  apply (teardown_complete loop_program loop_unit).
  split; [by vm_compute|].
  apply (bool_decide_unpack _). by vm_compute.
Defined.

(** * Further properties of the code *)

(** ** The [Atom] and [Expression] queries *)

(** X1.  [isAtom()] holds exactly of [Variable], [Int], [Double], [Ptr]
    and [ReadRef] objects, [isLiteral()] exactly of [Int], [Double] and
    [Ptr], [isExpression()] exactly of the atoms and of [BinOp], [UnOp]
    and [Call]; [asAtom()] and [asExpression()] return the object's own
    address when the matching query holds and null otherwise. *)
Theorem hierarchy_queries_agree (e : IrElement) (this : ptr) :
  (isAtom (vtable_of e this) = true ↔ variant e ∈ atom_names) ∧
  (isLiteral (vtable_of e this) = true ↔ variant e ∈ literal_names) ∧
  (isExpression (vtable_of e this) = true ↔ variant e ∈ expression_names) ∧
  asAtom (vtable_of e this)
    = (if isAtom (vtable_of e this) then this else NULL) ∧
  asExpression (vtable_of e this)
    = (if isExpression (vtable_of e this) then this else NULL).
Proof.
  unfold expression_names, atom_names, literal_names.
  destruct e; simpl; (split; [|split; [|split; [|done]]]);
    (split; [try done; intros _; set_solver|]);
    intros Hin; try done;
    repeat (apply elem_of_cons in Hin as [Hin|Hin]; [done|]);
    by apply elem_of_nil in Hin.
Qed.

(** ** What the linkage methods do to the blocks of the store *)

Lemma Block_fields_Some s b t n preds c :
  Block_fields s b = Some (t, n, preds, c) ↔
  deref s b = Some (Block t n preds c).
Proof.
  unfold Block_fields. destruct (deref s b) as [[]|]; naive_solver.
Qed.

Lemma has_predecessor_fields s b p :
  has_predecessor s b p ↔
  ∃ t n preds c, Block_fields s b = Some (t, n, preds, c) ∧ p ∈ preds.
Proof.
  unfold has_predecessor, Block_predecessors, Block_fields.
  destruct (deref s b) as [[]|]; simpl; naive_solver.
Qed.

Lemma is_Block_fields s b : is_Block s b ↔ is_Some (Block_fields s b).
Proof.
  unfold is_Block, Block_fields. split.
  - by intros (t & n & preds & c & ->).
  - destruct (deref s b) as [[]|]; intros [? ?]; try done.
    by eexists _, _, _, _.
Qed.

Lemma Block_fields_store_other s q e b :
  variant e ≠ ir_Block → (deref s q = None ∨ ∃ e', deref s q = Some e' ∧
                                             variant e' ≠ ir_Block) →
  Block_fields (store q e s) b = Block_fields s b.
Proof.
  intros He Hq. unfold Block_fields. rewrite deref_store.
  destruct (decide (b = NULL)) as [->|?]; [by rewrite deref_NULL|].
  destruct (decide (q = b)) as [->|?]; [|done].
  destruct Hq as [->|(e' & -> & He')]; by destruct e; try destruct e'.
Qed.

Lemma free_inv p s s' :
  free p s = Some s' →
  ∃ e, deref s p = Some e ∧
       s' = {| heap := delete p (heap s); released := p :: released s |}.
Proof.
  unfold free. destruct (deref s p) as [e|]; [|done]. simpl.
  intros [= <-]. by exists e.
Qed.

Lemma Block_fields_free p s s' e :
  deref s p = Some e → variant e ≠ ir_Block → free p s = Some s' →
  ∀ b, Block_fields s' b = Block_fields s b.
Proof.
  intros Hp He (e' & _ & ->)%free_inv b. unfold Block_fields.
  rewrite deref_delete. destruct (decide (b = p)) as [->|?]; [|done].
  rewrite Hp. by destruct e.
Qed.

Lemma delete_Atom_inv a s s' :
  delete_Atom a s = Some s' →
  (a = NULL ∧ s' = s) ∨
  (a ≠ NULL ∧ ∃ e, deref s a = Some e ∧ isAtom (vtable_of e a) = true ∧
                   free a s = Some s').
Proof.
  unfold delete_Atom. destruct (decide (a = NULL)) as [->|Ha].
  { intros [= <-]. by left. }
  destruct (deref s a) as [e|] eqn:He; [|done]. simpl.
  intros Hfree. right. split; [done|]. exists e.
  by destruct e.
Qed.

Lemma delete_Atom_fields a s s' :
  delete_Atom a s = Some s' → ∀ b, Block_fields s' b = Block_fields s b.
Proof.
  intros [[_ ->]|(_ & e & He & Hatom & Hfree)]%delete_Atom_inv; [done|].
  eapply Block_fields_free; [done| |done]. by destruct e.
Qed.

Lemma delete_Jump_inv t s s' :
  delete_Jump t s = Some s' → t ≠ NULL →
  (∃ d, deref s t = Some (JumpAlways d) ∧ free t s = Some s') ∨
  (∃ y n c s1, deref s t = Some (JumpCond y n c) ∧
               delete_Atom c s = Some s1 ∧ free t s1 = Some s').
Proof.
  unfold delete_Jump, delete_Statement. intros Hrun Ht.
  rewrite decide_False in Hrun by done.
  destruct (deref s t) as [e|] eqn:He; [|done]. simpl in Hrun.
  destruct e; try done; simpl in Hrun;
    rewrite decide_False in Hrun by done; simpl in Hrun.
  - left. by eexists.
  - right. destruct (delete_Atom condition s) as [s1|] eqn:Hc; [|done].
    by eexists _, _, _, s1.
Qed.

Lemma delete_Jump_fields t s s' :
  delete_Jump t s = Some s' → ∀ b, Block_fields s' b = Block_fields s b.
Proof.
  intros Hrun. destruct (decide (t = NULL)) as [->|Ht].
  { unfold delete_Jump in Hrun. rewrite decide_True in Hrun by done.
    by injection Hrun as <-. }
  destruct (delete_Jump_inv _ _ _ Hrun Ht)
    as [(d & Hd & Hfree)|(y & n & c & s1 & Hd & Hc & Hfree)]; intros b.
  - by eapply Block_fields_free.
  - rewrite <- (delete_Atom_fields _ _ _ Hc b).
    assert (∃ e, deref s1 t = Some e) as [e He].
    { apply free_inv in Hfree as (e & He & _). by exists e. }
    assert (variant e ≠ ir_Block) as Hne.
    { destruct (delete_Atom_inv _ _ _ Hc)
        as [[_ ->]|(_ & a & Ha & _ & (? & _ & ->)%free_inv)].
      - rewrite Hd in He. by injection He as <-.
      - rewrite deref_delete in He. case_decide; [done|].
        rewrite Hd in He. by injection He as <-. }
    by eapply Block_fields_free.
Qed.

(** [if (_transition) delete _transition;] leaves every block as it is. *)
Lemma release_prior_fields t s s1 :
  (if decide (t = NULL) then Some s else delete_Jump t s) = Some s1 →
  ∀ b, Block_fields s1 b = Block_fields s b.
Proof.
  destruct (decide (t = NULL)); [by intros [= <-]|].
  apply delete_Jump_fields.
Qed.

Lemma set_Block_transition_inv this j s s' :
  set_Block_transition this j s = Some s' →
  ∃ t n preds c, deref s this = Some (Block t n preds c) ∧
                 s' = store this (Block j n preds c) s.
Proof.
  unfold set_Block_transition. destruct (deref s this) as [[]|]; try done.
  simpl. intros [= <-]. by eexists _, _, _, _.
Qed.

Lemma addPredecessor_inv b x s s' :
  addPredecessor b x s = Some s' →
  ∃ t n preds c, deref s b = Some (Block t n preds c) ∧
                 s' = store b (Block t n ({[x]} ∪ preds) c) s.
Proof.
  unfold addPredecessor, Block_predecessors, set_Block_predecessors.
  destruct (deref s b) as [[]|]; try done.
  simpl. intros [= <-]. by eexists _, _, _, _.
Qed.

Lemma has_predecessor_store s b t n preds c q x :
  b ≠ NULL →
  has_predecessor (store b (Block t n preds c) s) q x ↔
  if decide (q = b) then x ∈ preds else has_predecessor s q x.
Proof.
  intros Hb. unfold has_predecessor, Block_predecessors.
  destruct (decide (q = b)) as [->|Hne].
  - rewrite deref_store_eq by done. simpl. naive_solver.
  - by rewrite deref_store_ne.
Qed.

Lemma set_Block_transition_predecessors this j s s' q x :
  set_Block_transition this j s = Some s' →
  has_predecessor s' q x ↔ has_predecessor s q x.
Proof.
  intros (t & n & preds & c & Hthis & ->)%set_Block_transition_inv.
  rewrite has_predecessor_store by by eapply deref_Some_nonnull.
  destruct (decide (q = this)) as [->|]; [|done].
  unfold has_predecessor. rewrite (Block_predecessors_eq _ _ _ _ _ _ Hthis).
  naive_solver.
Qed.

Lemma addPredecessor_predecessors b x s s' q p :
  addPredecessor b x s = Some s' →
  has_predecessor s' q p ↔ has_predecessor s q p ∨ (q = b ∧ p = x).
Proof.
  intros (t & n & preds & c & Hb & ->)%addPredecessor_inv.
  rewrite has_predecessor_store by by eapply deref_Some_nonnull.
  destruct (decide (q = b)) as [->|]; [|naive_solver].
  unfold has_predecessor. rewrite (Block_predecessors_eq _ _ _ _ _ _ Hb).
  rewrite elem_of_union, elem_of_singleton. naive_solver.
Qed.

Lemma same_fields_predecessors s s' :
  (∀ b, Block_fields s' b = Block_fields s b) →
  ∀ q p, has_predecessor s' q p ↔ has_predecessor s q p.
Proof. intros Hsame q p. by rewrite !has_predecessor_fields, Hsame. Qed.

Lemma new_fields e s b :
  variant e ≠ ir_Block →
  Block_fields (new e s).2 b = Block_fields s b.
Proof.
  intros He. unfold new; simpl. apply Block_fields_store_other; [done|].
  left. destruct (new_address_fresh s) as (? & Hfree & _).
  unfold deref. by rewrite decide_False.
Qed.

Lemma addPredecessor_frame b x s s' :
  addPredecessor b x s = Some s' →
  (∀ q, Block_transition s' q = Block_transition s q) ∧
  (∀ q, Block_contents s' q = Block_contents s q) ∧
  (∀ q e, deref s q = Some e → variant e ≠ ir_Block → deref s' q = Some e) ∧
  released s' = released s.
Proof.
  intros (t & n & preds & c & Hb & ->)%addPredecessor_inv.
  pose proof (deref_Some_nonnull _ _ _ Hb) as Hnn.
  split; [|split; [|split; [|done]]].
  - intros q. unfold Block_transition. rewrite deref_store.
    destruct (decide (q = NULL)) as [->|?]; [by rewrite deref_NULL|].
    destruct (decide (b = q)) as [<-|?]; [by rewrite Hb|done].
  - intros q. unfold Block_contents. rewrite deref_store.
    destruct (decide (q = NULL)) as [->|?]; [by rewrite deref_NULL|].
    destruct (decide (b = q)) as [<-|?]; [by rewrite Hb|done].
  - intros q e Hq He. rewrite deref_store_ne; [done|].
    intros <-. rewrite Hb in Hq. by injection Hq as <-.
Qed.

Lemma set_Block_transition_frame this j s s' :
  set_Block_transition this j s = Some s' →
  Block_transition s' this = Some j ∧
  (∀ q, q ≠ this → Block_transition s' q = Block_transition s q) ∧
  (∀ q, Block_contents s' q = Block_contents s q) ∧
  (∀ q e, deref s q = Some e → variant e ≠ ir_Block → deref s' q = Some e) ∧
  released s' = released s.
Proof.
  intros (t & n & preds & c & Hthis & ->)%set_Block_transition_inv.
  pose proof (deref_Some_nonnull _ _ _ Hthis) as Hnn.
  split; [|split; [|split; [|split; [|done]]]].
  - unfold Block_transition. by rewrite deref_store_eq.
  - intros q Hq. unfold Block_transition. by rewrite deref_store_ne.
  - intros q. unfold Block_contents. rewrite deref_store.
    destruct (decide (q = NULL)) as [->|?]; [by rewrite deref_NULL|].
    destruct (decide (this = q)) as [<-|?]; [by rewrite Hthis|done].
  - intros q e Hq He. rewrite deref_store_ne; [done|].
    intros <-. rewrite Hthis in Hq. by injection Hq as <-.
Qed.

Lemma names_destination_JumpAlways s p t d q :
  Block_transition s p = Some t → deref s t = Some (JumpAlways d) →
  names_destination s p q ↔ q = d.
Proof.
  intros Ht Hj. pose proof (deref_Some_nonnull _ _ _ Hj).
  unfold names_destination, destinations. rewrite Ht; simpl.
  rewrite decide_False, Hj by done. simpl. split.
  - by intros (ds & [= <-] & ->%list_elem_of_singleton).
  - intros ->. exists [d]. split; [done|]. by apply list_elem_of_singleton.
Qed.

Lemma names_destination_JumpCond s p t y n c q :
  Block_transition s p = Some t → deref s t = Some (JumpCond y n c) →
  names_destination s p q ↔ q = y ∨ q = n.
Proof.
  intros Ht Hj. pose proof (deref_Some_nonnull _ _ _ Hj).
  unfold names_destination, destinations. rewrite Ht; simpl.
  rewrite decide_False, Hj by done. simpl. split.
  - intros (ds & [= <-] & Hin). set_solver.
  - intros Hq. exists [y; n]. split; [done|]. set_solver.
Qed.

Lemma names_destination_terminal s p q :
  Block_transition s p = Some NULL → ¬ names_destination s p q.
Proof.
  intros Ht (ds & Hds & Hin). unfold destinations in Hds.
  rewrite Ht in Hds. simpl in Hds. injection Hds as <-.
  by apply elem_of_nil in Hin.
Qed.

Section linkage.
Context (s s' : State) (this x : ptr).

Lemma link_edges :
  link this x s = Some s' →
  ∀ q p, has_predecessor s' q p ↔
         has_predecessor s q p ∨ (p = this ∧ names_destination s' this q).
Proof.
  unfold link. intros Hrun q p.
  destruct (Block_transition s this) as [t|]; [|done]. simpl in Hrun.
  destruct (if decide (t = NULL) then Some s else delete_Jump t s)
    as [s1|] eqn:Hs1; [|done].
  simpl in Hrun. unfold new in Hrun.
  destruct (new_address_fresh s1) as (Hj_nn & Hj_free & _).
  set (j := new_address s1) in *.
  set (s2 := store j (JumpAlways x) s1) in *.
  destruct (set_Block_transition this j s2) as [s3|] eqn:Hs3; [|done].
  simpl in Hrun.
  rewrite (addPredecessor_predecessors _ _ _ _ _ _ Hrun).
  rewrite (set_Block_transition_predecessors _ _ _ _ _ _ Hs3).
  rewrite (same_fields_predecessors s1 s2) by (intros b; apply new_fields; done).
  rewrite (same_fields_predecessors s s1)
    by by apply (release_prior_fields t).
  destruct (set_Block_transition_frame _ _ _ _ Hs3) as (Ht3 & _ & _ & Hk3 & _).
  destruct (addPredecessor_frame _ _ _ _ Hrun) as (Ht4 & _ & Hk4 & _).
  assert (deref s' j = Some (JumpAlways x)) as Hj.
  { apply Hk4; [|done]. apply Hk3; [|done].
    unfold s2. by rewrite deref_store_eq. }
  rewrite (names_destination_JumpAlways s' this j x q);
    [naive_solver|by rewrite Ht4|done].
Qed.

Lemma link_cond_edges :
  link_cond this x s = Some s' →
  ∀ q p, has_predecessor s' q p ↔
         has_predecessor s q p ∨ (p = this ∧ names_destination s' this q).
Proof.
  unfold link_cond. intros Hrun q p.
  destruct (Block_transition s this) as [t|]; [|done]. simpl in Hrun.
  destruct (if decide (t = NULL) then Some s else delete_Jump t s)
    as [s1|] eqn:Hs1; [|done].
  simpl in Hrun.
  destruct (set_Block_transition this x s1) as [s2|] eqn:Hs2; [|done].
  simpl in Hrun.
  destruct (JumpCond_yes s2 x) as [y|] eqn:Hy; [|done]. simpl in Hrun.
  destruct (addPredecessor y this s2) as [s3|] eqn:Hs3; [|done].
  simpl in Hrun.
  destruct (JumpCond_no s3 x) as [n|] eqn:Hn; [|done]. simpl in Hrun.
  rewrite (addPredecessor_predecessors _ _ _ _ _ _ Hrun).
  rewrite (addPredecessor_predecessors _ _ _ _ _ _ Hs3).
  rewrite (set_Block_transition_predecessors _ _ _ _ _ _ Hs2).
  rewrite (same_fields_predecessors s s1)
    by by apply (release_prior_fields t).
  destruct (set_Block_transition_frame _ _ _ _ Hs2) as (Ht2 & _ & _ & _ & _).
  destruct (addPredecessor_frame _ _ _ _ Hs3) as (Ht3 & _ & Hk3 & _).
  destruct (addPredecessor_frame _ _ _ _ Hrun) as (Ht4 & _ & Hk4 & _).
  unfold JumpCond_yes in Hy. unfold JumpCond_no in Hn.
  destruct (deref s2 x) as [e|] eqn:Hx2; [|done]. simpl in Hy.
  destruct e as [| | | | | | | | | | | | | |y0 n0 c| |]; try done.
  injection Hy as ->.
  rewrite (Hk3 _ _ Hx2) in Hn by done. simpl in Hn. injection Hn as ->.
  assert (deref s' x = Some (JumpCond y n c)) as Hx.
  { apply Hk4; [|done]. by apply Hk3. }
  rewrite (names_destination_JumpCond s' this x y n c q);
    [naive_solver|by rewrite Ht4, Ht3|done].
Qed.

Lemma setTransition_edges :
  setTransition this x s = Some s' →
  ∀ q p, has_predecessor s' q p ↔
         has_predecessor s q p ∨ (p = this ∧ names_destination s' this q).
Proof.
  unfold setTransition. intros Hrun q p.
  destruct (set_Block_transition this x s) as [s1|] eqn:Hs1; [|done].
  simpl in Hrun.
  destruct (set_Block_transition_frame _ _ _ _ Hs1) as (Ht1 & _ & _ & _ & _).
  destruct (decide (x = NULL)) as [->|Hx].
  { injection Hrun as <-.
    rewrite (set_Block_transition_predecessors _ _ _ _ _ _ Hs1).
    pose proof (names_destination_terminal s1 this q Ht1). naive_solver. }
  unfold call_is, call_as in Hrun.
  destruct (deref s1 x) as [e|] eqn:Hx1; [|done]. simpl in Hrun.
  destruct (is_ (vtable_of e x) ir_JumpAlways) eqn:Hkind.
  - (* jmp->isJumpAlways() *)
    unfold JumpAlways_destination in Hrun.
    destruct e; try done. simpl in Hrun. rewrite Hx1 in Hrun.
    simpl in Hrun.
    rewrite (addPredecessor_predecessors _ _ _ _ _ _ Hrun).
    rewrite (set_Block_transition_predecessors _ _ _ _ _ _ Hs1).
    destruct (addPredecessor_frame _ _ _ _ Hrun) as (Ht2 & _ & Hk2 & _).
    rewrite (names_destination_JumpAlways s' this x destination q);
      [naive_solver|by rewrite Ht2|by apply Hk2].
  - unfold JumpCond_yes, JumpCond_no in Hrun.
    destruct e; try done; simpl in Hrun;
      try (by rewrite deref_NULL in Hrun).
    rewrite Hx1 in Hrun. simpl in Hrun.
    destruct (addPredecessor yes this s1) as [s2|] eqn:Hs2; [|done].
    simpl in Hrun.
    destruct (addPredecessor_frame _ _ _ _ Hs2) as (Ht2 & _ & Hk2 & _).
    rewrite (Hk2 _ _ Hx1) in Hrun by done. simpl in Hrun.
    rewrite (Hk2 _ _ Hx1) in Hrun by done. simpl in Hrun.
    rewrite (addPredecessor_predecessors _ _ _ _ _ _ Hrun).
    rewrite (addPredecessor_predecessors _ _ _ _ _ _ Hs2).
    rewrite (set_Block_transition_predecessors _ _ _ _ _ _ Hs1).
    destruct (addPredecessor_frame _ _ _ _ Hrun) as (Ht3 & _ & Hk3 & _).
    rewrite (names_destination_JumpCond s' this x yes no condition q);
      [naive_solver|by rewrite Ht3, Ht2|].
    apply Hk3; [|done]. by apply Hk2.
Qed.
End linkage.

(** X2.  Whenever [link(next)], [link(cond)] or [setTransition(jmp)]
    returns, the predecessor index of the store is the one before the
    call together with one entry per destination of the block's new jump:
    no predecessor is ever removed by these methods, whatever the block
    jumped to before. *)
Theorem linkage_adds_new_edges s s' this x :
  link this x s = Some s' ∨ link_cond this x s = Some s' ∨
    setTransition this x s = Some s' →
  ∀ q p, has_predecessor s' q p ↔
         has_predecessor s q p ∨ (p = this ∧ names_destination s' this q).
Proof.
  intros [H|[H|H]].
  - by apply (link_edges s s' this x).
  - by apply (link_cond_edges s s' this x).
  - by apply (setTransition_edges s s' this x).
Qed.

Lemma linkage_adds_new_edges_witness :
  ∃ s', link 1 3 relinkable = Some s' ∧
        has_predecessor s' 2 1 ∧ has_predecessor s' 3 1 ∧
        ¬ names_destination s' 1 2.
Proof.
  destruct (link 1 3 relinkable) as [s'|] eqn:Hrun; [|by vm_compute in Hrun].
  exists s'. split; [done|].
  pose proof (linkage_adds_new_edges relinkable s' 1 3 (or_introl Hrun))
    as Hedges.
  assert (names_destination s' 1 3 ∧ ¬ names_destination s' 1 2) as [H3 H2].
  { vm_compute in Hrun. injection Hrun as <-.
    split; [by apply names_destinationb_spec|].
    by intros ?%names_destinationb_spec. }
  split; [|split; [|done]].
  - apply Hedges. left. by apply has_predecessorb_spec.
  - apply Hedges. by right.
Defined.

Lemma isEntry_false s b :
  isEntry b s = Some false ↔ ∃ p, has_predecessor s b p.
Proof.
  unfold isEntry, has_predecessor.
  destruct (Block_predecessors s b) as [preds|]; simpl; [|naive_solver].
  split.
  - intros [= Hsize]. apply bool_decide_eq_false in Hsize.
    destruct (set_choose_or_empty preds) as [[p Hp]|Hempty].
    + by exists p, preds.
    + destruct Hsize. by apply size_empty_iff.
  - intros (p & preds' & [= <-] & Hp). f_equal.
    apply bool_decide_eq_false. intros Hsize%size_empty_iff. set_solver.
Qed.

(** X3.  Under the linkage methods [isEntry()] can only go from true to
    false: a block that was not an entry stays a non-entry (also the
    block whose only incoming edge the call has just redirected), and
    every destination of the new jump is a non-entry. *)
Theorem isEntry_after_linkage s s' this x :
  link this x s = Some s' ∨ link_cond this x s = Some s' ∨
    setTransition this x s = Some s' →
  (∀ b, isEntry b s = Some false → isEntry b s' = Some false) ∧
  (∀ q, names_destination s' this q → isEntry q s' = Some false).
Proof.
  intros Hrun.
  assert (∀ q p, has_predecessor s' q p ↔
                 has_predecessor s q p ∨
                 (p = this ∧ names_destination s' this q)) as Hedges.
  { destruct Hrun as [H|[H|H]].
    - by apply (link_edges s s' this x).
    - by apply (link_cond_edges s s' this x).
    - by apply (setTransition_edges s s' this x). }
  split.
  - intros b (p & Hp)%isEntry_false. apply isEntry_false. exists p.
    apply Hedges. by left.
  - intros q Hq. apply isEntry_false. exists this. apply Hedges. by right.
Qed.

Lemma isEntry_after_linkage_witness :
  ∃ s', link 1 3 relinkable = Some s' ∧
        isEntry 2 s' = Some false ∧ isEntry 3 s' = Some false ∧
        destinations s' 1 = Some [3%N].
Proof.
  destruct (link 1 3 relinkable) as [s'|] eqn:Hrun; [|by vm_compute in Hrun].
  exists s'. split; [done|].
  destruct (isEntry_after_linkage relinkable s' 1 3 (or_introl Hrun))
    as [Hkeep Hnew].
  assert (destinations s' 1 = Some [3%N]) as Hd.
  { vm_compute in Hrun. by injection Hrun as <-. }
  split; [by apply Hkeep|]. split; [|done].
  apply Hnew. exists [3%N]. split; [done|]. by apply list_elem_of_singleton.
Defined.

Lemma setTransition_frame s s' this jmp :
  setTransition this jmp s = Some s' →
  Block_transition s' this = Some jmp ∧
  released s' = released s ∧
  (∀ q e, deref s q = Some e → variant e ≠ ir_Block → deref s' q = Some e) ∧
  (∀ q, Block_contents s' q = Block_contents s q).
Proof.
  unfold setTransition. intros Hrun.
  destruct (set_Block_transition this jmp s) as [s1|] eqn:Hs1; [|done].
  simpl in Hrun.
  destruct (set_Block_transition_frame _ _ _ _ Hs1)
    as (Ht1 & _ & Hc1 & Hk1 & Hr1).
  destruct (decide (jmp = NULL)) as [->|Hx]; [by injection Hrun as <-|].
  unfold call_is, call_as, JumpAlways_destination, JumpCond_yes, JumpCond_no
    in Hrun.
  destruct (deref s1 jmp) as [e|] eqn:Hx1; [|done]. simpl in Hrun.
  destruct e; try done; simpl in Hrun; try (by rewrite deref_NULL in Hrun);
    rewrite Hx1 in Hrun; simpl in Hrun.
  - (* JumpAlways *)
    destruct (addPredecessor_frame _ _ _ _ Hrun) as (Ht2 & Hc2 & Hk2 & Hr2).
    split; [by rewrite Ht2|]. split; [congruence|].
    split; [|intros q; by rewrite Hc2].
    intros q e Hq He. apply Hk2; [|done]. by apply Hk1.
  - (* JumpCond *)
    destruct (addPredecessor yes this s1) as [s2|] eqn:Hs2; [|done].
    simpl in Hrun.
    destruct (addPredecessor_frame _ _ _ _ Hs2) as (Ht2 & Hc2 & Hk2 & Hr2).
    rewrite (Hk2 _ _ Hx1) in Hrun by done. simpl in Hrun.
    rewrite (Hk2 _ _ Hx1) in Hrun by done. simpl in Hrun.
    destruct (addPredecessor_frame _ _ _ _ Hrun) as (Ht3 & Hc3 & Hk3 & Hr3).
    split; [by rewrite Ht3, Ht2|]. split; [congruence|].
    split; [|intros q; by rewrite Hc3, Hc2].
    intros q e Hq He. apply Hk3; [|done]. apply Hk2; [|done]. by apply Hk1.
Qed.

(** X4.  [setTransition(jmp)] installs [jmp] and deallocates nothing: the
    release log is unchanged and every object other than a block stays in
    the store as it was, so the Jump the block held before the call is
    still allocated afterwards. *)
Theorem setTransition_keeps_prior_jump s s' this jmp :
  setTransition this jmp s = Some s' →
  getTransition this s' = Some jmp ∧
  released s' = released s ∧
  (∀ q e, deref s q = Some e → variant e ≠ ir_Block → deref s' q = Some e) ∧
  (∀ q, Block_contents s' q = Block_contents s q).
Proof. apply setTransition_frame. Qed.

Lemma setTransition_keeps_prior_jump_witness :
  ∃ s', setTransition 1 4 two_jumps = Some s' ∧
        getTransition 1 s' = Some 4%N ∧
        released s' = [] ∧
        deref s' 3 = Some (JumpAlways 2).
Proof.
  destruct (setTransition 1 4 two_jumps) as [s'|] eqn:Hrun;
    [|by vm_compute in Hrun].
  exists s'. split; [done|].
  destruct (setTransition_keeps_prior_jump two_jumps s' 1 4 Hrun)
    as (Ht & Hr & Hk & _).
  split; [done|]. split; [done|]. by apply Hk.
Defined.

(** ** The predecessor set *)

Lemma store_store p e1 e2 s : store p e2 (store p e1 s) = store p e2 s.
Proof. unfold store; simpl. f_equal. apply insert_insert_eq. Qed.

(** X5.  [predecessors] is a set: registering a block that is already a
    predecessor changes nothing, erasing one that is not a predecessor
    changes nothing, and registering an absent block and erasing it again
    gives the store back; whatever was there before, add-then-remove
    leaves the block out and remove-then-add leaves it in. *)
Theorem predecessor_insert_erase s b t n preds c p :
  deref s b = Some (Block t n preds c) →
  (s1 ← addPredecessor b p s; removePredecessor b p s1)
    = Some (store b (Block t n (preds ∖ {[p]}) c) s) ∧
  (s1 ← removePredecessor b p s; addPredecessor b p s1)
    = Some (store b (Block t n ({[p]} ∪ preds) c) s) ∧
  (p ∈ preds → addPredecessor b p s = Some s) ∧
  (p ∉ preds →
     removePredecessor b p s = Some s ∧
     (s1 ← addPredecessor b p s; removePredecessor b p s1) = Some s).
Proof.
  intros Hb. pose proof (deref_Some_nonnull _ _ _ Hb) as Hnn.
  assert ((s1 ← addPredecessor b p s; removePredecessor b p s1)
          = Some (store b (Block t n (preds ∖ {[p]}) c) s)) as Hadd_rem.
  { rewrite (addPredecessor_eq _ _ _ _ _ _ Hb). simpl.
    erewrite removePredecessor_eq by by apply deref_store_eq.
    rewrite store_store. do 3 f_equal. set_solver. }
  split; [done|]. split; [|split].
  - rewrite (removePredecessor_eq _ _ _ _ _ _ Hb). simpl.
    erewrite addPredecessor_eq by by apply deref_store_eq.
    rewrite store_store. do 3 f_equal. clear. apply set_eq. intros x.
    destruct (decide (x = p)); set_solver.
  - intros Hin. rewrite (addPredecessor_eq _ _ _ _ _ _ Hb).
    f_equal. apply store_id. rewrite Hb. do 2 f_equal. set_solver.
  - intros Hnotin.
    assert (store b (Block t n (preds ∖ {[p]}) c) s = s) as Hid.
    { apply store_id. rewrite Hb. do 2 f_equal. set_solver. }
    split; [|by rewrite Hadd_rem, Hid].
    rewrite (removePredecessor_eq _ _ _ _ _ _ Hb). by rewrite Hid.
Qed.

Lemma predecessor_insert_erase_witness :
  addPredecessor 2 1 relinkable = Some relinkable ∧
  removePredecessor 3 1 relinkable = Some relinkable ∧
  (s1 ← addPredecessor 3 1 relinkable; removePredecessor 3 1 s1)
    = Some relinkable.
Proof.
  destruct (predecessor_insert_erase relinkable 2 NULL "A" {[1%N]} [] 1%N
              eq_refl) as (_ & _ & Hin & _).
  destruct (predecessor_insert_erase relinkable 3 NULL "B" ∅ [] 1%N
              eq_refl) as (_ & _ & _ & Hout).
  split; [apply Hin; set_solver|].
  apply Hout. set_solver.
Defined.

(** ** Hazards of [link] with a [JumpCond] *)

Lemma free_gone p s s' : free p s = Some s' → deref s' p = None.
Proof.
  intros (e & _ & ->)%free_inv. rewrite deref_delete. by rewrite decide_True.
Qed.

Lemma free_dead p s s' q : free p s = Some s' → deref s q = None → deref s' q = None.
Proof.
  intros (e & _ & ->)%free_inv Hq. rewrite deref_delete. by case_decide.
Qed.

Lemma set_Block_transition_dead this j s s' q :
  set_Block_transition this j s = Some s' →
  deref s q = None → deref s' q = None.
Proof.
  intros (t & n & preds & c & Hthis & ->)%set_Block_transition_inv Hq.
  rewrite deref_store_ne; [done|]. intros <-. congruence.
Qed.

Lemma addPredecessor_dead b x s s' q :
  addPredecessor b x s = Some s' → deref s q = None → deref s' q = None.
Proof.
  intros (t & n & preds & c & Hb & ->)%addPredecessor_inv Hq.
  rewrite deref_store_ne; [done|]. intros <-. congruence.
Qed.

(** X6.  Handing a block the Jump it already holds is undefined:
    [link(cond)] deletes the installed transition first and then reads
    [cond->yes] from the deleted object. *)
Theorem link_cond_installed_jump_undefined s this t n preds c :
  deref s this = Some (Block t n preds c) → t ≠ NULL →
  link_cond this t s = None.
Proof.
  intros Hthis Ht. unfold link_cond.
  rewrite (Block_transition_eq _ _ _ _ _ _ Hthis); simpl.
  rewrite decide_False by done.
  destruct (delete_Jump t s) as [s1|] eqn:Hs1; [|done]. simpl.
  assert (deref s1 t = None ∧ this ≠ t) as [Ht1 Hne].
  { destruct (delete_Jump_inv _ _ _ Hs1 Ht)
      as [(d & Hd & Hfree)|(y & no & cnd & sa & Hd & _ & Hfree)];
      (split; [by eapply free_gone|intros <-; congruence]). }
  destruct (set_Block_transition this t s1) as [s2|] eqn:Hs2; [|done].
  simpl. unfold JumpCond_yes.
  by rewrite (set_Block_transition_dead _ _ _ _ _ Hs2 Ht1).
Qed.

Lemma link_cond_installed_jump_undefined_witness :
  link_cond 1 4 branch = None.
Proof.
  by apply (link_cond_installed_jump_undefined branch 1 4 "P" ∅ [] eq_refl).
Defined.

Lemma is_Block_store_Block s p t n preds c q :
  p ≠ NULL → is_Block s q → is_Block (store p (Block t n preds c) s) q.
Proof.
  intros Hp (qt & qn & qp & qc & Hq). unfold is_Block.
  destruct (decide (p = q)) as [<-|Hne].
  - rewrite deref_store_eq by done. by eexists _, _, _, _.
  - rewrite deref_store_ne by done. by eexists _, _, _, _.
Qed.

Lemma addPredecessor_defined b x s :
  is_Block s b → ∃ s', addPredecessor b x s = Some s'.
Proof.
  intros (t & n & preds & c & Hb). eexists. by eapply addPredecessor_eq.
Qed.

Lemma addPredecessor_is_Block b x s s' q :
  addPredecessor b x s = Some s' → is_Block s q → is_Block s' q.
Proof.
  intros (t & n & preds & c & Hb & ->)%addPredecessor_inv.
  apply is_Block_store_Block. by eapply deref_Some_nonnull.
Qed.

Lemma delete_Jump_dangling_condition s j y n c :
  deref s j = Some (JumpCond y n c) → c ≠ NULL → deref s c = None →
  delete_Jump j s = None.
Proof.
  intros Hj Hc Hdead. pose proof (deref_Some_nonnull _ _ _ Hj).
  unfold delete_Jump. rewrite decide_False, Hj by done. simpl.
  unfold delete_Statement. rewrite decide_False, Hj by done. simpl.
  unfold delete_Atom. by rewrite decide_False, Hdead by done.
Qed.

(** X7.  [link(cond)] deletes the condition of the conditional Jump it
    replaces.  When [cond] was built on the same condition object (an
    edited copy of the installed Jump), the block ends up with a
    transition whose condition is deallocated, and deleting that
    transition later is a double delete. *)
Theorem link_cond_shared_condition s this t n preds c y0 n0 cnd cond y no :
  deref s this = Some (Block t n preds c) →
  deref s t = Some (JumpCond y0 n0 cnd) →
  cnd ≠ NULL → wt_Atom s cnd = true →
  deref s cond = Some (JumpCond y no cnd) → cond ≠ t →
  is_Block s y → is_Block s no →
  ∃ s', link_cond this cond s = Some s' ∧
        getTransition this s' = Some cond ∧
        deref s' cond = Some (JumpCond y no cnd) ∧
        deref s' cnd = None ∧
        delete_Jump cond s' = None.
Proof.
  intros Hthis Ht Hcnd Hwt Hcond Hne Hy Hno.
  pose proof (deref_Some_nonnull _ _ _ Ht) as Ht_nn.
  pose proof (deref_Some_nonnull _ _ _ Hcond) as Hcond_nn.
  pose proof (deref_Some_nonnull _ _ _ Hthis) as Hthis_nn.
  assert (deletable_Jump s t) as Hdel.
  { right. exists y0, n0, cnd. split; [done|]. right.
    unfold wt_Atom, is_Atomb in Hwt.
    rewrite bool_decide_eq_false_2 in Hwt by done. simpl in Hwt.
    destruct (deref s cnd) as [a|]; [|done]. by exists a. }
  destruct (release_prior s t (or_intror Hdel))
    as (s1 & Hs1 & Hkeep & _ & _ & _).
  assert (deref s1 cnd = None) as Hcnd1.
  { rewrite decide_False in Hs1 by done.
    destruct (delete_Jump_inv _ _ _ Hs1 Ht_nn)
      as [(d & Hd & _)|(y' & n' & c' & sa & Hd & Hc & Hfree)];
      [congruence|].
    rewrite Ht in Hd. injection Hd as <- <- <-.
    eapply free_dead; [done|].
    destruct (delete_Atom_inv _ _ _ Hc) as [[? _]|(_ & _ & _ & _ & Hfa)];
      [done|by eapply free_gone]. }
  assert (this ≠ t) as Hthis_t by (intros <-; congruence).
  pose proof (Hkeep _ _ Hthis eq_refl Hthis_t) as Hthis1.
  pose proof (Hkeep _ _ Hcond eq_refl Hne) as Hcond1.
  assert (is_Block s1 y ∧ is_Block s1 no) as [Hy1 Hno1].
  { destruct Hy as (? & ? & ? & ? & Hy), Hno as (? & ? & ? & ? & Hno).
    split; eexists _, _, _, _; (apply Hkeep; [done..|]);
      intros <-; congruence. }
  unfold link_cond. rewrite (Block_transition_eq _ _ _ _ _ _ Hthis); simpl.
  rewrite Hs1; simpl.
  destruct (set_Block_transition this cond s1) as [s2|] eqn:Hs2;
    [|by rewrite (set_Block_transition_eq _ _ _ _ _ _ Hthis1) in Hs2].
  simpl.
  destruct (set_Block_transition_frame _ _ _ _ Hs2) as (Ht2 & _ & _ & Hk2 & _).
  pose proof (Hk2 _ _ Hcond1 ltac:(done)) as Hcond2.
  unfold JumpCond_yes. rewrite Hcond2; simpl.
  assert (is_Block s2 y ∧ is_Block s2 no) as [Hy2 Hno2].
  { apply set_Block_transition_inv in Hs2
      as (? & ? & ? & ? & _ & ->).
    split; by apply is_Block_store_Block. }
  destruct (addPredecessor_defined y this s2 Hy2) as (s3 & Hs3).
  rewrite Hs3; simpl.
  destruct (addPredecessor_frame _ _ _ _ Hs3) as (Ht3 & _ & Hk3 & _).
  pose proof (Hk3 _ _ Hcond2 ltac:(done)) as Hcond3.
  unfold JumpCond_no. rewrite Hcond3; simpl.
  destruct (addPredecessor_defined no this s3) as (s4 & Hs4);
    [by eapply addPredecessor_is_Block|].
  destruct (addPredecessor_frame _ _ _ _ Hs4) as (Ht4 & _ & Hk4 & _).
  pose proof (Hk4 _ _ Hcond3 ltac:(done)) as Hcond4.
  assert (deref s4 cnd = None) as Hcnd4.
  { eapply addPredecessor_dead; [done|].
    eapply addPredecessor_dead; [done|].
    by eapply set_Block_transition_dead. }
  exists s4. split; [done|].
  split; [unfold getTransition; by rewrite Ht4, Ht3|].
  split; [done|]. split; [done|].
  by eapply delete_Jump_dangling_condition.
Qed.

Lemma link_cond_shared_condition_witness :
  ∃ s', link_cond 1 7 shared_condition = Some s' ∧
        getTransition 1 s' = Some 7%N ∧
        deref s' 7 = Some (JumpCond 6 3 5) ∧
        deref s' 5 = None ∧
        delete_Jump 7 s' = None.
Proof.
  apply (link_cond_shared_condition shared_condition 1 4 "P" ∅ [] 2 3 5 7 6 3
           eq_refl eq_refl); [done|done|done|done|by eexists _, _, _, _..].
Defined.

(** ** What [~Block] reaches *)

Lemma Atom_not_Block s a : wt_Atom s a = true → a ≠ NULL → ¬ is_Block s a.
Proof.
  unfold wt_Atom, is_Atomb. intros Hwt Ha (t & n & preds & c & Hd).
  rewrite bool_decide_eq_false_2, Hd in Hwt by done. done.
Qed.

Lemma Variable_not_Block s a :
  wt_Variable s a = true → a ≠ NULL → ¬ is_Block s a.
Proof.
  unfold wt_Variable, is_Variableb. intros Hwt Ha (t & n & preds & c & Hd).
  rewrite bool_decide_eq_false_2, Hd in Hwt by done. done.
Qed.

Lemma Atoms_not_Block s ps q :
  forallb (wt_Atom s) ps = true →
  q ∈ concat (Atom_footprint s <$> ps) → ¬ is_Block s q.
Proof.
  intros Hwt (l & (a & -> & Ha)%list_elem_of_fmap & [-> Hnn]%nonnull_elem)
    %elem_of_concat.
  apply Atom_not_Block; [|done]. by eapply forallb_elem.
Qed.

Lemma Variables_not_Block s ps q :
  forallb (wt_Variable s) ps = true →
  q ∈ concat (Atom_footprint s <$> ps) → ¬ is_Block s q.
Proof.
  intros Hwt (l & (a & -> & Ha)%list_elem_of_fmap & [-> Hnn]%nonnull_elem)
    %elem_of_concat.
  apply Variable_not_Block; [|done]. by eapply forallb_elem.
Qed.

Lemma Expression_not_Block s p q :
  wt_Expression s p = true → q ∈ Expression_footprint s p → ¬ is_Block s q.
Proof.
  unfold wt_Expression, Expression_footprint.
  case_decide as Hnull; [by intros _ ?%elem_of_nil|].
  rewrite bool_decide_eq_false_2 by done; simpl.
  destruct (deref s p) as [e|] eqn:Hp; [|done].
  assert (variant e ≠ ir_Block → ¬ is_Block s p) as Hself.
  { intros He (t & n & preds & c & Hd). rewrite Hp in Hd.
    by injection Hd as ->. }
  destruct e; simpl; try done; intros Hwt Hq;
    try (apply list_elem_of_singleton in Hq as ->; by apply Hself).
  - apply andb_prop in Hwt as [Hl Hr].
    apply elem_of_app in Hq as [[-> ?]%nonnull_elem|Hq];
      [by apply Atom_not_Block|].
    apply elem_of_app in Hq as [[-> ?]%nonnull_elem|Hq];
      [by apply Atom_not_Block|].
    apply list_elem_of_singleton in Hq as ->. by apply Hself.
  - apply elem_of_app in Hq as [[-> ?]%nonnull_elem|Hq];
      [by apply Atom_not_Block|].
    apply list_elem_of_singleton in Hq as ->. by apply Hself.
  - apply elem_of_app in Hq as [Hq|Hq]; [by eapply Atoms_not_Block|].
    apply list_elem_of_singleton in Hq as ->. by apply Hself.
Qed.

Lemma Statement_not_Block s p q :
  wt_Statement s p = true → q ∈ Statement_footprint s p → ¬ is_Block s q.
Proof.
  unfold wt_Statement, Statement_footprint.
  case_decide as Hnull; [by intros _ ?%elem_of_nil|].
  rewrite bool_decide_eq_false_2 by done; simpl.
  destruct (deref s p) as [e|] eqn:Hp; [|done].
  assert (variant e ≠ ir_Block → ¬ is_Block s p) as Hself.
  { intros He (t & n & preds & c & Hd). rewrite Hp in Hd.
    by injection Hd as ->. }
  assert (∀ a, wt_Atom s a = true → variant e ≠ ir_Block →
               q ∈ nonnull a ++ [p] → ¬ is_Block s q) as Hone.
  { intros a Ha He [[-> ?]%nonnull_elem| ->%list_elem_of_singleton]%elem_of_app;
      [by apply Atom_not_Block|by apply Hself]. }
  destruct e; simpl; try done; intros Hwt Hq;
    try (by eapply Hone).
  - (* Phi *)
    apply andb_prop in Hwt as [Hv Hvs].
    apply elem_of_app in Hq as [[-> ?]%nonnull_elem|Hq];
      [by apply Variable_not_Block|].
    apply elem_of_app in Hq as [Hq|Hq]; [by eapply Variables_not_Block|].
    apply list_elem_of_singleton in Hq as ->. by apply Hself.
  - (* Assignment *)
    apply andb_prop in Hwt as [Hv Hx].
    apply elem_of_app in Hq as [[-> ?]%nonnull_elem|Hq];
      [by apply Variable_not_Block|].
    apply elem_of_app in Hq as [Hq|Hq]; [by eapply Expression_not_Block|].
    apply list_elem_of_singleton in Hq as ->. by apply Hself.
  - (* JumpAlways *)
    apply list_elem_of_singleton in Hq as ->. by apply Hself.
Qed.

Lemma Block_footprint_blocks s p t n preds c q :
  deref s p = Some (Block t n preds c) → wt_Block s p = true →
  q ∈ Block_footprint s p → is_Block s q → q = p.
Proof.
  intros Hp Hwt Hq Hblock. pose proof (deref_Some_nonnull _ _ _ Hp) as Hnn.
  unfold wt_Block, Block_footprint in *.
  rewrite decide_False, Hp in Hq by done.
  rewrite bool_decide_eq_false_2, Hp in Hwt by done. simpl in Hwt.
  apply andb_prop in Hwt as [Hc Ht].
  apply elem_of_app in Hq as [Hq|Hq].
  { apply elem_of_concat in Hq
      as (l & (st & -> & Hst)%list_elem_of_fmap & Hq).
    destruct (Statement_not_Block s st q); [by eapply forallb_elem|done..]. }
  apply elem_of_app in Hq as [Hq|Hq].
  { destruct (Statement_not_Block s t q);
      [by apply wt_Jump_Statement|done..]. }
  by apply list_elem_of_singleton in Hq.
Qed.

(** X8.  [~Block] on a block whose statements and transition are
    well-typed and unshared returns; it deallocates the block, each of
    its statements and its transition, and no other block: the blocks it
    jumped to stay in the store, and they keep the deleted block among
    their predecessors. *)
Theorem Block_destructor_scope s p t n preds c :
  deref s p = Some (Block t n preds c) →
  wt_Block s p = true → NoDup (Block_footprint s p) →
  ∃ s', delete_Block p s = Some s' ∧
        deref s' p = None ∧
        (∀ st, st ∈ c → st ≠ NULL → deref s' st = None ∧ st ∈ released s') ∧
        (t ≠ NULL → deref s' t = None ∧ t ∈ released s') ∧
        (∀ b, b ≠ p → is_Block s b → deref s' b = deref s b) ∧
        (∀ b, b ≠ p → has_predecessor s b p → has_predecessor s' b p).
Proof.
  intros Hp Hwt Hnd. pose proof (deref_Some_nonnull _ _ _ Hp) as Hnn.
  destruct (delete_Block_footprint s p Hwt Hnd) as (s' & Hrun & Hd & Hr).
  exists s'. split; [done|].
  assert (∀ q, q ∈ Block_footprint s p →
               deref s' q = None ∧ q ∈ released s') as Hgone.
  { intros q Hq. split; [rewrite Hd; by rewrite decide_True|].
    rewrite Hr. apply elem_of_app. left. by apply elem_of_reverse. }
  assert (∀ b, b ≠ p → is_Block s b → deref s' b = deref s b) as Hkeep.
  { intros b Hb Hblock. rewrite Hd. rewrite decide_False; [done|].
    intros Hin. apply Hb. by eapply Block_footprint_blocks. }
  split; [by apply Hgone, Block_footprint_self|].
  split; [|split; [|split; [done|]]].
  - intros st Hst Hst_nn. apply Hgone. unfold Block_footprint.
    rewrite decide_False, Hp by done. apply elem_of_app. left.
    eapply (elem_of_concat_fmap (Statement_footprint s)); [done|].
    by apply Statement_footprint_self.
  - intros Ht. apply Hgone. by eapply Block_footprint_transition.
  - intros b Hb (ps & Hps & Hin). exists ps. split; [|done].
    unfold Block_predecessors in *. rewrite Hkeep; [done..|].
    destruct (deref s b) as [[]|] eqn:Hd_b; try done. by eexists _, _, _, _.
Qed.

Lemma Block_destructor_scope_witness :
  ∃ s', delete_Block 1 forwarding_print = Some s' ∧
        deref s' 1 = None ∧
        (∀ st, st ∈ [4%N] → st ≠ NULL →
               deref s' st = None ∧ st ∈ released s') ∧
        (3%N ≠ NULL → deref s' 3 = None ∧ 3%N ∈ released s') ∧
        (∀ b, b ≠ 1%N → is_Block forwarding_print b →
              deref s' b = deref forwarding_print b) ∧
        (∀ b, b ≠ 1%N → has_predecessor forwarding_print b 1 →
              has_predecessor s' b 1).
Proof.
  apply (Block_destructor_scope forwarding_print 1 3 "fwd" ∅ [4%N] eq_refl).
  - by vm_compute.
  - apply (bool_decide_unpack _). by vm_compute.
Defined.

(** ** Expression destructors need unshared operands *)

Lemma delete_Atom_run a s s' :
  delete_Atom a s = Some s' →
  removed s s' (Atom_footprint s a) ∧
  ∀ q, q ∈ Atom_footprint s a → is_Some (deref s q).
Proof.
  unfold Atom_footprint, nonnull.
  intros [[-> ->]|(Ha & e & He & _ & Hfree)]%delete_Atom_inv.
  - rewrite decide_True by done. split; [apply removed_nil|].
    by intros q ?%elem_of_nil.
  - rewrite decide_False by done. split; [by apply removed_free|].
    intros q ->%list_elem_of_singleton. by exists e.
Qed.

Lemma delete_Atoms_run ps s s' :
  delete_each delete_Atom ps s = Some s' →
  NoDup (concat (Atom_footprint s <$> ps)) ∧
  removed s s' (concat (Atom_footprint s <$> ps)) ∧
  ∀ q, q ∈ concat (Atom_footprint s <$> ps) → is_Some (deref s q).
Proof.
  revert s. induction ps as [|a ps IH]; intros s; csimpl.
  { intros [= <-]. split; [constructor|]. split; [apply removed_nil|].
    by intros q ?%elem_of_nil. }
  destruct (delete_Atom a s) as [s1|] eqn:Ha; [|done]. simpl.
  intros Hrun. destruct (delete_Atom_run _ _ _ Ha) as [Hrem1 Hlive1].
  destruct (IH s1 Hrun) as (Hnd & Hrem & Hlive).
  change (concat (Atom_footprint s1 <$> ps))
    with (concat (Atom_footprint s <$> ps)) in *.
  split; [|split].
  - apply NoDup_app. split; [|split; [|done]].
    + unfold Atom_footprint, nonnull. case_decide; [constructor|].
      apply NoDup_singleton.
    + intros q Hq Hq'. destruct (Hlive q Hq') as [e He].
      destruct Hrem1 as [Hd _]. rewrite Hd, decide_True in He by done.
      done.
  - by eapply removed_trans.
  - intros q [Hq|Hq]%elem_of_app; [by apply Hlive1|].
    destruct (Hlive q Hq) as [e He]. exists e.
    by eapply removed_deref_Some.
Qed.

Lemma delete_Atoms_then_free_run ps p s s' :
  (s1 ← delete_each delete_Atom ps s; free p s1) = Some s' →
  NoDup (concat (Atom_footprint s <$> ps) ++ [p]) ∧
  removed s s' (concat (Atom_footprint s <$> ps) ++ [p]).
Proof.
  destruct (delete_each delete_Atom ps s) as [s1|] eqn:Hps; [|done]. simpl.
  intros Hfree. destruct (delete_Atoms_run _ _ _ Hps) as (Hnd & Hrem & _).
  split.
  - apply NoDup_app. split; [done|]. split; [|apply NoDup_singleton].
    intros q Hq ->%list_elem_of_singleton.
    apply free_inv in Hfree as (e & He & _).
    destruct Hrem as [Hd _]. rewrite Hd, decide_True in He by done. done.
  - eapply removed_trans; [done|]. by apply removed_free.
Qed.

Lemma delete_Expression_run s s' p :
  delete_Expression p s = Some s' →
  NoDup (Expression_footprint s p) ∧
  removed s s' (Expression_footprint s p).
Proof.
  unfold delete_Expression, Expression_footprint.
  case_decide as Hnull.
  { intros [= <-]. split; [constructor|apply removed_nil]. }
  destruct (deref s p) as [e|] eqn:Hp; [|done]. simpl.
  assert (free p s = Some s' → NoDup [p] ∧ removed s s' [p]) as Hleaf.
  { intros Hfree. split; [apply NoDup_singleton|by apply removed_free]. }
  destruct e; try done; try exact Hleaf; intros Hrun.
  - (* BinOp *)
    destruct (delete_Atoms_then_free_run [left; right] p s s') as [Hnd Hrem].
    { simpl. destruct (delete_Atom left s); [|done]. simpl in *.
      by destruct (delete_Atom right _). }
    simpl in Hnd, Hrem. rewrite app_nil_r, <- (assoc_L (++)) in Hnd, Hrem.
    done.
  - (* UnOp *)
    destruct (delete_Atoms_then_free_run [operand] p s s') as [Hnd Hrem].
    { simpl. by destruct (delete_Atom operand s). }
    simpl in Hnd, Hrem. by rewrite app_nil_r in Hnd, Hrem.
  - (* Call *)
    by apply delete_Atoms_then_free_run.
Qed.

(** [~BinOp] on [BinOp(a, a)] deletes [a] twice. *)
Lemma delete_Expression_shared_operand s p a ty :
  deref s p = Some (BinOp a a ty) → a ≠ NULL → delete_Expression p s = None.
Proof.
  intros Hp Ha. destruct (delete_Expression p s) as [s'|] eqn:Hrun; [|done].
  pose proof (deref_Some_nonnull _ _ _ Hp).
  destruct (delete_Expression_run s s' p Hrun) as [Hnd _].
  unfold Expression_footprint in Hnd. rewrite decide_False, Hp in Hnd by done.
  unfold nonnull in Hnd. rewrite decide_False in Hnd by done.
  apply NoDup_cons in Hnd as [Hnotin _]. destruct Hnotin. set_solver.
Qed.

(** X9.  Whenever [delete] on an expression returns, it has deallocated
    the expression and its non-null operands, each once, and these were
    pairwise distinct objects: an expression that names one operand
    object twice cannot be deleted. *)
Theorem delete_Expression_unshared s s' p :
  delete_Expression p s = Some s' →
  NoDup (Expression_footprint s p) ∧
  removed s s' (Expression_footprint s p) ∧
  ∀ a ty, deref s p ≠ Some (BinOp a a ty) ∨ a = NULL.
Proof.
  intros Hrun. destruct (delete_Expression_run s s' p Hrun) as [Hnd Hrem].
  split; [done|]. split; [done|]. intros a ty.
  destruct (decide (a = NULL)) as [|Ha]; [by right|]. left. intros Hp.
  by rewrite (delete_Expression_shared_operand s p a ty Hp Ha) in Hrun.
Qed.

Lemma delete_Expression_unshared_witness :
  ∃ s', delete_Expression 1 own_operands = Some s' ∧
        NoDup (Expression_footprint own_operands 1) ∧
        removed own_operands s' (Expression_footprint own_operands 1) ∧
        ∀ a ty, deref own_operands 1 ≠ Some (BinOp a a ty) ∨ a = NULL.
Proof.
  destruct (delete_Expression 1 own_operands) as [s'|] eqn:Hrun;
    [|by vm_compute in Hrun].
  exists s'. split; [done|].
  exact (delete_Expression_unshared own_operands s' 1 Hrun).
Defined.

Example delete_Expression_shared_operand_example :
  delete_Expression 1 shared_operand = None.
Proof. by apply (delete_Expression_shared_operand shared_operand 1 2 BO_ADD). Qed.

(** ** [argument] over the whole index range *)

(** X10.  For a [size_t] index, [argument(idx)] is element [idx] of
    [parametersIds] followed by [refParameterIds] when that list has such
    an element, and throws [out_of_range] otherwise; it returns a value
    exactly for the indices below the sum of the two sizes. *)
Theorem argument_indexes_concatenation s this nm fid en ps rs mc rt na i :
  deref s this = Some (Function nm fid en ps rs mc rt na) →
  0 ≤ i < SIZE_MAX1 →
  match (ps ++ rs) !! Z.to_nat i with
  | Some v =>
      argument this i s = Some (Returns v) ∧
      i < vector_size ps + vector_size rs
  | None =>
      (∃ what, argument this i s = Some (Throws (out_of_range what))) ∧
      vector_size ps + vector_size rs ≤ i
  end.
Proof.
  intros Hthis [Hi0 Himax].
  assert (0 ≤ vector_size ps ∧ 0 ≤ vector_size rs) as [??]
    by (unfold vector_size; lia).
  destruct ((ps ++ rs) !! Z.to_nat i) as [v|] eqn:Hv.
  - assert (i < vector_size ps + vector_size rs) as Hlt.
    { apply lookup_lt_Some in Hv. rewrite length_app in Hv.
      unfold vector_size. lia. }
    split; [|done].
    destruct (decide (i < vector_size ps)) as [Hps|Hps].
    + destruct (argument_ordinary s this nm fid en ps rs mc rt na Hthis i)
        as (v' & Hv' & ->); [lia|].
      rewrite lookup_app_l in Hv by (unfold vector_size in Hps; lia).
      congruence.
    + destruct (argument_reference s this nm fid en ps rs mc rt na Hthis i)
        as (v' & Hv' & ->); [lia|done|].
      rewrite lookup_app_r in Hv by (unfold vector_size in Hps; lia).
      replace (Z.to_nat i - length ps)%nat
        with (Z.to_nat (i - vector_size ps)) in Hv
        by (unfold vector_size; lia).
      congruence.
  - assert (vector_size ps + vector_size rs ≤ i) as Hge.
    { apply lookup_ge_None in Hv. rewrite length_app in Hv.
      unfold vector_size. lia. }
    split; [|done]. eexists.
    by apply (argument_out_of_range s this nm fid en ps rs mc rt na Hthis).
Qed.

Lemma argument_indexes_concatenation_witness :
  (argument 1 2 fn_2_1 = Some (Returns 20) ∧ 2 < 2 + 1) ∧
  ((∃ what, argument 1 7 fn_2_1 = Some (Throws (out_of_range what))) ∧
   2 + 1 ≤ 7).
Proof.
  assert (∀ i, 0 ≤ i < 8 → 0 ≤ i < SIZE_MAX1) as Hsz
    by (unfold SIZE_MAX1; lia).
  split.
  - exact (argument_indexes_concatenation fn_2_1 1 "f" 0 2 [10; 11] [20] []
             VT_Int NULL 2 eq_refl (Hsz 2 ltac:(lia))).
  - exact (argument_indexes_concatenation fn_2_1 1 "f" 0 2 [10; 11] [20] []
             VT_Int NULL 7 eq_refl (Hsz 7 ltac:(lia))).
Defined.

(** ** Constructors of [Function] *)

Lemma new_spec e s :
  (new e s).1 ≠ NULL ∧ deref s (new e s).1 = None ∧
  deref (new e s).2 (new e s).1 = Some e ∧
  (∀ q, q ≠ (new e s).1 → deref (new e s).2 q = deref s q) ∧
  released (new e s).2 = released s.
Proof.
  unfold new; simpl. destruct (new_address_fresh s) as (Hnn & Hfree & _).
  split; [done|]. split; [unfold deref; by rewrite decide_False|].
  split; [by apply deref_store_eq|]. split; [|done].
  intros q Hq. by apply deref_store_ne.
Qed.

Section fresh_function.
Context (entry_name name : string) (id : Z) (rt : VarType) (address : ptr)
        (s : State).

Let en := (new (Block_ctor entry_name) s).1.
Let s1 := (new (Block_ctor entry_name) s).2.
Let f := (new (Function name id en [] [] [] rt address) s1).1.
Let s' := (new (Function name id en [] [] [] rt address) s1).2.

Lemma fresh_function_objects :
  deref s en = None ∧ deref s f = None ∧ f ≠ en ∧
  deref s' f = Some (Function name id en [] [] [] rt address) ∧
  deref s' en = Some (Block_ctor entry_name) ∧
  (∀ q e, deref s q = Some e → deref s' q = Some e).
Proof.
  destruct (new_spec (Block_ctor entry_name) s) as (Hen_nn & Hen & Hen1 & Hk1 & _).
  destruct (new_spec (Function name id en [] [] [] rt address) s1)
    as (Hf_nn & Hf & Hf' & Hk2 & _).
  fold en s1 in Hen_nn, Hen, Hen1, Hk1. fold f s' in Hf_nn, Hf, Hf', Hk2.
  assert (f ≠ en) as Hne by (intros Heq; rewrite Heq in Hf; congruence).
  assert (deref s f = None) as Hf0 by by rewrite <- Hk1.
  split; [done|]. split; [done|]. split; [done|]. split; [done|]. split.
  - by rewrite Hk2.
  - intros q e Hq. rewrite Hk2, Hk1; [done|..]; intros ->; congruence.
Qed.

Lemma fresh_function_queries :
  isNative f s' = Some (negb (bool_decide (address = NULL))) ∧
  arguments f s' = Some 0 ∧
  (∀ i, 0 ≤ i < SIZE_MAX1 →
        argument f i s'
        = Some (Throws (out_of_range (out_of_range_message 0 i)))) ∧
  Function_entry s' f = Some en ∧
  isEntry en s' = Some true ∧ isLastBlock en s' = Some true ∧
  isEmpty en s' = Some false.
Proof.
  destruct fresh_function_objects as (_ & _ & _ & Hf & Hen & _).
  split; [unfold isNative; by rewrite Hf|].
  split; [by rewrite (arguments_eq _ _ _ _ _ _ _ _ _ _ Hf)|].
  split.
  { intros i Hi.
    rewrite (argument_out_of_range _ _ _ _ _ _ _ _ _ _ Hf i)
      by (unfold vector_size; simpl; lia).
    unfold vector_size; simpl. by rewrite Z.sub_0_r. }
  split; [unfold Function_entry; by rewrite Hf|].
  unfold Block_ctor in Hen.
  split; [unfold isEntry; by rewrite (Block_predecessors_eq _ _ _ _ _ _ Hen)|].
  split; [by rewrite (isLastBlock_eq _ _ _ _ _ _ Hen)|].
  unfold isEmpty. rewrite (Block_contents_eq _ _ _ _ _ _ Hen). simpl.
  by rewrite (isLastBlock_eq _ _ _ _ _ _ Hen).
Qed.
End fresh_function.

(** X11.  A function built by [Function(id, returnType, name)] or by the
    native constructor sits at a new address with a new entry block, and
    no object that existed is changed.  It has no arguments, so
    [argument(i)] throws for every index (the message then carries the
    index asked for); its entry block has no predecessor, no transition
    and is not a forwarding block; [isNative()] is false for the first
    constructor and, for the native one, true exactly when the address
    given is not null. *)
Theorem new_Function_properties toString id rt name address s :
  (∃ f en s',
     new_Function toString id rt name s = (f, s') ∧
     deref s f = None ∧ deref s en = None ∧ f ≠ en ∧
     deref s' en = Some (Block_ctor (toString id)) ∧
     (∀ q e, deref s q = Some e → deref s' q = Some e) ∧
     isNative f s' = Some false ∧ arguments f s' = Some 0 ∧
     (∀ i, 0 ≤ i < SIZE_MAX1 →
           argument f i s'
           = Some (Throws (out_of_range (out_of_range_message 0 i)))) ∧
     Function_entry s' f = Some en ∧
     isEntry en s' = Some true ∧ isLastBlock en s' = Some true ∧
     isEmpty en s' = Some false) ∧
  (∃ f en s',
     new_native_Function id address rt name s = (f, s') ∧
     deref s f = None ∧ deref s en = None ∧ f ≠ en ∧
     deref s' en = Some (Block_ctor "NATIVE_STUB") ∧
     (∀ q e, deref s q = Some e → deref s' q = Some e) ∧
     isNative f s' = Some (negb (bool_decide (address = NULL))) ∧
     arguments f s' = Some 0 ∧
     Function_entry s' f = Some en ∧
     isEntry en s' = Some true ∧ isLastBlock en s' = Some true).
Proof.
  split.
  - destruct (fresh_function_objects (toString id) name id rt NULL s)
      as (Hen & Hf & Hne & _ & Hen' & Hkeep).
    destruct (fresh_function_queries (toString id) name id rt NULL s)
      as (Hnative & Hargs & Harg & Hentry & Hpreds & Hlast & Hempty).
    set (en := (new (Block_ctor (toString id)) s).1) in *.
    set (s1 := (new (Block_ctor (toString id)) s).2) in *.
    exists (new (Function name id en [] [] [] rt NULL) s1).1, en,
      (new (Function name id en [] [] [] rt NULL) s1).2.
    split; [done|]. by repeat (split; [done|]).
  - destruct (fresh_function_objects "NATIVE_STUB" name id rt address s)
      as (Hen & Hf & Hne & _ & Hen' & Hkeep).
    destruct (fresh_function_queries "NATIVE_STUB" name id rt address s)
      as (Hnative & Hargs & Harg & Hentry & Hpreds & Hlast & Hempty).
    set (en := (new (Block_ctor "NATIVE_STUB") s).1) in *.
    set (s1 := (new (Block_ctor "NATIVE_STUB") s).2) in *.
    exists (new (Function name id en [] [] [] rt address) s1).1, en,
      (new (Function name id en [] [] [] rt address) s1).2.
    split; [done|]. by repeat (split; [done|]).
Qed.

(** ** The block queries after a linkage call *)

Lemma Block_contents_fields s b :
  Block_contents s b = (λ f, f.2) <$> Block_fields s b.
Proof.
  unfold Block_contents, Block_fields. by destruct (deref s b) as [[]|].
Qed.

Lemma same_fields_contents s s' :
  (∀ b, Block_fields s' b = Block_fields s b) →
  ∀ q, Block_contents s' q = Block_contents s q.
Proof. intros Hsame q. by rewrite !Block_contents_fields, Hsame. Qed.

Lemma isEmpty_with s this t c :
  Block_contents s this = Some c → Block_transition s this = Some t →
  t ≠ NULL →
  isEmpty this s
  = (if bool_decide (c = []) then call_is ir_JumpAlways s t else Some false).
Proof.
  intros Hc Ht Hnn. unfold isEmpty, isLastBlock, getTransition.
  rewrite Hc, Ht. simpl. rewrite (bool_decide_eq_false_2 (t = NULL)) by done.
  simpl. by destruct c.
Qed.

Section linked_queries.
Context (s s' : State) (this x : ptr) (c : list ptr).
Hypothesis Hc : Block_contents s this = Some c.

Lemma link_queries :
  link this x s = Some s' →
  Block_contents s' this = Some c ∧ isLastBlock this s' = Some false ∧
  isEmpty this s' = Some (bool_decide (c = [])).
Proof.
  unfold link. intros Hrun.
  destruct (Block_transition s this) as [t|]; [|done]. simpl in Hrun.
  destruct (if decide (t = NULL) then Some s else delete_Jump t s)
    as [s1|] eqn:Hs1; [|done].
  simpl in Hrun. unfold new in Hrun.
  destruct (new_address_fresh s1) as (Hj_nn & Hj_free & _).
  set (j := new_address s1) in *.
  set (s2 := store j (JumpAlways x) s1) in *.
  destruct (set_Block_transition this j s2) as [s3|] eqn:Hs3; [|done].
  simpl in Hrun.
  destruct (set_Block_transition_frame _ _ _ _ Hs3)
    as (Ht3 & _ & Hc3 & Hk3 & _).
  destruct (addPredecessor_frame _ _ _ _ Hrun) as (Ht4 & Hc4 & Hk4 & _).
  assert (deref s' j = Some (JumpAlways x)) as Hj.
  { apply Hk4; [|done]. apply Hk3; [|done].
    unfold s2. by rewrite deref_store_eq. }
  assert (Block_contents s' this = Some c) as Hc'.
  { rewrite Hc4, Hc3.
    rewrite (same_fields_contents s1 s2) by (intros b; apply new_fields; done).
    by rewrite (same_fields_contents s s1)
      by by apply (release_prior_fields t). }
  assert (Block_transition s' this = Some j) as Ht' by by rewrite Ht4.
  split; [done|]. split.
  - unfold isLastBlock, getTransition. rewrite Ht'. simpl.
    by rewrite bool_decide_eq_false_2.
  - rewrite (isEmpty_with s' this j c) by done.
    unfold call_is. rewrite Hj. simpl. by case_bool_decide.
Qed.

Lemma link_cond_queries :
  link_cond this x s = Some s' →
  Block_contents s' this = Some c ∧ isLastBlock this s' = Some false ∧
  isEmpty this s' = Some false.
Proof.
  unfold link_cond. intros Hrun.
  destruct (Block_transition s this) as [t|]; [|done]. simpl in Hrun.
  destruct (if decide (t = NULL) then Some s else delete_Jump t s)
    as [s1|] eqn:Hs1; [|done].
  simpl in Hrun.
  destruct (set_Block_transition this x s1) as [s2|] eqn:Hs2; [|done].
  simpl in Hrun.
  destruct (JumpCond_yes s2 x) as [y|] eqn:Hy; [|done]. simpl in Hrun.
  destruct (addPredecessor y this s2) as [s3|] eqn:Hs3; [|done].
  simpl in Hrun.
  destruct (JumpCond_no s3 x) as [n|] eqn:Hn; [|done]. simpl in Hrun.
  destruct (set_Block_transition_frame _ _ _ _ Hs2)
    as (Ht2 & _ & Hc2 & _ & _).
  destruct (addPredecessor_frame _ _ _ _ Hs3) as (Ht3 & Hc3 & Hk3 & _).
  destruct (addPredecessor_frame _ _ _ _ Hrun) as (Ht4 & Hc4 & Hk4 & _).
  unfold JumpCond_yes in Hy.
  destruct (deref s2 x) as [e|] eqn:Hx2; [|done]. simpl in Hy.
  destruct e as [| | | | | | | | | | | | | |y0 n0 cnd| |]; try done.
  pose proof (deref_Some_nonnull _ _ _ Hx2) as Hx_nn.
  assert (deref s' x = Some (JumpCond y0 n0 cnd)) as Hx.
  { apply Hk4; [|done]. by apply Hk3. }
  assert (Block_contents s' this = Some c) as Hc'.
  { rewrite Hc4, Hc3, Hc2.
    by rewrite (same_fields_contents s s1)
      by by apply (release_prior_fields t). }
  assert (Block_transition s' this = Some x) as Ht' by by rewrite Ht4, Ht3.
  split; [done|]. split.
  - unfold isLastBlock, getTransition. rewrite Ht'. simpl.
    by rewrite bool_decide_eq_false_2.
  - rewrite (isEmpty_with s' this x c) by done.
    unfold call_is. rewrite Hx. simpl. by case_bool_decide.
Qed.

Lemma setTransition_queries :
  setTransition this x s = Some s' →
  Block_contents s' this = Some c ∧
  isLastBlock this s' = Some (bool_decide (x = NULL)) ∧
  ∃ b, isEmpty this s' = Some b ∧
       (b = true ↔ c = [] ∧ call_is ir_JumpAlways s x = Some true).
Proof.
  intros Hrun.
  destruct (setTransition_frame s s' this x Hrun) as (Ht' & _ & Hk & Hc').
  rewrite <- Hc' in Hc.
  split; [done|]. split.
  { unfold isLastBlock, getTransition. by rewrite Ht'. }
  destruct (decide (x = NULL)) as [->|Hx].
  { exists false. split.
    - unfold isEmpty, isLastBlock, getTransition. rewrite Hc, Ht'. simpl.
      by case_bool_decide.
    - unfold call_is. rewrite deref_NULL. naive_solver. }
  rewrite (isEmpty_with s' this x c) by done.
  unfold setTransition in Hrun.
  destruct (set_Block_transition this x s) as [s1|] eqn:Hs1; [|done].
  simpl in Hrun. rewrite decide_False in Hrun by done.
  destruct (set_Block_transition_inv _ _ _ _ Hs1)
    as (t & n & preds & c0 & Hthis & ->).
  unfold call_is in Hrun at 1.
  destruct (deref (store this (Block x n preds c0) s) x) as [e|] eqn:Hx1;
    [|done].
  assert (deref s x = Some e ∧ variant e ≠ ir_Block) as [Hxs He].
  { rewrite deref_store in Hx1. rewrite decide_False in Hx1 by done.
    destruct (decide (this = x)) as [->|?]; [|].
    - injection Hx1 as <-. simpl in Hrun. unfold call_as in Hrun.
      rewrite deref_store_eq in Hrun by done. by simpl in Hrun.
    - split; [done|]. simpl in Hrun. destruct e; try done.
      simpl in Hrun. unfold call_as in Hrun.
      rewrite deref_store_ne in Hrun by done.
      rewrite Hx1 in Hrun. by simpl in Hrun. }
  unfold call_is. rewrite (Hk _ _ Hxs He), Hxs. simpl.
  case_bool_decide; [|naive_solver].
  destruct (is_ (vtable_of e x) ir_JumpAlways); eexists; (split; [done|]);
    naive_solver.
Qed.
End linked_queries.

(** X12.  What a block answers after a linkage call that returned.  The
    statements are untouched.  After [link(next)] the block is not a last
    block and [isEmpty()] holds exactly when it has no statement; after
    [link(cond)] it is not a last block and never empty; after
    [setTransition(jmp)] it is a last block exactly when [jmp] is null,
    and empty exactly when it has no statement and [jmp] is a
    [JumpAlways]. *)
Theorem block_queries_after_linkage s s' this x c :
  Block_contents s this = Some c →
  (link this x s = Some s' →
     Block_contents s' this = Some c ∧ isLastBlock this s' = Some false ∧
     isEmpty this s' = Some (bool_decide (c = []))) ∧
  (link_cond this x s = Some s' →
     Block_contents s' this = Some c ∧ isLastBlock this s' = Some false ∧
     isEmpty this s' = Some false) ∧
  (setTransition this x s = Some s' →
     Block_contents s' this = Some c ∧
     isLastBlock this s' = Some (bool_decide (x = NULL)) ∧
     ∃ b, isEmpty this s' = Some b ∧
          (b = true ↔ c = [] ∧ call_is ir_JumpAlways s x = Some true)).
Proof.
  intros Hc. split; [|split].
  - by apply link_queries.
  - by apply link_cond_queries.
  - by apply setTransition_queries.
Qed.

Lemma block_queries_after_linkage_witness :
  (∃ s', link 1 3 relinkable = Some s' ∧ isEmpty 1 s' = Some true) ∧
  (∃ s', link 1 2 forwarding_print = Some s' ∧ isEmpty 1 s' = Some false) ∧
  (∃ s', setTransition 1 4 two_jumps = Some s' ∧
         isLastBlock 1 s' = Some false ∧ isEmpty 1 s' = Some false).
Proof.
  split; [|split].
  - destruct (link 1 3 relinkable) as [s'|] eqn:Hrun;
      [|by vm_compute in Hrun].
    exists s'. split; [done|].
    destruct (block_queries_after_linkage relinkable s' 1 3 [] eq_refl)
      as (Hlink & _).
    by destruct (Hlink Hrun) as (_ & _ & ->).
  - destruct (link 1 2 forwarding_print) as [s'|] eqn:Hrun;
      [|by vm_compute in Hrun].
    exists s'. split; [done|].
    destruct (block_queries_after_linkage forwarding_print s' 1 2 [4%N]
                eq_refl) as (Hlink & _).
    by destruct (Hlink Hrun) as (_ & _ & ->).
  - destruct (setTransition 1 4 two_jumps) as [s'|] eqn:Hrun;
      [|by vm_compute in Hrun].
    exists s'. split; [done|].
    destruct (block_queries_after_linkage two_jumps s' 1 4 [] eq_refl)
      as (_ & _ & Hset).
    destruct (Hset Hrun) as (_ & Hlast & b & Hb & Hiff).
    split; [done|]. rewrite Hb. f_equal.
    destruct b; [|done]. by destruct Hiff as [[_ ?] _].
Defined.

(** ** Statements that can be deleted *)

Lemma deleted_once_nil s : deleted_once s s [].
Proof.
  split; [constructor|]. split; [apply removed_nil|].
  by intros q ?%elem_of_nil.
Qed.

Lemma deleted_once_free p s s' : free p s = Some s' → deleted_once s s' [p].
Proof.
  intros Hfree. split; [apply NoDup_singleton|].
  split; [by apply removed_free|].
  intros q ->%list_elem_of_singleton.
  apply free_inv in Hfree as (e & -> & _). by exists e.
Qed.

Lemma deleted_once_app s s1 s' F1 F2 :
  deleted_once s s1 F1 → deleted_once s1 s' F2 →
  deleted_once s s' (F1 ++ F2).
Proof.
  intros (Hnd1 & Hrem1 & Hlive1) (Hnd2 & Hrem2 & Hlive2).
  split; [|split].
  - apply NoDup_app. split; [done|]. split; [|done].
    intros q Hq1 Hq2. destruct (Hlive2 q Hq2) as [e He].
    destruct Hrem1 as [Hd _]. rewrite Hd, decide_True in He by done. done.
  - by eapply removed_trans.
  - intros q [Hq|Hq]%elem_of_app; [by apply Hlive1|].
    destruct (Hlive2 q Hq) as [e He]. exists e.
    by eapply removed_deref_Some.
Qed.

Lemma deleted_once_nonnull p s s' :
  (p = NULL ∧ s' = s) ∨ (p ≠ NULL ∧ free p s = Some s') →
  deleted_once s s' (nonnull p).
Proof.
  unfold nonnull. intros [[-> ->]|[Hp Hfree]].
  - rewrite decide_True by done. apply deleted_once_nil.
  - rewrite decide_False by done. by apply deleted_once_free.
Qed.

Lemma delete_Atom_once a s s' :
  delete_Atom a s = Some s' → deleted_once s s' (nonnull a).
Proof.
  intros [?|(Ha & e & _ & _ & Hfree)]%delete_Atom_inv;
    apply deleted_once_nonnull; [by left|by right].
Qed.

Lemma delete_Variable_once a s s' :
  delete_Variable a s = Some s' → deleted_once s s' (nonnull a).
Proof.
  unfold delete_Variable. intros Hrun. apply deleted_once_nonnull.
  destruct (decide (a = NULL)) as [->|Ha]; [left; by injection Hrun as <-|].
  right. split; [done|].
  destruct (deref s a) as [e|]; [|done]. by destruct e.
Qed.

Section each_once.
Context (del : ptr → State → option State).
Hypothesis del_once :
  ∀ a s s', del a s = Some s' → deleted_once s s' (nonnull a).

Lemma delete_each_once ps s s' :
  delete_each del ps s = Some s' →
  deleted_once s s' (concat (Atom_footprint s <$> ps)).
Proof.
  revert s. induction ps as [|a ps IH]; intros s; csimpl.
  { intros [= <-]. apply deleted_once_nil. }
  destruct (del a s) as [s1|] eqn:Ha; [|done]. simpl. intros Hrun.
  apply (deleted_once_app s s1 s'); [by apply del_once|].
  change (concat (Atom_footprint s <$> ps))
    with (concat (Atom_footprint s1 <$> ps)).
  by apply IH.
Qed.
End each_once.

Lemma delete_Expression_once s s' p :
  delete_Expression p s = Some s' →
  deleted_once s s' (Expression_footprint s p).
Proof.
  unfold delete_Expression, Expression_footprint.
  case_decide as Hnull.
  { intros [= <-]. apply deleted_once_nil. }
  destruct (deref s p) as [e|] eqn:Hp; [|done]. simpl.
  destruct e; try done; try apply deleted_once_free; intros Hrun.
  - (* BinOp *)
    destruct (delete_Atom left s) as [s1|] eqn:Hl; [|done]. simpl in Hrun.
    destruct (delete_Atom right s1) as [s2|] eqn:Hr; [|done]. simpl in Hrun.
    apply (deleted_once_app s s1 s'); [by apply delete_Atom_once|].
    apply (deleted_once_app s1 s2 s'); [by apply delete_Atom_once|].
    by apply deleted_once_free.
  - (* UnOp *)
    destruct (delete_Atom operand s) as [s1|] eqn:Ho; [|done].
    simpl in Hrun.
    apply (deleted_once_app s s1 s'); [by apply delete_Atom_once|].
    by apply deleted_once_free.
  - (* Call *)
    destruct (delete_each delete_Atom params s) as [s1|] eqn:Hps; [|done].
    simpl in Hrun.
    apply (deleted_once_app s s1 s'); [|by apply deleted_once_free].
    by apply (delete_each_once delete_Atom delete_Atom_once).
Qed.

Lemma Expression_footprint_deref s s1 x :
  deref s1 x = deref s x →
  Expression_footprint s1 x = Expression_footprint s x.
Proof. unfold Expression_footprint, Atom_footprint. by intros ->. Qed.

Lemma delete_Statement_once s s' p :
  delete_Statement p s = Some s' →
  deleted_once s s' (Statement_footprint s p).
Proof.
  unfold delete_Statement, Statement_footprint.
  case_decide as Hnull.
  { intros [= <-]. apply deleted_once_nil. }
  destruct (deref s p) as [e|] eqn:Hp; [|done]. simpl.
  destruct e; try done; try apply deleted_once_free; intros Hrun.
  - (* Return *)
    destruct (delete_Atom atom s) as [s1|] eqn:Ha; [|done]. simpl in Hrun.
    apply (deleted_once_app s s1 s'); [by apply delete_Atom_once|].
    by apply deleted_once_free.
  - (* Phi *)
    destruct (delete_Variable var s) as [s1|] eqn:Hv; [|done].
    simpl in Hrun.
    destruct (delete_each delete_Variable (elements vars) s1) as [s2|]
      eqn:Hvs; [|done].
    simpl in Hrun.
    apply (deleted_once_app s s1 s'); [by apply delete_Variable_once|].
    apply (deleted_once_app s1 s2 s'); [|by apply deleted_once_free].
    change (concat (Atom_footprint s <$> elements vars))
      with (concat (Atom_footprint s1 <$> elements vars)).
    by apply (delete_each_once delete_Variable delete_Variable_once).
  - (* Assignment *)
    destruct (delete_Variable var s) as [s1|] eqn:Hv; [|done].
    simpl in Hrun.
    destruct (delete_Expression value s1) as [s2|] eqn:Hx; [|done].
    simpl in Hrun.
    pose proof (delete_Variable_once _ _ _ Hv) as Hvar.
    apply (deleted_once_app s s1 s'); [done|].
    apply (deleted_once_app s1 s2 s'); [|by apply deleted_once_free].
    rewrite <- (Expression_footprint_deref s s1 value);
      [by apply delete_Expression_once|].
    destruct Hvar as (_ & [Hd _] & _). rewrite Hd.
    destruct (decide (value ∈ nonnull var)) as [Hin|]; [|done].
    apply nonnull_elem in Hin as [-> Hnn].
    unfold delete_Expression in Hx. rewrite decide_False in Hx by done.
    rewrite Hd, decide_True in Hx by by apply nonnull_elem. done.
  - (* Print *)
    destruct (delete_Atom atom s) as [s1|] eqn:Ha; [|done]. simpl in Hrun.
    apply (deleted_once_app s s1 s'); [by apply delete_Atom_once|].
    by apply deleted_once_free.
  - (* JumpCond *)
    destruct (delete_Atom condition s) as [s1|] eqn:Ha; [|done].
    simpl in Hrun.
    apply (deleted_once_app s s1 s'); [by apply delete_Atom_once|].
    by apply deleted_once_free.
  - (* WriteRef *)
    destruct (delete_Atom atom s) as [s1|] eqn:Ha; [|done]. simpl in Hrun.
    apply (deleted_once_app s s1 s'); [by apply delete_Atom_once|].
    by apply deleted_once_free.
Qed.

(** X13.  Whenever [delete] on a statement returns, it has deallocated
    the statement and everything its destructor owns ([var] and [value]
    of an [Assignment] with the operands of the value, the atom of a
    [Return], [Print] or [WriteRef], [var] and [vars] of a [Phi], the
    condition of a [JumpCond]), each object once, and these were pairwise
    distinct.  So a [Phi] whose own variable object is among its sources,
    or an [Assignment] whose value is its variable object, cannot be
    deleted. *)
Theorem delete_Statement_unshared s s' p :
  delete_Statement p s = Some s' →
  NoDup (Statement_footprint s p) ∧
  removed s s' (Statement_footprint s p) ∧
  (∀ v vs, deref s p = Some (Phi v vs) → v ≠ NULL → v ∉ vs) ∧
  (∀ v x, deref s p = Some (Assignment v x) → v ≠ NULL → x ≠ v).
Proof.
  intros Hrun. destruct (delete_Statement_once s s' p Hrun) as (Hnd & Hrem & _).
  split; [done|]. split; [done|]. split.
  - intros v vs Hp Hv Hin. pose proof (deref_Some_nonnull _ _ _ Hp).
    unfold Statement_footprint in Hnd. rewrite decide_False, Hp in Hnd by done.
    apply NoDup_app in Hnd as (_ & Hdisj & _).
    apply (Hdisj v); [by apply nonnull_elem|].
    apply elem_of_app. left.
    apply (elem_of_concat_fmap (Atom_footprint s) (elements vs) v v);
      [by apply elem_of_elements|by apply nonnull_elem].
  - intros v x Hp Hv ->. pose proof (deref_Some_nonnull _ _ _ Hp).
    unfold Statement_footprint in Hnd. rewrite decide_False, Hp in Hnd by done.
    apply NoDup_app in Hnd as (_ & Hdisj & _).
    apply (Hdisj v); [by apply nonnull_elem|].
    apply elem_of_app. left. by apply Expression_footprint_self.
Qed.

Lemma delete_Statement_unshared_witness :
  ∃ s', delete_Statement 1 phi_statement = Some s' ∧
        NoDup (Statement_footprint phi_statement 1) ∧
        removed phi_statement s' (Statement_footprint phi_statement 1).
Proof.
  destruct (delete_Statement 1 phi_statement) as [s'|] eqn:Hrun;
    [|by vm_compute in Hrun].
  exists s'. split; [done|].
  destruct (delete_Statement_unshared phi_statement s' 1 Hrun)
    as (Hnd & Hrem & _).
  by split.
Defined.

Example delete_Phi_own_variable :
  delete_Statement 1 phi_self = None.
Proof. by vm_compute. Qed.

(** ** [relink] on a conditional jump *)












(** On [branch], [relink(A, C)] puts a new [JumpCond] to C and B on the
    same condition in place of the one at 4, which is released; the
    condition at 5 stays. *)
Example relink_replaces_the_Jump :
  ∃ s' t', relink 1 2 6 branch = Some (true, s') ∧
           getTransition 1 s' = Some t' ∧ t' ≠ 4%N ∧
           deref s' t' = Some (JumpCond 6 3 5) ∧
           deref s' 4 = None ∧ released s' = [4%N] ∧
           deref s' 5 = Some (Variable_ 0).
Proof.
  destruct (relink 1 2 6 branch) as [[b s']|] eqn:Hrun;
    [|by vm_compute in Hrun].
  vm_compute in Hrun. injection Hrun as <- <-.
  eexists _, _. split; [done|]. split; [by vm_compute|]. by vm_compute.
Qed.
